(** * Resilience layer of the generation pipeline: a shallow embedding

    The development follows the TypeScript sources: the provider registry and
    its fallback orchestrator (lib/ai-providers/registry.ts), the Claude and
    Gemini adapters with their model cascades, the batch translation
    dispatcher, the Gemini schema conversion and the takeaway recovery
    routine.  Definitions come first, grouped in modules named after the
    source files; the statements about them follow.

    Texts are values of [string]: sequences of 8-bit code units, read as the
    Latin-1 range of JavaScript's UTF-16 strings. *)

From Stdlib Require Import String Ascii ZArith NArith Lia Bool List DecimalString.
From stdpp Require Import base option list.
Import ListNotations.

#[global] Set Warnings "-register-all".

Local Open Scope string_scope.

(** ** JavaScript strings and thrown values *)
Module Js.

Definition code (c : ascii) : N := N_of_ascii c.

(** [WhiteSpace] and [LineTerminator] of ECMAScript below U+0100: what
    [String.prototype.trim] strips and what the regular-expression class
    [\s] accepts. *)
Definition isWhiteSpace (c : ascii) : bool :=
  let n := code c in
  ((9 <=? n) && (n <=? 13) || (n =? 32) || (n =? 160))%N.

Fixpoint trimStart (s : string) : string :=
  match s with
  | EmptyString => EmptyString
  | String c r => if isWhiteSpace c then trimStart r else s
  end.

Fixpoint trimEnd (s : string) : string :=
  match s with
  | EmptyString => EmptyString
  | String c r =>
      match trimEnd r with
      | EmptyString => if isWhiteSpace c then EmptyString else String c EmptyString
      | r' => String c r'
      end
  end.

Definition trim (s : string) : string := trimEnd (trimStart s).

(** [toLowerCase] on the Latin-1 range: A-Z and the accented capitals
    (U+00C0-U+00DE, the multiplication sign apart) move up by 32. *)
Definition toLowerChar (c : ascii) : ascii :=
  let n := code c in
  if ((65 <=? n) && (n <=? 90) || (192 <=? n) && (n <=? 222) && negb (n =? 215))%N
  then ascii_of_N (n + 32) else c.

Fixpoint toLowerCase (s : string) : string :=
  match s with
  | EmptyString => EmptyString
  | String c r => String (toLowerChar c) (toLowerCase r)
  end.

Definition startsWith (s p : string) : bool := String.prefix p s.

(** [s.includes(needle)] *)
Fixpoint includes (s needle : string) : bool :=
  String.prefix needle s ||
  match s with
  | EmptyString => false
  | String _ r => includes r needle
  end.

(** [needle] occurs in [s] as a contiguous run of code units. *)
Definition Contains (s needle : string) : Prop :=
  exists before after, s = before ++ needle ++ after.

(** A string is truthy unless it is empty. *)
Definition nonEmpty (s : string) : bool :=
  match s with EmptyString => false | _ => true end.

(** A property of a thrown object: absent, a number or a string. *)
Inductive Field : Type :=
| FAbsent
| FNum (n : Z)
| FStr (s : string).

(** [a ?? b] *)
Definition nullish (a b : Field) : Field :=
  match a with FAbsent => b | _ => a end.

(** [f === n] for a number literal [n] *)
Definition isNum (f : Field) (n : Z) : bool :=
  match f with FNum m => (m =? n)%Z | _ => false end.

(** What a [catch] clause can receive: a falsy value ([undefined], [null]),
    a string, or an instance of [Error] with its message and the [status]
    and [code] properties the SDKs attach. *)
Inductive Thrown : Type :=
| ThrownNothing
| ThrownString (s : string)
| ThrownError (message : string) (status code : Field).

(** [new Error(msg)] *)
Definition Error (msg : string) : Thrown := ThrownError msg FAbsent FAbsent.

(** [!!error] *)
Definition truthy (e : Thrown) : bool :=
  match e with
  | ThrownNothing => false
  | ThrownString s => nonEmpty s
  | ThrownError _ _ _ => true
  end.

(** [error instanceof Error ? error.message : String(error)] *)
Definition messageOrString (e : Thrown) : string :=
  match e with
  | ThrownNothing => "undefined"
  | ThrownString s => s
  | ThrownError m _ _ => m
  end.

(** [error instanceof Error ? error.message : 'Unknown error'] *)
Definition messageOrUnknown (e : Thrown) : string :=
  match e with
  | ThrownError m _ _ => m
  | _ => "Unknown error"
  end.

Definition statusOf (e : Thrown) : Field :=
  match e with ThrownError _ s _ => s | _ => FAbsent end.

Definition codeOf (e : Thrown) : Field :=
  match e with ThrownError _ _ c => c | _ => FAbsent end.

End Js.

(** ** Schema conversion of the Gemini adapter *)
Module Schema.

(** The JSON Schema object that [z.toJSONSchema] produces, with the keywords
    the converter reads.  [type_] holds the [type] keyword, [enum] the
    allowed values of a string enumeration. *)
Inductive JsonSchema : Type :=
  mkJsonSchema {
    anyOf : option (list JsonSchema);
    oneOf : option (list JsonSchema);
    type_ : option string;
    properties : option (list (string * JsonSchema));
    required : option (list string);
    items : option JsonSchema;
    minItems : option Z;
    maxItems : option Z;
    pattern : option string;
    enum : option (list string)
  }.

(** [SchemaType] of @google/generative-ai *)
Inductive SchemaType : Type := STRING | NUMBER | BOOLEAN | ARRAY | OBJECT.

(** The object the converter builds; a field it does not set is [None]. *)
Inductive GeminiSchema : Type :=
  mkGeminiSchema {
    g_type : SchemaType;
    g_properties : option (list (string * GeminiSchema));
    g_required : option (list string);
    g_items : option GeminiSchema;
    g_minItems : option Z;
    g_maxItems : option Z;
    g_pattern : option string;
    g_enum : option (list string);
    g_nullable : bool
  }.

(** [{ type: t }] *)
Definition plain (t : SchemaType) : GeminiSchema :=
  mkGeminiSchema t None None None None None None None false.

(** [converted.nullable = true] *)
Definition setNullable (g : GeminiSchema) : GeminiSchema :=
  mkGeminiSchema (g_type g) (g_properties g) (g_required g) (g_items g)
    (g_minItems g) (g_maxItems g) (g_pattern g) (g_enum g) true.

Definition typeIs (s : JsonSchema) (t : string) : bool :=
  match type_ s with Some u => String.eqb u t | None => false end.

(** [jsonSchema.anyOf || jsonSchema.oneOf]: an array is truthy even when
    empty. *)
Definition alternatives (s : JsonSchema) : option (list JsonSchema) :=
  match anyOf s with Some l => Some l | None => oneOf s end.

(** [schemas.filter(schema => schema.type !== 'null')] *)
Definition nonNullSchemas (l : list JsonSchema) : list JsonSchema :=
  filter (fun x => negb (typeIs x "null")) l.

(** The union branch, on the alternatives paired with their conversions:
    with exactly one alternative that is not the null type its conversion
    is marked nullable, with several the first one's conversion is returned
    as it is, and with none the branch falls through to [byType]. *)
Definition convertUnion (paired : list (JsonSchema * GeminiSchema))
    (byType : GeminiSchema) : GeminiSchema :=
  match map snd (filter (fun xc => negb (typeIs (fst xc) "null")) paired) with
  | [c] => setNullable c
  | c :: _ => c
  | [] => byType
  end.

(** [convertToGeminiSchema] on a schema object.  The source converts
    [nonNullSchemas[0]] after filtering; here the alternatives are paired
    with their conversions before the filter, which keeps the recursion
    structural and selects the same conversion. *)
Fixpoint convertToGeminiSchema (s : JsonSchema) : GeminiSchema :=
  match s with
  | mkJsonSchema any one ty props req its minI maxI pat en =>
      let byType :=
        if typeIs s "object" then
          mkGeminiSchema OBJECT
            (Some (match props with
                   | Some entries =>
                       map (fun '(key, value) => (key, convertToGeminiSchema value)) entries
                   | None => []
                   end))
            (Some (default [] req)) None None None None None false
        else if typeIs s "array" then
          mkGeminiSchema ARRAY None None
            (Some (match its with
                   | Some i => convertToGeminiSchema i
                   | None => plain STRING
                   end))
            minI maxI None None false
        else if typeIs s "string" then
          mkGeminiSchema STRING None None None None None pat None false
        else if typeIs s "number" || typeIs s "integer" then plain NUMBER
        else if typeIs s "boolean" then plain BOOLEAN
        else match en with
             | Some values =>
                 mkGeminiSchema STRING None None None None None None (Some values) false
             | None => plain STRING
             end in
      match any, one with
      | Some schemas, _ =>
          convertUnion (map (fun x => (x, convertToGeminiSchema x)) schemas) byType
      | None, Some schemas =>
          convertUnion (map (fun x => (x, convertToGeminiSchema x)) schemas) byType
      | None, None => byType
      end
  end.

(** [convertToGeminiSchema(jsonSchema)] with its guard on a missing
    schema. *)
Definition convertToGeminiSchemaOpt (s : option JsonSchema) : option GeminiSchema :=
  match s with
  | None => None
  | Some js => Some (convertToGeminiSchema js)
  end.

(** The part of [GenerationConfig] that [buildGenerationConfig] derives from
    the schema. *)
Record GenerationConfig : Type := {
  responseMimeType : option string;
  responseSchema : option GeminiSchema
}.

(** Schema objects for examples: [{ type: t }], [{ anyOf: [...] }] and a
    string enumeration as Zod writes it, [{ type: 'string', enum: [...] }]. *)
Definition typed (t : string) : JsonSchema :=
  mkJsonSchema None None (Some t) None None None None None None None.

Definition union (schemas : list JsonSchema) : JsonSchema :=
  mkJsonSchema (Some schemas) None None None None None None None None None.

Definition stringEnum (values : list string) : JsonSchema :=
  mkJsonSchema None None (Some "string") None None None None None None (Some values).

End Schema.

(** ** Provider contracts and the effects of a call (lib/ai-providers/types.ts) *)
Module Providers.
Import Js Schema.

Inductive ProviderKey : Type := grok | gemini | claude.

#[export] Instance ProviderKey_eq_dec : EqDecision ProviderKey.
Proof. solve_decision. Defined.

Definition keyName (k : ProviderKey) : string :=
  match k with grok => "grok" | gemini => "gemini" | claude => "claude" end.

(** [ProviderGenerateParams].  A Zod schema is represented by what
    [z.toJSONSchema] makes of it: the JSON schema, or the value it throws. *)
Record ProviderGenerateParams : Type := {
  prompt : string;
  model : option string;
  timeoutMs : option Z;
  zodSchema : option (Thrown + JsonSchema);
  hasOutputFormat : bool
}.

(** [ProviderGenerateResult] without the usage counters and the raw
    payload. *)
Record ProviderGenerateResult : Type := {
  content : string;
  provider : string;
  usedModel : string
}.

(** How an asynchronous call ends.  [Pending] marks a loop of the model
    that ran out of fuel; the statements below show that no call ends
    there. *)
Inductive Completion (A : Type) : Type :=
| Returned (a : A)
| Threw (e : Thrown)
| Pending.
Arguments Returned {A} a.
Arguments Threw {A} e.
Arguments Pending {A}.

(** What the trace of a call records: an invocation of an adapter's
    [generate], and a request sent to a backend for one model. *)
Inductive Event : Type :=
| AdapterGenerate (k : ProviderKey) (p : ProviderGenerateParams)
| BackendRequest (k : ProviderKey) (model : string).

(** Messages of the Claude agent SDK's [query] stream, as far as
    [callClaude] reads them. *)
Inductive SdkMessage : Type :=
| Assistant (texts : list string) (model : option string)
| ResultSuccess (structured_output : option string) (result : string)
| ResultFailure (subtype : string) (errors : list string)
| OtherMessage.

(** The way the stream stops after its messages: normally, by the abort
    signal of the deadline timer, or by another thrown value. *)
Inductive StreamEnd : Type :=
| Completed
| Aborted
| Failed (e : Thrown).

Record ClaudeOptions : Type := {
  o_model : string;
  o_systemPrompt : string;
  o_outputFormat : option JsonSchema
}.

(** The outcome of [model.generateContent] raced against the deadline:
    a response with its text, a rejection, or the deadline's timer. *)
Inductive GeminiReply : Type :=
| Responded (text : option string)
| Rejected (e : Thrown)
| TimedOut.

(** The backends the adapters talk to.  Each request reads and updates the
    state [World] of the outside; the Grok adapter (grok-adapter.ts) is
    taken as one request, with what it does inside left to the backend. *)
Class Backends (World : Type) : Type := {
  query : string -> ClaudeOptions -> World -> list SdkMessage * StreamEnd * World;
  generateContent : string -> GenerationConfig -> string -> World -> GeminiReply * World;
  grokGenerate : ProviderGenerateParams -> World -> Completion ProviderGenerateResult * World
}.

(** The state a call runs in: the outside world, the module-level
    [providerCache] and the trace. *)
Record Machine (World : Type) : Type := {
  world : World;
  providerCache : ProviderKey -> bool;
  trace : list Event
}.
Arguments world {World} m.
Arguments providerCache {World} m.
Arguments trace {World} m.
Arguments Build_Machine {World} world providerCache trace.

(** Computations that may throw, over the machine state. *)
Definition M (World A : Type) : Type := Machine World -> Completion A * Machine World.

Section Effects.
Context {World : Type}.

Definition ret {A} (a : A) : M World A := fun m => (Returned a, m).

Definition throw {A} (e : Thrown) : M World A := fun m => (Threw e, m).

Definition pending {A} : M World A := fun m => (Pending, m).

Definition bind {A B} (c : M World A) (k : A -> M World B) : M World B :=
  fun m =>
    match c m with
    | (Returned a, m') => k a m'
    | (Threw e, m') => (Threw e, m')
    | (Pending, m') => (Pending, m')
    end.

(** [try { c } catch (error) { handler(error) }] *)
Definition tryCatch {A} (c : M World A) (handler : Thrown -> M World A) : M World A :=
  fun m =>
    match c m with
    | (Threw e, m') => handler e m'
    | other => other
    end.

Definition emit (ev : Event) : M World unit :=
  fun m => (Returned tt, Build_Machine (world m) (providerCache m) (trace m ++ [ev])).

(** A request to the outside world. *)
Definition request {A} (f : World -> A * World) : M World A :=
  fun m =>
    let (a, w) := f (world m) in
    (Returned a, Build_Machine w (providerCache m) (trace m)).

Definition settle {A} (c : Completion A) : M World A := fun m => (c, m).

End Effects.

Declare Scope effect_scope.
Delimit Scope effect_scope with effect.
Notation "x <- c ;; k" := (bind c (fun x => k))
  (at level 100, c at next level, right associativity) : effect_scope.
Notation "c ;; k" := (bind c (fun _ => k))
  (at level 100, right associativity) : effect_scope.

End Providers.

(** ** The Claude adapter (lib/ai-providers/claude-adapter.ts) *)
Module ClaudeAdapter.
Import Js Schema Providers.
Local Open Scope effect_scope.

Definition PROVIDER_NAME : string := "claude".

Definition MODEL_CASCADE : list string :=
  ["claude-haiku-4-5-20251001"; "claude-sonnet-4-6"; "claude-opus-4-6"].

Definition isRetryableError (error : Thrown) : bool :=
  if negb (truthy error) then false
  else
    let message := messageOrString error in
    let lower := toLowerCase message in
    includes lower "429" ||
    includes lower "503" ||
    includes lower "529" ||
    includes lower "overloaded" ||
    includes lower "rate_limit" ||
    includes lower "service unavailable".

(** [Array.prototype.indexOf]: the first position of [x], or -1. *)
Fixpoint indexOf (l : list string) (x : string) : Z :=
  match l with
  | [] => -1
  | y :: r =>
      if String.eqb y x then 0
      else let i := indexOf r x in if (i <? 0)%Z then -1 else (i + 1)%Z
  end.

Definition getNextModel (current : string) : option string :=
  let idx := indexOf MODEL_CASCADE current in
  if ((idx <? 0) || (idx >=? Z.of_nat (length MODEL_CASCADE) - 1))%Z then None
  else MODEL_CASCADE !! Z.to_nat (idx + 1).

Definition buildSystemPrompt (params : ProviderGenerateParams) : string :=
  let parts :=
    app
    ["You are a helpful AI assistant. Respond directly to the user's request.";
     "Do NOT use any tools. Provide your response as text only."]
    (if match zodSchema params with Some _ => negb (hasOutputFormat params) | None => false end
     then ["IMPORTANT: Respond with valid JSON only. No markdown, no code fences, no explanation outside the JSON."]
     else []) in
  String.concat (String (ascii_of_nat 10) EmptyString) parts.

(** The [outputFormat] option: set from the converted schema; when
    [z.toJSONSchema] throws, the failure is logged and the option stays
    unset. *)
Definition outputFormat (params : ProviderGenerateParams) : option JsonSchema :=
  match zodSchema params with
  | Some (inr jsonSchema) => Some jsonSchema
  | Some (inl _) => None
  | None => None
  end.

(** The variables the message loop of [callClaude] updates. *)
Record Collected : Type := {
  resultContent : string;
  structuredOutput : option string;
  resultModel : option string
}.

(** The body of [for await (const message of query(...))]: the collected
    values after the messages, or the error thrown for a failure result. *)
Fixpoint collect (messages : list SdkMessage) (acc : Collected) : Thrown + Collected :=
  match messages with
  | [] => inr acc
  | Assistant texts m :: rest =>
      collect rest
        {| resultContent := resultContent acc ++ String.concat "" texts;
           structuredOutput := structuredOutput acc;
           resultModel := m |}
  | ResultSuccess structured result :: rest =>
      collect rest
        {| resultContent :=
             if negb (nonEmpty (resultContent acc)) && nonEmpty result
             then result else resultContent acc;
           structuredOutput :=
             match structured with Some v => Some v | None => structuredOutput acc end;
           resultModel := resultModel acc |}
  | ResultFailure subtype errors :: _ =>
      let joined := String.concat ", " errors in
      inl (Error ("Claude query failed (" ++ subtype ++ "): " ++
                  (if nonEmpty joined then joined else "unknown error")))
  | OtherMessage :: rest => collect rest acc
  end.

Section Adapter.
Context {World : Type} {backends : Backends World}.

Definition callClaude (prompt : string) (model : string)
    (params : ProviderGenerateParams) : M World ProviderGenerateResult :=
  let options :=
    {| o_model := model;
       o_systemPrompt := buildSystemPrompt params;
       o_outputFormat := outputFormat params |} in
  emit (BackendRequest claude model) ;;
  answer <- request (query prompt options) ;;
  let '(messages, ending) := answer in
  match collect messages (Build_Collected "" None None) with
  | inl error => throw error
  | inr acc =>
      match ending with
      | Aborted => throw (Error "Claude request timed out.")
      | Failed error => throw error
      | Completed =>
          let finalContent :=
            match structuredOutput acc with
            | Some serialized => serialized
            | None => resultContent acc
            end in
          if negb (nonEmpty finalContent)
          then throw (Error "Claude API returned an empty response.")
          else ret {| content := finalContent;
                      provider := PROVIDER_NAME;
                      usedModel := default model (resultModel acc) |}
      end
  end.

(** The [while (true)] loop of [generate]; [fuel] bounds its iterations. *)
Fixpoint cascade (fuel : nat) (currentModel : string)
    (params : ProviderGenerateParams) : M World ProviderGenerateResult :=
  match fuel with
  | O => pending
  | S fuel' =>
      tryCatch (callClaude (prompt params) currentModel params)
        (fun error =>
           if isRetryableError error then
             match getNextModel currentModel with
             | Some next => cascade fuel' next params
             | None => throw error
             end
           else throw error)
  end.

Definition startModel (params : ProviderGenerateParams) : string :=
  match model params with
  | Some m =>
      if nonEmpty m && existsb (String.eqb m) MODEL_CASCADE then m
      else default "" (head MODEL_CASCADE)
  | None => default "" (head MODEL_CASCADE)
  end.

Definition generate (params : ProviderGenerateParams) : M World ProviderGenerateResult :=
  cascade (length MODEL_CASCADE) (startModel params) params.

End Adapter.
End ClaudeAdapter.

(** ** The Gemini adapter (lib/ai-providers/gemini-adapter.ts) *)
Module GeminiAdapter.
Import Js Schema Providers.
Local Open Scope effect_scope.

Definition PROVIDER_NAME : string := "gemini".

Definition MODEL_CASCADE : list string :=
  ["gemini-2.5-flash-lite"; "gemini-3-flash"; "gemini-3-pro"].

Definition isValidModel (model : option string) : bool :=
  match model with
  | Some m => nonEmpty m && existsb (String.eqb m) MODEL_CASCADE
  | None => false
  end.

(** [typeof error.message === 'string' ? error.message : ''] *)
Definition messageOrEmpty (error : Thrown) : string :=
  match error with ThrownError m _ _ => m | _ => "" end.

Definition isRetryableError (error : Thrown) : bool :=
  if negb (truthy error) then false
  else
    let message := messageOrEmpty error in
    let status := nullish (statusOf error) (codeOf error) in
    isNum status 503 ||
    isNum status 429 ||
    includes message "503" ||
    includes message "429" ||
    includes (toLowerCase message) "overload" ||
    includes (toLowerCase message) "rate limit".

Definition describeError (error : Thrown) : string :=
  if negb (truthy error) then "unknown error"
  else
    let status := nullish (statusOf error) (codeOf error) in
    let message := messageOrString error in
    if isNum status 503 || includes message "503" then "overloaded"
    else if isNum status 429 || includes (toLowerCase message) "rate limit" then "rate limited"
    else if isNum status 401 || includes (toLowerCase message) "unauthorized"
    then "authentication failed"
    else if isNum status 400 || includes message "400" then "invalid request"
    else if isNum status 408 || includes (toLowerCase message) "timeout" then "timeout"
    else "unknown error".

(** [buildGenerationConfig], for the schema part of the configuration:
    the converted schema, or the error thrown in place of the one caught
    from [z.toJSONSchema]. *)
Definition buildGenerationConfig (params : ProviderGenerateParams)
    : Thrown + GenerationConfig :=
  match zodSchema params with
  | None => inr {| responseMimeType := None; responseSchema := None |}
  | Some (inr jsonSchema) =>
      inr {| responseMimeType := Some "application/json";
             responseSchema := convertToGeminiSchemaOpt (Some jsonSchema) |}
  | Some (inl error) =>
      inl (Error (match error with
                  | ThrownError m _ _ => "Failed to convert schema: " ++ m
                  | _ => "Failed to convert schema"
                  end))
  end.

Definition buildModelList (model : option string) : list string :=
  match model with
  | Some m =>
      if isValidModel model
      then m :: filter (fun candidate => negb (String.eqb candidate m)) MODEL_CASCADE
      else MODEL_CASCADE
  | None => MODEL_CASCADE
  end.

(** The error thrown from the [catch] block for a cause that is not
    retryable. *)
Definition apiError (cause : Thrown) : Thrown :=
  Error ("Gemini API error (" ++ describeError cause ++ "): " ++ messageOrUnknown cause).

(** The error thrown after the loop. *)
Definition allFailed (lastError : Thrown) : Thrown :=
  Error ("All Gemini models failed. Last error type: " ++
         describeError lastError ++ ". " ++ messageOrUnknown lastError).

Section Adapter.
Context {World : Type} {backends : Backends World}.

(** The [try] block of one iteration: [Some] result when the model
    answered with text, [None] when its response was empty. *)
Definition attempt (modelName : string) (params : ProviderGenerateParams)
    : M World (option ProviderGenerateResult) :=
  match buildGenerationConfig params with
  | inl error => throw error
  | inr generationConfig =>
      emit (BackendRequest gemini modelName) ;;
      reply <- request (generateContent modelName generationConfig (prompt params)) ;;
      match reply with
      | Rejected error => throw error
      | TimedOut => throw (Error "Request timeout")
      | Responded (Some response) =>
          if nonEmpty (trim response)
          then ret (Some {| content := response;
                            provider := PROVIDER_NAME;
                            usedModel := modelName |})
          else ret None
      | Responded None => ret None
      end
  end.

(** [for (const modelName of models)] with the variable [lastError], and
    the error thrown after the loop. *)
Fixpoint tryModels (models : list string) (lastError : Thrown)
    (params : ProviderGenerateParams) : M World ProviderGenerateResult :=
  match models with
  | [] => throw (allFailed lastError)
  | modelName :: rest =>
      fun m =>
        match attempt modelName params m with
        | (Returned (Some result), m') => (Returned result, m')
        | (Returned None, m') => tryModels rest lastError params m'
        | (Threw error, m') =>
            if negb (isRetryableError error)
            then (Threw (apiError error), m')
            else tryModels rest error params m'
        | (Pending, m') => (Pending, m')
        end
  end.

Definition generate (params : ProviderGenerateParams) : M World ProviderGenerateResult :=
  tryModels (buildModelList (model params)) ThrownNothing params.

End Adapter.
End GeminiAdapter.

(** ** The provider registry and the fallback orchestrator
    (lib/ai-providers/registry.ts) *)
Module Registry.
Import Js Schema Providers.
Local Open Scope effect_scope.

(** The environment variables the registry reads. *)
Record Env : Type := {
  XAI_API_KEY : option string;
  GEMINI_API_KEY : option string;
  ANTHROPIC_API_KEY : option string;
  AI_PROVIDER : option string;
  NEXT_PUBLIC_AI_PROVIDER : option string
}.

(** Truthiness of [string | undefined]. *)
Definition set (v : option string) : bool :=
  match v with Some s => nonEmpty s | None => false end.

(** The keys of [providerFactories], in declaration order. *)
Definition providerKeys : list ProviderKey := [grok; gemini; claude].

Definition providerEnvGuards (key : ProviderKey) (env : Env) : option string :=
  match key with
  | grok => XAI_API_KEY env
  | gemini => GEMINI_API_KEY env
  | claude => if set (ANTHROPIC_API_KEY env) then ANTHROPIC_API_KEY env
              else Some "local-claude-code"
  end.

(** [name in providerFactories], for the three own keys of the table.  The
    names the table inherits from [Object.prototype] are not keys of this
    type; [RegistryNames] below has the table with them, and tells where
    the two agree. *)
Definition keyOfName (name : string) : option ProviderKey :=
  if String.eqb name "grok" then Some grok
  else if String.eqb name "gemini" then Some gemini
  else if String.eqb name "claude" then Some claude
  else None.

Definition resolveProviderKey (preferred : option string) (env : Env) : ProviderKey :=
  let envPreference :=
    match preferred with
    | Some p => Some p
    | None =>
        match AI_PROVIDER env with
        | Some p => Some p
        | None => NEXT_PUBLIC_AI_PROVIDER env
        end
    end in
  match (if set envPreference then keyOfName (default "" envPreference) else None) with
  | Some key => key
  | None =>
      if set (providerEnvGuards grok env) then grok
      else if set (providerEnvGuards gemini env) then gemini
      else if set (providerEnvGuards claude env) then claude
      else grok
  end.

Definition getProviderKey := resolveProviderKey.

Definition notConfigured (key : ProviderKey) : Thrown :=
  let quote := String (ascii_of_nat 34) EmptyString in
  Error ("AI provider " ++ quote ++ keyName key ++ quote ++
         " is not configured. Please supply the required environment variables.").

(** [createGeminiAdapter] throws when its key is missing;
    [createClaudeAdapter] always succeeds. *)
Definition createGeminiAdapter (env : Env) : option Thrown :=
  if set (GEMINI_API_KEY env) then None
  else Some (Error "GEMINI_API_KEY is required to use the Gemini provider. Set the environment variable and try again.").

(** Modelled from the spec: [createGrokAdapter] (grok-adapter.ts) is
    imported by the registry but its source is missing; by section 4.3
    construction fails on missing credentials only, as its Gemini sibling
    does for its own key. *)
Definition createGrokAdapter (env : Env) : option Thrown :=
  if set (XAI_API_KEY env) then None
  else Some (Error "XAI_API_KEY is required to use the Grok provider. Set the environment variable and try again.").

(** [providerFactories[key]()]: the error thrown, if any. *)
Definition providerFactories (key : ProviderKey) (env : Env) : option Thrown :=
  match key with
  | grok => createGrokAdapter env
  | gemini => createGeminiAdapter env
  | claude => None
  end.

Definition availableProviders (env : Env) : list ProviderKey :=
  filter (fun key => set (providerEnvGuards key env)) providerKeys.

Definition isRetryableError (error : Thrown) : bool :=
  if negb (truthy error) then false
  else
    let message := messageOrString error in
    let lowerMessage := toLowerCase message in
    includes lowerMessage "service unavailable" ||
    includes lowerMessage "503" ||
    includes lowerMessage "502" ||
    includes lowerMessage "504" ||
    includes lowerMessage "timeout" ||
    includes lowerMessage "overload".

(** [available.find(key => key !== currentKey) ?? null] *)
Definition getFallbackProvider (currentKey : ProviderKey) (env : Env) : option ProviderKey :=
  head (filter (fun key => negb (bool_decide (key = currentKey))) (availableProviders env)).

Section Orchestrator.
Context {World : Type} {backends : Backends World}.

(** An adapter is identified by its key; [ensureProvider] returns the key
    of the cached or newly cached adapter. *)
Definition ensureProvider (key : ProviderKey) (env : Env) : M World ProviderKey :=
  fun m =>
    if providerCache m key then (Returned key, m)
    else if negb (set (providerEnvGuards key env)) then (Threw (notConfigured key), m)
    else
      match providerFactories key env with
      | Some error => (Threw error, m)
      | None =>
          (Returned key,
           Build_Machine (world m)
             (fun k => if bool_decide (k = key) then true else providerCache m k)
             (trace m))
      end.

Definition getProvider (key : option string) (env : Env) : M World ProviderKey :=
  ensureProvider (resolveProviderKey key env) env.

(** [adapter.generate(params)] on the adapter of [key]. *)
Definition adapterGenerate (key : ProviderKey) (params : ProviderGenerateParams)
    : M World ProviderGenerateResult :=
  emit (AdapterGenerate key params) ;;
  match key with
  | claude => ClaudeAdapter.generate params
  | gemini => GeminiAdapter.generate params
  | grok => (c <- request (grokGenerate params) ;; settle c)
  end.

Definition generateStructuredContent (provider : option string)
    (rest : ProviderGenerateParams) (env : Env) : M World ProviderGenerateResult :=
  let primaryKey := resolveProviderKey provider env in
  primaryAdapter <- getProvider provider env ;;
  tryCatch (adapterGenerate primaryAdapter rest)
    (fun error =>
       if isRetryableError error then
         match getFallbackProvider primaryKey env with
         | Some fallbackKey =>
             tryCatch
               (fallbackAdapter <- ensureProvider fallbackKey env ;;
                adapterGenerate fallbackAdapter rest)
               (fun fallbackError => throw error)
         | None => throw error
         end
       else throw error).

End Orchestrator.
End Registry.

(** ** Retry classification in the specification's words *)
Module SpecWords.
Import Js.

(** This definition follows the specification's data model and not the
    code: an error is Retryable when it carries one of the status codes
    429, 503, 529, 502, 504, or when its message contains an overload,
    rate-limit or timeout substring. *)
Definition retryable (error : Thrown) : bool :=
  let status := nullish (statusOf error) (codeOf error) in
  let lower := toLowerCase (messageOrString error) in
  existsb (isNum status) [429; 503; 529; 502; 504]%Z ||
  includes lower "overload" ||
  includes lower "rate limit" || includes lower "rate_limit" || includes lower "rate-limit" ||
  includes lower "timeout".

(** This definition follows the specification's section 4.2 and not the
    code: a construct the provider cannot represent natively.  The
    provider's schema object has no field for alternatives, so a union of
    two or more alternatives other than null is such a construct. *)
Definition unrepresentable (s : Schema.JsonSchema) : bool :=
  match Schema.alternatives s with
  | Some schemas => (2 <=? length (Schema.nonNullSchemas schemas))%nat
  | None => false
  end.

End SpecWords.

(** ** Reading a trace *)
Module Trace.
Import Providers.

(** The invocations of adapters recorded in a trace, in order. *)
Fixpoint adapterCalls (t : list Event) : list (ProviderKey * ProviderGenerateParams) :=
  match t with
  | [] => []
  | AdapterGenerate k p :: r => (k, p) :: adapterCalls r
  | BackendRequest _ _ :: r => adapterCalls r
  end.

(** The requests sent to backends recorded in a trace, in order. *)
Fixpoint backendRequests (t : list Event) : list (ProviderKey * string) :=
  match t with
  | [] => []
  | AdapterGenerate _ _ :: r => backendRequests r
  | BackendRequest k model :: r => (k, model) :: backendRequests r
  end.

End Trace.

(** ** Scripted backends for running the model on concrete calls *)
Module Scenario.
Import Js Schema Providers Registry.

(** Backends that answer by script: the Claude stream and the Gemini reply
    depend on the requested model only, the Grok adapter always completes
    the same way; the world counts the requests. *)
Definition scripted (claudeScript : string -> list SdkMessage * StreamEnd)
    (geminiScript : string -> GeminiReply)
    (grokScript : Completion ProviderGenerateResult) : Backends nat :=
  {| query := fun _ options w => (claudeScript (o_model options), S w);
     generateContent := fun modelName _ _ w => (geminiScript modelName, S w);
     grokGenerate := fun _ w => (grokScript, S w) |}.

Definition start : Machine nat :=
  Build_Machine 0 (fun _ => false) [].

Definition ask (text : string) (preferred : option string) : ProviderGenerateParams :=
  {| prompt := text; model := preferred; timeoutMs := Some 30000%Z;
     zodSchema := None; hasOutputFormat := false |}.

Definition env (xai gemini : option string) (selected : option string) : Env :=
  {| XAI_API_KEY := xai; GEMINI_API_KEY := gemini; ANTHROPIC_API_KEY := None;
     AI_PROVIDER := selected; NEXT_PUBLIC_AI_PROVIDER := None |}.

Definition claudeAnswers (text : string) : list SdkMessage * StreamEnd :=
  ([Assistant [text] None; ResultSuccess None text], Completed).

Definition grokAnswer : ProviderGenerateResult :=
  {| content := "from grok"; provider := "grok"; usedModel := "grok-model" |}.

(** The deadline of every Claude request expires. *)
Definition claudeTimesOut : Backends nat :=
  scripted (fun _ => ([], Aborted)) (fun _ => Responded (Some "from gemini"))
           (Returned grokAnswer).

(** Every Gemini model is overloaded; Claude answers. *)
Definition geminiOverloaded : Backends nat :=
  scripted (fun _ => claudeAnswers "from claude")
           (fun _ => Rejected (ThrownError "503 Service Unavailable" (FNum 503) FAbsent))
           (Threw (Error "401 unauthorized")).

(** Every Gemini model is overloaded and the Grok adapter fails too. *)
Definition bothFail : Backends nat :=
  scripted (fun _ => claudeAnswers "from claude")
           (fun _ => Rejected (ThrownError "503 Service Unavailable" (FNum 503) FAbsent))
           (Threw (Error "grok is down")).

(** The key is rejected by every backend. *)
Definition unauthorized : Backends nat :=
  scripted (fun _ => ([], Failed (Error "401 unauthorized")))
           (fun _ => Rejected (ThrownError "API key not valid" (FNum 401) FAbsent))
           (Threw (Error "401 unauthorized")).

(** The first Claude model is overloaded, the next one answers. *)
Definition haikuOverloaded : Backends nat :=
  scripted (fun modelName =>
              if String.eqb modelName "claude-haiku-4-5-20251001"
              then ([], Failed (Error "529 overloaded"))
              else claudeAnswers "from sonnet")
           (fun _ => Responded (Some "from gemini"))
           (Returned grokAnswer).

End Scenario.

(** ** The batch translation dispatcher (app/api/translate-batch route) *)
Module Batch.
Local Open Scope list_scope.
Local Open Scope nat_scope.

Definition CHUNK_SIZE : nat := 100.
Definition CONCURRENCY : nat := 6.

(** [arr.slice(from, to)] for [from <= to] *)
Definition slice {T : Type} (arr : list T) (from to : nat) : list T :=
  take (to - from) (drop from arr).

(** The loop of [chunk], started at position [i]; [None] when [fuel]
    iterations do not reach the end of the array. *)
Fixpoint chunkFrom {T : Type} (fuel : nat) (arr : list T) (size i : nat)
    : option (list (list T)) :=
  if i <? length arr then
    match fuel with
    | O => None
    | S fuel' =>
        match chunkFrom fuel' arr size (i + size) with
        | Some out => Some (slice arr i (i + size) :: out)
        | None => None
        end
    end
  else Some [].

Definition chunk {T : Type} (arr : list T) (size : nat) : option (list (list T)) :=
  chunkFrom (length arr) arr size 0.

(** A slot of the result array: a hole of [new Array(n)], or a string. *)
Abbreviation Slot := (option string).

(** [results[j] = v]: an assignment past the end extends the array, leaving
    holes in between. *)
Definition assign (results : list Slot) (j : nat) (v : string) : list Slot :=
  if j <? length results then <[j := Some v]> results
  else results ++ replicate (j - length results) None ++ [Some v].

(** [for (let i = 0; i < translated.length; i++) results[start + i] = translated[i]] *)
Fixpoint placeBack (results : list Slot) (start : nat) (translated : list string)
    : list Slot :=
  match translated with
  | [] => results
  | v :: rest => placeBack (assign results start v) (S start) rest
  end.

(** A worker is about to test its loop condition, awaits the translation of
    the chunk it claimed, or has left its loop. *)
Inductive Worker : Type :=
| Ready
| Awaiting (myIndex : nat)
| Finished.

(** The variables the workers share, and a log of the translations
    received, each with the index of its chunk. *)
Record Dispatch : Type := {
  index : nat;
  workers : list Worker;
  results : list Slot;
  served : list (nat * list string)
}.

(** What can happen next: worker [w] runs up to its next [await] (it claims
    [index++] or leaves the loop), or the translation awaited by worker [w]
    arrives, whatever it is, and the worker places it back. *)
Inductive Action : Type :=
| Wake (w : nat)
| Resolve (w : nat) (translated : list string).

Definition step (nchunks : nat) (a : Action) (s : Dispatch) : option Dispatch :=
  match a with
  | Wake w =>
      match workers s !! w with
      | Some Ready =>
          if index s <? nchunks then
            Some {| index := S (index s);
                    workers := <[w := Awaiting (index s)]> (workers s);
                    results := results s;
                    served := served s |}
          else
            Some {| index := index s;
                    workers := <[w := Finished]> (workers s);
                    results := results s;
                    served := served s |}
      | _ => None
      end
  | Resolve w translated =>
      match workers s !! w with
      | Some (Awaiting myIndex) =>
          Some {| index := index s;
                  workers := <[w := Ready]> (workers s);
                  results := placeBack (results s) (myIndex * CHUNK_SIZE) translated;
                  served := served s ++ [(myIndex, translated)] |}
      | _ => None
      end
  end.

(** A schedule is the order in which the events happen. *)
Fixpoint run (nchunks : nat) (schedule : list Action) (s : Dispatch) : option Dispatch :=
  match schedule with
  | [] => Some s
  | a :: rest =>
      match step nchunks a s with
      | Some s' => run nchunks rest s'
      | None => None
      end
  end.

Definition isFinished (w : Worker) : bool :=
  match w with Finished => true | _ => false end.

(** [await Promise.all(workers)] has resolved. *)
Definition completed (s : Dispatch) : bool := forallb isFinished (workers s).

Definition init (n nchunks : nat) : Dispatch :=
  {| index := 0;
     workers := replicate (Nat.min CONCURRENCY nchunks) Ready;
     results := replicate n None;
     served := [] |}.

(** The handler from [chunk(texts, CHUNK_SIZE)] to the [translations] of
    its response, under a schedule: [None] when the schedule names an event
    that cannot happen or stops before every worker is done. *)
Definition dispatch (texts : list string) (schedule : list Action) : option (list Slot) :=
  match chunk texts CHUNK_SIZE with
  | Some chunks =>
      match run (length chunks) schedule (init (length texts) (length chunks)) with
      | Some s => if completed s then Some (results s) else None
      | None => None
      end
  | None => None
  end.

(** The chunks some workers are awaiting. *)
Fixpoint awaited (ws : list Worker) : list nat :=
  match ws with
  | [] => []
  | Awaiting k :: r => k :: awaited r
  | _ :: r => awaited r
  end.




(** The work left: three units per unclaimed chunk, two per awaited
    translation, one per worker that has yet to test its loop condition. *)
Definition weight (w : Worker) : nat :=
  match w with Finished => 0 | Ready => 1 | Awaiting _ => 2 end.

Definition workLeft (nchunks : nat) (s : Dispatch) : nat :=
  3 * (nchunks - index s) + list_sum (map weight (workers s)).

End Batch.

(** ** A batch of 257 texts *)
Module BatchScenario.
Import Batch.
Local Open Scope list_scope.

Definition texts257 : list string :=
  map (fun n => ("segment " ++ NilZero.string_of_uint (Nat.to_uint n))%string) (seq 0 257).

(** A stand-in for the translation client: one output per input. *)
Definition translate (chunk : list string) : list string :=
  map (fun text => ("zh-CN: " ++ text)%string) chunk.

Definition chunks257 : list (list string) :=
  [slice texts257 0 100; slice texts257 100 200; slice texts257 200 300].

Definition reply (k : nat) : list string := translate (default [] (chunks257 !! k)).

(** Three workers claim the three chunks; the translation of the first
    chunk arrives last, after the other two workers have left. *)
Definition firstArrivesLast : list Action :=
  [Wake 0; Wake 1; Wake 2;
   Resolve 2 (reply 2); Resolve 1 (reply 1); Wake 2; Wake 1;
   Resolve 0 (reply 0); Wake 0].

(** One worker is so slow to start that the other two translate all three
    chunks between them. *)
Definition slowStarter : list Action :=
  [Wake 1; Wake 2; Resolve 2 (reply 1); Wake 2; Resolve 1 (reply 0);
   Wake 1; Wake 0; Resolve 2 (reply 2); Wake 2].

Definition finalState (schedule : list Action) : Dispatch :=
  default (init 0 0) (run 3 schedule (init 257 3)).

End BatchScenario.

(** ** JSON values and a reference reading of JSON text *)
Module Json.
Import Js.
Local Open Scope list_scope.

(** A parsed JSON value.  A number keeps its lexeme; an object keeps its
    members in source order. *)
Inductive JSON : Type :=
| JNull
| JBool (b : bool)
| JNumber (lexeme : string)
| JString (s : string)
| JArray (items : list JSON)
| JObject (members : list (string * JSON)).

(** [value[key]] on a parsed object: of several members with one key the
    last one stays. *)
Fixpoint member (key : string) (members : list (string * JSON)) : option JSON :=
  match members with
  | [] => None
  | (k, v) :: rest =>
      match member key rest with
      | Some later => Some later
      | None => if String.eqb k key then Some v else None
      end
  end.

Definition get (key : string) (value : JSON) : option JSON :=
  match value with
  | JObject members => member key members
  | _ => None
  end.

Definition quoteChar : ascii := ascii_of_nat 34.
Definition backslash : ascii := ascii_of_nat 92.
Definition quote : string := String quoteChar EmptyString.

(** Writes a text with apostrophes where the JSON text has double quotes,
    so that examples stay readable. *)
Fixpoint dq (s : string) : string :=
  match s with
  | EmptyString => EmptyString
  | String c r => String (if Ascii.eqb c "'" then quoteChar else c) (dq r)
  end.

Definition isJsonSpace (c : ascii) : bool :=
  let n := code c in ((n =? 32) || (n =? 9) || (n =? 10) || (n =? 13))%N.

Fixpoint skipSpace (s : string) : string :=
  match s with
  | String c r => if isJsonSpace c then skipSpace r else s
  | EmptyString => EmptyString
  end.

Definition hexValue (c : ascii) : option N :=
  let n := code c in
  if ((48 <=? n) && (n <=? 57))%N then Some (n - 48)%N
  else if ((97 <=? n) && (n <=? 102))%N then Some (n - 87)%N
  else if ((65 <=? n) && (n <=? 70))%N then Some (n - 55)%N
  else None.

(** The characters of a string literal after its opening quote: the
    decoded text and what follows the closing quote.  An escape for a code
    unit above U+00FF has no counterpart in the 8-bit alphabet and is
    given up on. *)
Fixpoint lexString (s : string) : option (string * string) :=
  match s with
  | EmptyString => None
  | String c r =>
      if Ascii.eqb c quoteChar then Some (EmptyString, r)
      else if Ascii.eqb c backslash then
        match r with
        | String e r' =>
            let plain (d : ascii) :=
              match lexString r' with
              | Some (text, rest) => Some (String d text, rest)
              | None => None
              end in
            if Ascii.eqb e quoteChar then plain quoteChar
            else if Ascii.eqb e backslash then plain backslash
            else if Ascii.eqb e "/" then plain "/"%char
            else if Ascii.eqb e "b" then plain (ascii_of_nat 8)
            else if Ascii.eqb e "f" then plain (ascii_of_nat 12)
            else if Ascii.eqb e "n" then plain (ascii_of_nat 10)
            else if Ascii.eqb e "r" then plain (ascii_of_nat 13)
            else if Ascii.eqb e "t" then plain (ascii_of_nat 9)
            else if Ascii.eqb e "u" then
              match r' with
              | String h1 (String h2 (String h3 (String h4 r''))) =>
                  match hexValue h1, hexValue h2, hexValue h3, hexValue h4 with
                  | Some 0%N, Some 0%N, Some a, Some b =>
                      match lexString r'' with
                      | Some (text, rest) =>
                          Some (String (ascii_of_N (16 * a + b)) text, rest)
                      | None => None
                      end
                  | _, _, _, _ => None
                  end
              | _ => None
              end
            else None
        | EmptyString => None
        end
      else if (code c <? 32)%N then None
      else
        match lexString r with
        | Some (text, rest) => Some (String c text, rest)
        | None => None
        end
  end.

Definition isDigit (c : ascii) : bool := ((48 <=? code c) && (code c <=? 57))%N.

Fixpoint digits (s : string) : string * string :=
  match s with
  | String c r =>
      if isDigit c then let (d, rest) := digits r in (String c d, rest)
      else (EmptyString, s)
  | EmptyString => (EmptyString, EmptyString)
  end.

(** A number token: [-? int frac? exp?]. *)
Definition lexNumber (s : string) : option (string * string) :=
  let (sign, s1) := match s with
                    | String "-" r => ("-"%string, r)
                    | _ => (EmptyString, s)
                    end in
  let (int, s2) := digits s1 in
  match int with
  | EmptyString => None
  | String "0" (String _ _) => None
  | _ =>
      let '(frac, s3) :=
        match s2 with
        | String "." r =>
            let (d, rest) := digits r in
            match d with
            | EmptyString => (None, s2)
            | _ => (Some ("." ++ d)%string, rest)
            end
        | _ => (Some EmptyString, s2)
        end in
      match frac with
      | None => None
      | Some f =>
          let afterE (e : string) (r : string) :=
            let (esign, r1) := match r with
                               | String "+" t => ("+"%string, t)
                               | String "-" t => ("-"%string, t)
                               | _ => (EmptyString, r)
                               end in
            let (d, rest) := digits r1 in
            match d with
            | EmptyString => None
            | _ => Some ((sign ++ int ++ f ++ e ++ esign ++ d)%string, rest)
            end in
          match s3 with
          | String "e" r => afterE "e"%string r
          | String "E" r => afterE "E"%string r
          | _ => Some ((sign ++ int ++ f)%string, s3)
          end
      end
  end.

(** A value and what follows it; [fuel] bounds the nesting and the number
    of elements read. *)
Fixpoint parseValue (fuel : nat) (s : string) : option (JSON * string) :=
  match fuel with
  | O => None
  | S fuel' =>
      let elements :=
        fix elements (n : nat) (s : string) (acc : list JSON) : option (list JSON * string) :=
          match n with
          | O => None
          | S n' =>
              match parseValue fuel' (skipSpace s) with
              | Some (v, rest) =>
                  match skipSpace rest with
                  | String "," rest' => elements n' rest' (acc ++ [v])
                  | String "]" rest' => Some (acc ++ [v], rest')
                  | _ => None
                  end
              | None => None
              end
          end in
      let members :=
        fix members (n : nat) (s : string) (acc : list (string * JSON))
            : option (list (string * JSON) * string) :=
          match n with
          | O => None
          | S n' =>
              match skipSpace s with
              | String c afterQuote =>
                  if Ascii.eqb c quoteChar then
                    match lexString afterQuote with
                    | Some (key, rest) =>
                        match skipSpace rest with
                        | String ":" rest' =>
                            match parseValue fuel' (skipSpace rest') with
                            | Some (v, rest'') =>
                                match skipSpace rest'' with
                                | String "," t => members n' t (acc ++ [(key, v)])
                                | String "}" t => Some (acc ++ [(key, v)], t)
                                | _ => None
                                end
                            | None => None
                            end
                        | _ => None
                        end
                    | None => None
                    end
                  else None
              | EmptyString => None
              end
          end in
      match s with
      | String c r =>
          if Ascii.eqb c quoteChar then
            match lexString r with
            | Some (text, rest) => Some (JString text, rest)
            | None => None
            end
          else if Ascii.eqb c "[" then
            match skipSpace r with
            | String "]" rest => Some (JArray [], rest)
            | _ =>
                match elements fuel' r [] with
                | Some (items, rest) => Some (JArray items, rest)
                | None => None
                end
            end
          else if Ascii.eqb c "{" then
            match skipSpace r with
            | String "}" rest => Some (JObject [], rest)
            | _ =>
                match members fuel' r [] with
                | Some (ms, rest) => Some (JObject ms, rest)
                | None => None
                end
            end
          else if String.prefix "null" s then Some (JNull, substring 4 (String.length s) s)
          else if String.prefix "true" s then Some (JBool true, substring 4 (String.length s) s)
          else if String.prefix "false" s then Some (JBool false, substring 5 (String.length s) s)
          else
            match lexNumber s with
            | Some (lexeme, rest) => Some (JNumber lexeme, rest)
            | None => None
            end
      | EmptyString => None
      end
  end.

(** A reference reading of [JSON.parse] on the 8-bit alphabet: the value of
    a text that holds exactly one JSON value, and [None] where
    [JSON.parse] throws a SyntaxError.  It is [None] as well for a text
    with an escape for a code unit above U+00FF, which [JSON.parse] reads
    and this alphabet cannot hold; the examples that run this reading
    hold no such escape, and the statements on the recovery take
    [JSON.parse] as it comes. *)
Definition parseJson (text : string) : option JSON :=
  match parseValue (S (String.length text)) (skipSpace text) with
  | Some (v, rest) =>
      match skipSpace rest with
      | EmptyString => Some v
      | _ => None
      end
  | None => None
  end.

End Json.

(** ** Regular expressions, as far as the recovery routine uses them *)
Module Regex.
Import Js.
Local Open Scope list_scope.

(** Patterns: a character, a character class, concatenation, greedy [r*]
    and lazy [r*?] repetition, and a numbered capturing group. *)
Inductive Regex : Type :=
| Eps
| Chr (c : ascii)
| Cls (accepts : ascii -> bool)
| Seq (a b : Regex)
| Star (greedy : bool) (r : Regex)
| Group (n : nat) (r : Regex).

(** The captures of a match: the text of group [n], latest first. *)
Definition Captures : Type := list (nat * string).

Fixpoint capture (n : nat) (caps : Captures) : option string :=
  match caps with
  | [] => None
  | (k, text) :: rest => if Nat.eqb k n then Some text else capture n rest
  end.

(** The part of [s] consumed when [rest] is what remains of it. *)
Definition consumed (s rest : string) : string :=
  substring 0 (String.length s - String.length rest) s.

(** The repetition of a step that must consume a character each time: the
    ways to stop after any number of iterations, longest first when
    [greedy] and shortest first otherwise.  [fuel] is the length of the
    text at hand, which bounds the number of iterations. *)
Fixpoint iterate (step : string -> Captures -> list (string * Captures))
    (greedy : bool) (fuel : nat) (s : string) (caps : Captures)
    : list (string * Captures) :=
  match fuel with
  | O => [(s, caps)]
  | S fuel' =>
      let more :=
        flat_map (fun found =>
                    if (String.length (fst found) <? String.length s)%nat
                    then iterate step greedy fuel' (fst found) (snd found)
                    else [])
                 (step s caps) in
      if greedy then more ++ [(s, caps)] else (s, caps) :: more
  end.

(** All the ways [r] matches at the start of [s], in the order a
    backtracking matcher tries them: each is what remains of [s] with the
    captures. *)
Fixpoint matchRe (r : Regex) (s : string) (caps : Captures) {struct r}
    : list (string * Captures) :=
  match r with
  | Eps => [(s, caps)]
  | Chr c =>
      match s with
      | String d t => if Ascii.eqb c d then [(t, caps)] else []
      | EmptyString => []
      end
  | Cls accepts =>
      match s with
      | String d t => if accepts d then [(t, caps)] else []
      | EmptyString => []
      end
  | Seq a b =>
      flat_map (fun found => matchRe b (fst found) (snd found)) (matchRe a s caps)
  | Star greedy a => iterate (matchRe a) greedy (String.length s) s caps
  | Group n a =>
      map (fun found => (fst found, (n, consumed s (fst found)) :: snd found))
          (matchRe a s caps)
  end.

(** The preferred match at the start of [s]. *)
Definition matchAt (r : Regex) (s : string) : option (string * Captures) :=
  head (matchRe r s []).

(** [r.exec(s)] from the current position: the leftmost position with a
    match, as the text matched, its captures and what remains after it. *)
Fixpoint exec (r : Regex) (s : string) : option (string * Captures * string) :=
  match matchAt r s with
  | Some (rest, caps) => Some (consumed s rest, caps, rest)
  | None =>
      match s with
      | EmptyString => None
      | String _ t => exec r t
      end
  end.

(** [s.match(r)] for a global pattern whose matches are not empty: the
    texts matched, left to right ([null] is the empty list). *)
Fixpoint matchGlobal (fuel : nat) (r : Regex) (s : string) : list string :=
  match fuel with
  | O => []
  | S fuel' =>
      match exec r s with
      | Some (text, _, rest) => text :: matchGlobal fuel' r rest
      | None => []
      end
  end.

Fixpoint seqAll (rs : list Regex) : Regex :=
  match rs with
  | [] => Eps
  | r :: rest => Seq r (seqAll rest)
  end.

(** The characters of [text], one after the other. *)
Fixpoint lit (text : string) : list Regex :=
  match text with
  | EmptyString => []
  | String c r => Chr c :: lit r
  end.

(** [\s*] *)
Definition spaces : Regex := Star true (Cls isWhiteSpace).

(** [.]: anything but a line terminator *)
Definition dot (c : ascii) : bool := negb ((code c =? 10) || (code c =? 13))%N.

End Regex.

(** ** Recovery of takeaways from a malformed response
    (app/api/generate-summary route, [recoverPartialTakeaways]) *)
Module Recovery.
Import Js Json Regex.
Local Open Scope list_scope.

Record StructuredTakeaway : Type := {
  label : string;
  insight : string;
  timestamps : list string
}.

(** The marker of a double-encoded array: backslash, quote, [label],
    backslash, quote. *)
Definition marker : string := dq "\'label\'".

(** The class of the string bodies: any character but a double quote or a
    backslash. *)
Definition textChar (c : ascii) : bool :=
  negb (Ascii.eqb c quoteChar || Ascii.eqb c backslash).

(** The body of a string in the pattern: a run of such characters, then
    any number of escapes, each a backslash, any character and a run; the
    group around the escape is numbered [inner]. *)
Definition stringBody (inner : nat) : Regex :=
  Seq (Star true (Cls textChar))
      (Star true (Group inner
         (Seq (Chr backslash) (Seq (Cls dot) (Star true (Cls textChar)))))).

(** [objectPattern]: an opening brace; the key label in double quotes, a
    colon and a string whose body is group 1; a comma; the key insight, a
    colon and a string whose body is group 3; a comma; the key timestamps,
    a colon and, between square brackets, group 5, a lazy run of any
    characters but line terminators; a closing brace.  White space may
    stand between these tokens, but not inside the brackets' group. *)
Definition objectFront : list Regex :=
  [Chr "{"; spaces] ++ lit (dq "'label'") ++
  [spaces; Chr ":"; spaces; Chr quoteChar; Group 1 (stringBody 2); Chr quoteChar;
   spaces; Chr ","; spaces] ++ lit (dq "'insight'") ++
  [spaces; Chr ":"; spaces; Chr quoteChar; Group 3 (stringBody 4); Chr quoteChar;
   spaces; Chr ","; spaces] ++ lit (dq "'timestamps'") ++
  [spaces; Chr ":"; spaces; Chr "["; Group 5 (Star false (Cls dot)); Chr "]"; spaces].

Definition objectPattern : Regex := seqAll (objectFront ++ [Chr "}"]).

(** The pattern of one timestamp: a double quote, one or more characters
    other than a double quote (group 1), a double quote. *)
Definition timestampPattern : Regex :=
  seqAll [Chr quoteChar;
          Group 1 (Seq (Cls (fun c => negb (Ascii.eqb c quoteChar)))
                       (Star true (Cls (fun c => negb (Ascii.eqb c quoteChar)))));
          Chr quoteChar].

(** [ts.replace] of every double quote by the empty string *)
Fixpoint removeQuotes (s : string) : string :=
  match s with
  | EmptyString => EmptyString
  | String c r => if Ascii.eqb c quoteChar then removeQuotes r else String c (removeQuotes r)
  end.

(** [.map(ts => ts.trim()).filter(ts => ts.length > 0).slice(0, 2)] *)
Definition tidyTimestamps (raw : list string) : list string :=
  take 2 (filter (fun ts => nonEmpty ts) (map trim raw)).

Section WithParser.
(** [JSON.parse]: the value, or [None] where it throws. *)
Variable JSON_parse : string -> option JSON.

(** The body of the inner [try] for a string element of the outer array:
    the takeaway pushed, if any. *)
Definition decodeItem (item : string) : option StructuredTakeaway :=
  match JSON_parse item with
  | Some parsed =>
      match parsed with
      | JObject _ | JArray _ =>
          let label :=
            match get "label" parsed with Some (JString s) => trim s | _ => EmptyString end in
          let insight :=
            match get "insight" parsed with Some (JString s) => trim s | _ => EmptyString end in
          let timestamps :=
            match get "timestamps" parsed with
            | Some (JArray values) =>
                tidyTimestamps
                  (omap (fun ts => match ts with JString s => Some s | _ => None end) values)
            | _ => []
            end in
          if nonEmpty label && nonEmpty insight && (0 <? length timestamps)%nat
          then Some {| label := label; insight := insight; timestamps := timestamps |}
          else None
      | _ => None
      end
  | None => None
  end.

(** What the loop makes of one element of the outer array: elements that
    are not strings are passed over. *)
Definition decodeElement (item : JSON) : option StructuredTakeaway :=
  match item with
  | JString text => decodeItem text
  | _ => None
  end.

(** [for (const item of outerArray)] with its [break]. *)
Fixpoint decodeItems (outerArray : list JSON) (takeaways : list StructuredTakeaway)
    : list StructuredTakeaway :=
  match outerArray with
  | [] => takeaways
  | JString item :: rest =>
      match decodeItem item with
      | Some takeaway =>
          let takeaways' := takeaways ++ [takeaway] in
          if (6 <=? length takeaways')%nat then takeaways' else decodeItems rest takeaways'
      | None => decodeItems rest takeaways
      end
  | _ :: rest => decodeItems rest takeaways
  end.

(** How the first [try] block ends: with the [return] of its takeaways, or
    by reaching the regular-expression scan with the takeaways collected
    so far. *)
Inductive FirstStage : Type :=
| Accepted (takeaways : list StructuredTakeaway)
| FellThrough (takeaways : list StructuredTakeaway).

Definition doubleEncoded (raw : string) : FirstStage :=
  let trimmed := trim raw in
  if startsWith trimmed "[" && includes trimmed marker then
    match JSON_parse trimmed with
    | Some (JArray outerArray) =>
        let takeaways := decodeItems outerArray [] in
        if (4 <=? length takeaways)%nat then Accepted takeaways else FellThrough takeaways
    | _ => FellThrough []
    end
  else FellThrough [].

(** The body of the [try] of the scan for one match: the takeaway pushed,
    if any. *)
Definition decodeMatch (caps : Captures) : option StructuredTakeaway :=
  match capture 1 caps, capture 3 caps, capture 5 caps with
  | Some labelRaw, Some insightRaw, Some timestampsStr =>
      match JSON_parse (quote ++ labelRaw ++ quote)%string,
            JSON_parse (quote ++ insightRaw ++ quote)%string with
      | Some (JString label), Some (JString insight) =>
          let timestampMatches :=
            matchGlobal (S (String.length timestampsStr)) timestampPattern timestampsStr in
          let timestamps := tidyTimestamps (map removeQuotes timestampMatches) in
          match timestamps with
          | [] => None
          | _ => Some {| label := trim label; insight := trim insight;
                         timestamps := timestamps |}
          end
      | _, _ => None
      end
  | _, _, _ => None
  end.

(** [while ((match = objectPattern.exec(raw)) !== null)], from the current
    position of the pattern; [None] when [fuel] iterations do not reach the
    end. *)
Fixpoint scan (fuel : nat) (raw : string) (takeaways : list StructuredTakeaway)
    : option (list StructuredTakeaway) :=
  match fuel with
  | O => None
  | S fuel' =>
      match exec objectPattern raw with
      | None => Some takeaways
      | Some (_, caps, rest) =>
          match decodeMatch caps with
          | Some takeaway =>
              let takeaways' := takeaways ++ [takeaway] in
              if (6 <=? length takeaways')%nat then Some takeaways' else scan fuel' rest takeaways'
          | None => scan fuel' rest takeaways
          end
      end
  end.

(** The outcome of [recoverPartialTakeaways]: [Some (Some takeaways)] for
    the array returned, [Some None] for [null]; the outer [None] marks a
    scan that ran out of fuel, which the fuel given here excludes. *)
Definition recoverPartialTakeaways (raw : string) : option (option (list StructuredTakeaway)) :=
  match doubleEncoded raw with
  | Accepted takeaways => Some (Some takeaways)
  | FellThrough takeaways =>
      match scan (S (String.length raw)) raw takeaways with
      | Some found => Some (if (4 <=? length found)%nat then Some found else None)
      | None => None
      end
  end.

End WithParser.

End Recovery.

(** ** Responses laid out on the template of the pattern *)
Module Template.
Import Js Json Regex Recovery.
Local Open Scope list_scope.

Fixpoint allChars (accepts : ascii -> bool) (s : string) : bool :=
  match s with
  | EmptyString => true
  | String c r => accepts c && allChars accepts r
  end.

(** [s] holds no character [c]. *)
Definition without (c : ascii) (s : string) : bool :=
  allChars (fun d => negb (Ascii.eqb d c)) s.

Definition whiteSpace (s : string) : bool := allChars isWhiteSpace s.

(** What follows a run of characters of a class does not continue it. *)
Definition stopsAt (accepts : ascii -> bool) (s : string) : bool :=
  match s with
  | EmptyString => true
  | String c _ => negb (accepts c)
  end.

(** The body of a string as the pattern takes it, escapes included: no
    double quote by itself, and after each backslash a character that is
    not a line terminator. *)
Fixpoint stringText (s : string) : bool :=
  match s with
  | EmptyString => true
  | String c r =>
      if Ascii.eqb c backslash then
        match r with
        | String d r' => dot d && stringText r'
        | EmptyString => false
        end
      else negb (Ascii.eqb c quoteChar) && stringText r
  end.

(** A timestamp as it stands between its double quotes: one character at
    least, none of them a double quote or a line terminator. *)
Definition stampChar (c : ascii) : bool :=
  negb (Ascii.eqb c quoteChar) && dot c.

Definition stampText (s : string) : bool :=
  nonEmpty s && allChars stampChar s.

(** The text between two timestamps: free of the same characters. *)
Definition fillerText (s : string) : bool := allChars stampChar s.

(** The timestamps between the brackets, each in double quotes, [filler]
    between two of them, followed by [after]. *)
Fixpoint renderStamps (filler : string) (stamps : list string) (after : string) : string :=
  match stamps with
  | [] => after
  | [t] => String quoteChar (t ++ String quoteChar after)
  | t :: rest =>
      String quoteChar (t ++ String quoteChar (filler ++ renderStamps filler rest after))
  end.

(** A takeaway written on the template, followed by [after]: [gap i] is the
    white space at the [i]-th place where the pattern allows some; the
    label and the insight are written as they stand between their double
    quotes, escapes and all. *)
Definition render (gap : nat -> string) (filler : string) (r : StructuredTakeaway)
    (after : string) : string :=
  String "{" (gap 0 ++ dq "'label'" ++ gap 1 ++ String ":" (gap 2 ++
  String quoteChar (label r ++ String quoteChar (gap 3 ++ String "," (gap 4 ++
  dq "'insight'" ++ gap 5 ++ String ":" (gap 6 ++
  String quoteChar (insight r ++ String quoteChar (gap 7 ++ String "," (gap 8 ++
  dq "'timestamps'" ++ gap 9 ++ String ":" (gap 10 ++
  String "[" (renderStamps filler (timestamps r)
  (String "]" (gap 11 ++ String "}" after))))))))))))).

(** A record as it is written in a response: the takeaway, the white space
    between its tokens, the text between its timestamps and the text that
    follows its closing brace. *)
Record Written : Type := {
  w_takeaway : StructuredTakeaway;
  w_gaps : nat -> string;
  w_filler : string;
  w_framing : string
}.

(** The records one after the other, each followed by its framing, and
    then [tail]. *)
Fixpoint renderAll (records : list Written) (tail : string) : string :=
  match records with
  | [] => tail
  | w :: rest =>
      render (w_gaps w) (w_filler w) (w_takeaway w) (w_framing w ++ renderAll rest tail)
  end.

(** The text after a closing bracket reads, white space apart, a closing
    brace: the pattern ends a record there. *)
Fixpoint closesRecord (s : string) : bool :=
  match s with
  | EmptyString => false
  | String c r => if isWhiteSpace c then closesRecord r else Ascii.eqb c "}"
  end.

(** No closing bracket in the text is followed that way. *)
Fixpoint noEarlyClose (s : string) : bool :=
  match s with
  | EmptyString => true
  | String c r => negb (Ascii.eqb c "]" && closesRecord r) && noEarlyClose r
  end.

(** [s] departs from [w] at a character they both have. *)
Fixpoint diverges (w s : string) : bool :=
  match w, s with
  | String a w', String b s' => if Ascii.eqb a b then diverges w' s' else true
  | _, _ => false
  end.

(** The text after an opening brace does not go on, white space apart, as
    a record does with its first key. *)
Fixpoint startsNoRecord (s : string) : bool :=
  match s with
  | EmptyString => false
  | String c r => if isWhiteSpace c then startsNoRecord r else diverges (dq "'label'") s
  end.

(** Text in which the pattern finds nothing to begin a record with: each
    of its opening braces is followed by something else than the first
    key.  So are a bracket, a comma, prose, and the opening of an object
    that holds the array. *)
Fixpoint quiet (s : string) : bool :=
  match s with
  | EmptyString => true
  | String c r => (if Ascii.eqb c "{" then startsNoRecord r else true) && quiet r
  end.

(** A record on the template: white space at the twelve places where the
    pattern allows it; label and insight that are string bodies; any
    number of timestamps on one line, in which no closing bracket is
    followed by a closing brace; and framing after it that is quiet. *)
Definition templateRecord (w : Written) : bool :=
  forallb (fun i => whiteSpace (w_gaps w i)) (seq 0 12) &&
  stringText (label (w_takeaway w)) && stringText (insight (w_takeaway w)) &&
  fillerText (w_filler w) && forallb stampText (timestamps (w_takeaway w)) &&
  noEarlyClose (renderStamps (w_filler w) (timestamps (w_takeaway w)) EmptyString) &&
  quiet (w_framing w).

Section Reading.
(** [JSON.parse]: the value, or [None] where it throws. *)
Variable JSON_parse : string -> option JSON.

(** What the scan makes of a record on the template: nothing when
    [JSON.parse] does not read its label or its insight, or when no
    timestamp of it is left after trimming; else the label and the insight
    as read and trimmed, with the first two timestamps that are not blank,
    trimmed. *)
Definition recovered (r : StructuredTakeaway) : option StructuredTakeaway :=
  match JSON_parse (quote ++ label r ++ quote)%string,
        JSON_parse (quote ++ insight r ++ quote)%string with
  | Some (JString readLabel), Some (JString readInsight) =>
      match tidyTimestamps (timestamps r) with
      | [] => None
      | kept => Some {| label := trim readLabel; insight := trim readInsight;
                        timestamps := kept |}
      end
  | _, _ => None
  end.

End Reading.

(** A timestamp between its double quotes, as the pattern of timestamps
    finds it. *)
Definition quoted (t : string) : string :=
  String quoteChar (t ++ String quoteChar EmptyString).

(** No white space at all. *)
Definition compact (i : nat) : string := EmptyString.

(** A record written without white space, with [separator] between its
    timestamps and after it. *)
Definition compactly (separator : string) (r : StructuredTakeaway) : Written :=
  {| w_takeaway := r; w_gaps := compact; w_filler := separator; w_framing := separator |}.

End Template.

(** ** Responses used as examples of the recovery *)
Module RecoveryScenario.
Import Js Json Regex Recovery Template.
Local Open Scope list_scope.

(** Four takeaways as a model may write them; the second carries three
    timestamps and a label with a blank at its end. *)
Definition written : list StructuredTakeaway :=
  [ {| label := "A"; insight := "alpha"; timestamps := ["00:10"] |};
    {| label := "B "; insight := "beta"; timestamps := ["00:20"; "00:25"; "00:30"] |};
    {| label := "C"; insight := "gamma"; timestamps := ["00:40"; "00:45"] |};
    {| label := "D"; insight := "delta"; timestamps := ["00:50"] |} ].

(** A fifth record cut off in the middle of a field. *)
Definition cutOff : string := dq "{'label':'E','insight':'trunc".

(** The array of the four, without its closing bracket, ending in the
    record cut off. *)
Definition truncatedResponse : string :=
  ("[" ++ renderAll (map (compactly ",") written) cutOff)%string.

(** The same four as they come back. *)
Definition returned : list StructuredTakeaway :=
  [ {| label := "A"; insight := "alpha"; timestamps := ["00:10"] |};
    {| label := "B"; insight := "beta"; timestamps := ["00:20"; "00:25"] |};
    {| label := "C"; insight := "gamma"; timestamps := ["00:40"; "00:45"] |};
    {| label := "D"; insight := "delta"; timestamps := ["00:50"] |} ].

Definition newline : string := String (ascii_of_nat 10) EmptyString.

(** One record with its array of timestamps written over three lines. *)
Definition prettyRecord (l i t : string) : string :=
  (dq "{'label': '" ++ l ++ dq "', 'insight': '" ++ i ++ dq "', 'timestamps': [" ++
   newline ++ dq "  '" ++ t ++ dq "'" ++ newline ++ "]}")%string.

(** Four complete records written that way, the closing bracket of the
    array missing, and the record cut off. *)
Definition prettyResponse : string :=
  ("[" ++ prettyRecord "A" "alpha" "00:10" ++ "," ++ prettyRecord "B" "beta" "00:20" ++ "," ++
   prettyRecord "C" "gamma" "00:40" ++ "," ++ prettyRecord "D" "delta" "00:50" ++ "," ++
   cutOff)%string.

(** An object that holds the array, written with blanks after colons and
    commas; the first label carries escaped double quotes, the third
    record has no timestamp that is not blank, the array and the object
    are not closed and the last record is cut off. *)
Definition airy (i : nat) : string :=
  match i with
  | 2 | 4 | 6 | 8 | 10 => " "
  | _ => EmptyString
  end.

Definition wrapped : list Written :=
  map (fun r => {| w_takeaway := r; w_gaps := airy; w_filler := ", ";
                   w_framing := ", " |})
    [ {| label := dq "Say \'hi\'"; insight := "alpha"; timestamps := ["00:10"] |};
      {| label := "B "; insight := "beta"; timestamps := ["00:20"; " "; "00:25"; "00:30"] |};
      {| label := "C"; insight := "gamma"; timestamps := [" "] |};
      {| label := "D"; insight := "delta"; timestamps := ["00:50"] |};
      {| label := "E"; insight := "epsilon"; timestamps := ["00:60"; "00:65"] |} ].

Definition wrappedResponse : string :=
  (dq "{'takeaways': [" ++ renderAll wrapped cutOff)%string.

(** What comes back of it. *)
Definition unwrapped : list StructuredTakeaway :=
  [ {| label := dq "Say 'hi'"; insight := "alpha"; timestamps := ["00:10"] |};
    {| label := "B"; insight := "beta"; timestamps := ["00:20"; "00:25"] |};
    {| label := "D"; insight := "delta"; timestamps := ["00:50"] |};
    {| label := "E"; insight := "epsilon"; timestamps := ["00:60"; "00:65"] |} ].

(** An array in which the third record is cut off inside its timestamps
    and is followed by three complete records more; its last record is
    cut off as well. *)
Definition interruptedResponse : string :=
  dq "[{'label':'A','insight':'alpha','timestamps':['00:10']},{'label':'B','insight':'beta','timestamps':['00:20']},{'label':'C','insight':'gamma','timestamps':['00:4{'label':'D','insight':'delta','timestamps':['00:50']},{'label':'E','insight':'epsilon','timestamps':['00:60']},{'label':'F','insight':'phi','timestamps':['00:7".

(** Four complete records, the first with an empty array of timestamps. *)
Definition untimedResponse : string :=
  dq "[{'label':'A','insight':'alpha','timestamps':[]},{'label':'B','insight':'beta','timestamps':['00:20']},{'label':'C','insight':'gamma','timestamps':['00:40']},{'label':'D','insight':'delta','timestamps':['00:50']}".


(** Three takeaways encoded as strings and a fourth written plainly, in
    the first place of the array. *)
Definition mixedResponse : string :=
  dq "[{'label':'D','insight':'d','timestamps':['0:04']},'{\'label\':\'A\',\'insight\':\'a\',\'timestamps\':[\'0:01\']}','{\'label\':\'B\',\'insight\':\'b\',\'timestamps\':[\'0:01\']}','{\'label\':\'C\',\'insight\':\'c\',\'timestamps\':[\'0:01\']}']".

End RecoveryScenario.

(** ** Further scripted backends *)
Module QuietBackends.
Import Js Schema Providers Registry.

(** Every Gemini model answers, but with blank text; Claude answers with
    blanks as well. *)
Definition blankAnswers : Backends nat :=
  Scenario.scripted (fun _ => Scenario.claudeAnswers "   ")
                    (fun _ => Responded (Some "   "))
                    (Returned Scenario.grokAnswer).

(** The deadline of every Gemini request expires; Claude answers. *)
Definition geminiTimesOut : Backends nat :=
  Scenario.scripted (fun _ => Scenario.claudeAnswers "from claude")
                    (fun _ => TimedOut)
                    (Returned Scenario.grokAnswer).

(** A call whose Zod schema [z.toJSONSchema] does not convert. *)
Definition askWithSchema (text : string) (schema : Thrown + JsonSchema)
    : ProviderGenerateParams :=
  {| prompt := text; model := None; timeoutMs := Some 30000%Z;
     zodSchema := Some schema; hasOutputFormat := false |}.

End QuietBackends.

(** ** The dispatcher's bookkeeping, whatever the translations are *)
Module BatchSchedule.
Import Batch.
Local Open Scope list_scope.
Local Open Scope nat_scope.

(** What the workers keep true of [index] and of the chunks they have
    claimed, without any assumption on the translation client: the chunks
    claimed are those below [index], each awaited by one worker or
    answered once; the pool has its size; and a worker has only left its
    loop once every chunk was claimed. *)
Definition Claims (nchunks : nat) (s : Dispatch) : Prop :=
  index s <= nchunks /\
  Permutation (awaited (workers s) ++ map fst (served s)) (seq 0 (index s)) /\
  length (workers s) = Nat.min CONCURRENCY nchunks /\
  (In Finished (workers s) -> index s = nchunks).

(** The events still to come: two per chunk not yet claimed (its claim and
    its answer), one per awaited answer, and the last test of the loop
    condition of each worker. *)
Definition eventsLeft (nchunks : nat) (s : Dispatch) : nat :=
  2 * (nchunks - index s) + list_sum (map weight (workers s)).

End BatchSchedule.

(** ** The summary route: normalising a parsed payload and writing the
    Markdown (app/api/generate-summary route) *)
Module Summary.
Import Js Json Recovery.
Local Open Scope list_scope.

Definition TAKEAWAYS_HEADING : string := "## Key takeaways".

(** [s.replace(/\s+/g, ' ')]: every run of white space becomes one blank.
    [inRun] tells that the character before belongs to a run already
    replaced. *)
Fixpoint collapse (inRun : bool) (s : string) : string :=
  match s with
  | EmptyString => EmptyString
  | String c r =>
      if isWhiteSpace c
      then if inRun then collapse true r else String " " (collapse true r)
      else String c (collapse false r)
  end.

Definition collapseSpaces (s : string) : string := collapse false s.

Definition lineFeed : string := String (ascii_of_nat 10) EmptyString.

(** [item.timestamps.map(ts => ts.trim()).filter(Boolean).map(ts => `[${ts}]`)] *)
Definition timestampItems (timestamps : list string) : list string :=
  map (fun ts => "[" ++ ts ++ "]")%string
      (filter (fun ts => nonEmpty ts) (map trim timestamps)).

Definition timestampSuffix (timestamps : list string) : string :=
  match timestampItems timestamps with
  | [] => EmptyString
  | items => (" " ++ String.concat ", " items)%string
  end.

(** The line pushed for one takeaway. *)
Definition takeawayLine (item : StructuredTakeaway) : string :=
  ("- **" ++ collapseSpaces (trim (label item)) ++ "**: " ++ trim (insight item) ++
   timestampSuffix (timestamps item))%string.

Definition buildTakeawaysMarkdown (takeaways : list StructuredTakeaway) : string :=
  String.concat lineFeed (TAKEAWAYS_HEADING :: map takeawayLine takeaways).

Section Normalize.
(** [JSON.parse]: the value, or [None] where it throws. *)
Variable JSON_parse : string -> option JSON.
(** [sources => normalizeTimestampSources(sources, { limit: 2 })] of
    lib/timestamp-normalization, taken as it comes. *)
Variable normalizeTimestampSources : list JSON -> list string.






End Normalize.

(** A text in which white space occurs only as single blanks between two
    characters that are not white space. *)
Fixpoint singleSpaced (s : string) : bool :=
  match s with
  | EmptyString => true
  | String c r =>
      (negb (isWhiteSpace c) ||
       Ascii.eqb c " " &&
       match r with String d _ => negb (isWhiteSpace d) | EmptyString => false end) &&
      singleSpaced r
  end.

Definition startsWithText (s : string) : bool :=
  match s with String c _ => negb (isWhiteSpace c) | EmptyString => true end.

(** The number of line feeds in a text. *)
Fixpoint lineFeeds (s : string) : nat :=
  match s with
  | EmptyString => 0
  | String c r => (if Ascii.eqb c (ascii_of_nat 10) then 1 else 0) + lineFeeds r
  end.

End Summary.

(** ** Streams of the Claude SDK *)
Module ClaudeStream.
Import Js Providers.
Local Open Scope list_scope.

(** No message of the stream is a result. *)
Definition withoutResult (messages : list SdkMessage) : bool :=
  forallb (fun message => match message with
                          | Assistant _ _ | OtherMessage => true
                          | _ => false
                          end) messages.

(** The text of the assistant messages, in order. *)
Fixpoint spoken (messages : list SdkMessage) : string :=
  match messages with
  | [] => EmptyString
  | Assistant texts _ :: rest => (String.concat "" texts ++ spoken rest)%string
  | _ :: rest => spoken rest
  end.

(** The model named by the last assistant message, if it named one. *)
Fixpoint lastModel (messages : list SdkMessage) (before : option string) : option string :=
  match messages with
  | [] => before
  | Assistant _ named :: rest => lastModel rest named
  | _ :: rest => lastModel rest before
  end.

End ClaudeStream.

(** ** The translate-batch handler before it dispatches
    (app/api/translate-batch route) *)
Module BatchRequest.
Import Js Batch.
Local Open Scope list_scope.
Local Open Scope nat_scope.

Definition MAX_TEXT_LENGTH : N := 10000.
Definition MAX_TOTAL_CHARS : N := 500000.
Definition MAX_REQUEST_TEXTS : N := 10000.

(** What [NextResponse.json] is given: the translations, or an error with
    its status. *)
Inductive Response : Type :=
| Translations (translations : list Slot)
| Failure (error : string) (status : Z).

(** [texts.reduce((sum, t) => sum + t.length, 0)] *)
Definition totalChars (texts : list string) : N :=
  fold_left (fun sum t => (sum + N.of_nat (String.length t))%N) texts 0%N.

(** The tests on the validated texts that come before the chunking: the
    response they end in, or [None] when the handler goes on to
    dispatch. *)
Definition precheck (texts : list string) : option Response :=
  if length texts =? 0 then Some (Translations [])
  else if (MAX_REQUEST_TEXTS <? N.of_nat (length texts))%N
  then Some (Failure "Batch size too large. Maximum 10000 texts allowed." 400)
  else if (MAX_TOTAL_CHARS <? totalChars texts)%N
  then Some (Failure "Total text size too large. Maximum 500000 characters allowed." 400)
  else None.

(** The response of the [catch] block to what was thrown. *)
Definition respondToError (error : Thrown) : Response :=
  match error with
  | ThrownError message _ _ =>
      if includes message "API key"
      then Failure "Translation service configuration error" 500
      else if includes message "quota" || includes message "limit"
      then Failure "Translation service quota exceeded" 429
      else Failure "Translation failed" 500
  | _ => Failure "Translation failed" 500
  end.

End BatchRequest.

(** ** The provider table as a JavaScript object (lib/ai-providers/registry.ts) *)
Module RegistryNames.
Import Js Providers Registry.
Local Open Scope list_scope.

(** The names every object literal inherits from [Object.prototype], as
    Node.js has them. *)
Definition objectPrototypeNames : list string :=
  ["constructor"; "__defineGetter__"; "__defineSetter__"; "hasOwnProperty";
   "__lookupGetter__"; "__lookupSetter__"; "isPrototypeOf"; "propertyIsEnumerable";
   "toString"; "valueOf"; "__proto__"; "toLocaleString"].

(** [name in providerFactories]: true of the three own keys of the table and
    of the names it inherits. *)
Definition inProviderFactories (name : string) : bool :=
  existsb (String.eqb name) (map keyName providerKeys) ||
  existsb (String.eqb name) objectPrototypeNames.

(** [resolveProviderKey] with the string it returns: the cast
    [envPreference as ProviderKey] checks nothing, so that a preference
    which is an inherited name is returned as it is. *)
Definition resolveProviderKey (preferred : option string) (env : Env) : string :=
  let envPreference :=
    match preferred with
    | Some p => Some p
    | None =>
        match AI_PROVIDER env with
        | Some p => Some p
        | None => NEXT_PUBLIC_AI_PROVIDER env
        end
    end in
  if match envPreference with
     | Some p => nonEmpty p && inProviderFactories p
     | None => false
     end
  then default "" envPreference
  else if set (providerEnvGuards grok env) then "grok"
  else if set (providerEnvGuards gemini env) then "gemini"
  else if set (providerEnvGuards claude env) then "claude"
  else "grok".

End RegistryNames.

(** ** The replies a model cascade receives *)
Module CascadeReplies.
Import Js Providers.
Local Open Scope list_scope.

(** The replies up to and including the first on which a loop does not
    pass on to its next model. *)
Fixpoint heard {A : Type} (passesOn : A -> bool) (replies : list A) : list A :=
  match replies with
  | [] => []
  | reply :: rest => reply :: (if passesOn reply then heard passesOn rest else [])
  end.

Section Replies.
Context {World : Type} {backends : Backends World}.

(** What [callClaude] gives for the models of a list asked one after the
    other, each from the state the one before has left. *)
Fixpoint claudeReplies (models : list string) (params : ProviderGenerateParams)
    (m : Machine World) : list (Completion ProviderGenerateResult * Machine World) :=
  match models with
  | [] => []
  | modelName :: rest =>
      let reply := ClaudeAdapter.callClaude (prompt params) modelName params m in
      reply :: claudeReplies rest params (snd reply)
  end.

(** The same for the [try] block of the Gemini loop. *)
Fixpoint geminiReplies (models : list string) (params : ProviderGenerateParams)
    (m : Machine World)
    : list (Completion (option ProviderGenerateResult) * Machine World) :=
  match models with
  | [] => []
  | modelName :: rest =>
      let reply := GeminiAdapter.attempt modelName params m in
      reply :: geminiReplies rest params (snd reply)
  end.

(** The Claude loop passes on after an error Retryable for it. *)
Definition claudePassesOn (reply : Completion ProviderGenerateResult * Machine World)
    : bool :=
  match fst reply with
  | Threw error => ClaudeAdapter.isRetryableError error
  | _ => false
  end.

(** The Gemini loop passes on after an error Retryable for it, and after an
    answer without text. *)
Definition geminiPassesOn
    (reply : Completion (option ProviderGenerateResult) * Machine World) : bool :=
  match fst reply with
  | Threw error => GeminiAdapter.isRetryableError error
  | Returned None => true
  | _ => false
  end.

(** The value of [lastError] after the replies: what the last of them that
    threw has thrown. *)
Definition lastThrown (before : Thrown)
    (replies : list (Completion (option ProviderGenerateResult) * Machine World))
    : Thrown :=
  fold_left (fun lastError reply =>
               match fst reply with Threw error => error | _ => lastError end)
            replies before.

End Replies.
End CascadeReplies.

(** * Statements *)

(** ** Strings *)
Module JsFacts.
Import Js.

Lemma prefix_app (p r : string) : String.prefix p (p ++ r) = true.
Proof.
  induction p as [|c p IH]; simpl.
  - now destruct r.
  - destruct (ascii_dec c c); [exact IH | congruence].
Qed.

Lemma prefix_split (p s : string) :
  String.prefix p s = true -> exists r, s = p ++ r.
Proof.
  revert s. induction p as [|c p IH]; intros s Hp.
  - now exists s.
  - destruct s as [|d s]; simpl in Hp; [discriminate|].
    destruct (ascii_dec c d) as [->|]; [|discriminate].
    destruct (IH _ Hp) as [r ->]. now exists r.
Qed.

Lemma includes_cons (c : ascii) (s needle : string) :
  includes (String c s) needle = String.prefix needle (String c s) || includes s needle.
Proof. reflexivity. Qed.

Lemma includes_empty (needle : string) :
  includes "" needle = String.prefix needle "".
Proof. unfold includes. apply orb_false_r. Qed.

Lemma includes_Contains (s needle : string) :
  includes s needle = true <-> Contains s needle.
Proof.
  split.
  - induction s as [|c s IH]; intros Hi.
    + rewrite includes_empty in Hi. apply prefix_split in Hi as [r Hr].
      now exists "", r.
    + rewrite includes_cons in Hi. apply orb_true_iff in Hi as [Hp|Hi].
      * apply prefix_split in Hp as [r Hr]. now exists "", r.
      * destruct (IH Hi) as (a & b & ->). now exists (String c a), b.
  - intros (a & b & ->). induction a as [|c a IH].
    + change ("" ++ needle ++ b) with (needle ++ b).
      destruct (needle ++ b) as [|d t] eqn:E.
      * rewrite includes_empty, <- E. apply prefix_app.
      * rewrite includes_cons, <- E, prefix_app. reflexivity.
    + change (String c a ++ needle ++ b) with (String c (a ++ needle ++ b)).
      rewrite includes_cons, IH. apply orb_true_r.
Qed.

Lemma includes_false (s needle : string) :
  includes s needle = false <-> ~ Contains s needle.
Proof.
  rewrite <- includes_Contains. now destruct (includes s needle).
Qed.

Lemma toLowerCase_length (s : string) :
  String.length (toLowerCase s) = String.length s.
Proof. induction s; simpl; congruence. Qed.

Lemma truthy_Error (msg : string) : truthy (Error msg) = true.
Proof. reflexivity. Qed.

End JsFacts.

(** ** Retry classification *)
Module ClassificationFacts.
Import Js Providers JsFacts.

Ltac split_includes :=
  repeat rewrite orb_true_iff; repeat rewrite includes_Contains.

Lemma registry_retryable_iff (e : Thrown) :
  Registry.isRetryableError e = true <->
  truthy e = true /\
  let m := toLowerCase (messageOrString e) in
  Contains m "service unavailable" \/ Contains m "503" \/ Contains m "502" \/
  Contains m "504" \/ Contains m "timeout" \/ Contains m "overload".
Proof.
  unfold Registry.isRetryableError. cbv zeta.
  destruct (truthy e); simpl negb; cbv iota.
  - split_includes. intuition.
  - intuition discriminate.
Qed.

Lemma claude_retryable_iff (e : Thrown) :
  ClaudeAdapter.isRetryableError e = true <->
  truthy e = true /\
  let m := toLowerCase (messageOrString e) in
  Contains m "429" \/ Contains m "503" \/ Contains m "529" \/
  Contains m "overloaded" \/ Contains m "rate_limit" \/ Contains m "service unavailable".
Proof.
  unfold ClaudeAdapter.isRetryableError. cbv zeta.
  destruct (truthy e); simpl negb; cbv iota.
  - split_includes. intuition.
  - intuition discriminate.
Qed.

Lemma isNum_iff (f : Field) (n : Z) : isNum f n = true <-> f = FNum n.
Proof.
  destruct f as [|k|s]; simpl; try (split; [discriminate | intros [=]]).
  rewrite Z.eqb_eq. split; [now intros -> | now intros [= ->]].
Qed.

Lemma gemini_retryable_iff (e : Thrown) :
  GeminiAdapter.isRetryableError e = true <->
  truthy e = true /\
  let status := nullish (statusOf e) (codeOf e) in
  let m := GeminiAdapter.messageOrEmpty e in
  status = FNum 503 \/ status = FNum 429 \/ Contains m "503" \/ Contains m "429" \/
  Contains (toLowerCase m) "overload" \/ Contains (toLowerCase m) "rate limit".
Proof.
  unfold GeminiAdapter.isRetryableError. cbv zeta.
  destruct (truthy e); simpl negb; cbv iota.
  - split_includes. rewrite !isNum_iff. intuition.
  - intuition discriminate.
Qed.

(** C3 (amended).  Each layer classifies by a function of the thrown value
    alone, and each by signals of its own.  The orchestrator says
    Retryable exactly when the value is truthy and its lower-cased message
    contains "service unavailable", "503", "502", "504", "timeout" or
    "overload"; the Claude executor exactly when the lower-cased message
    contains "429", "503", "529", "overloaded", "rate_limit" or "service
    unavailable"; the Gemini executor exactly when the status (or, with no
    status, the code) is the number 503 or 429, or the message contains
    "503" or "429", or the lower-cased message contains "overload" or
    "rate limit". *)
Theorem classification_by_layer (e : Thrown) :
  (Registry.isRetryableError e = true <->
     truthy e = true /\
     let m := toLowerCase (messageOrString e) in
     Contains m "service unavailable" \/ Contains m "503" \/ Contains m "502" \/
     Contains m "504" \/ Contains m "timeout" \/ Contains m "overload") /\
  (ClaudeAdapter.isRetryableError e = true <->
     truthy e = true /\
     let m := toLowerCase (messageOrString e) in
     Contains m "429" \/ Contains m "503" \/ Contains m "529" \/
     Contains m "overloaded" \/ Contains m "rate_limit" \/
     Contains m "service unavailable") /\
  (GeminiAdapter.isRetryableError e = true <->
     truthy e = true /\
     let status := nullish (statusOf e) (codeOf e) in
     let m := GeminiAdapter.messageOrEmpty e in
     status = FNum 503 \/ status = FNum 429 \/ Contains m "503" \/ Contains m "429" \/
     Contains (toLowerCase m) "overload" \/ Contains (toLowerCase m) "rate limit").
Proof.
  split; [apply registry_retryable_iff|].
  split; [apply claude_retryable_iff | apply gemini_retryable_iff].
Qed.

(** C3 as stated fails: an error that carries status 502 and the message
    "Bad Gateway" is Retryable by the specification's rule and Fatal at all
    three layers; "Service Unavailable" is Retryable for the orchestrator
    though outside the rule; and a "Request timeout" is Retryable for the
    orchestrator and Fatal for both executors. *)
Lemma classification_not_uniform :
  let badGateway := ThrownError "Bad Gateway" (FNum 502) FAbsent in
  let unavailable := Error "Service Unavailable" in
  let timeout := Error "Request timeout" in
  (SpecWords.retryable badGateway = true /\
   Registry.isRetryableError badGateway = false /\
   ClaudeAdapter.isRetryableError badGateway = false /\
   GeminiAdapter.isRetryableError badGateway = false) /\
  (SpecWords.retryable unavailable = false /\
   Registry.isRetryableError unavailable = true) /\
  (Registry.isRetryableError timeout = true /\
   ClaudeAdapter.isRetryableError timeout = false /\
   GeminiAdapter.isRetryableError timeout = false).
Proof. vm_compute. repeat split. Qed.

End ClassificationFacts.

(** ** The registry: configured providers *)
Module RegistryFacts.
Import Js Providers Registry.

Lemma claude_guard_set (env : Env) : set (providerEnvGuards claude env) = true.
Proof.
  unfold providerEnvGuards.
  destruct (set (ANTHROPIC_API_KEY env)) eqn:E; [exact E | reflexivity].
Qed.

Lemma availableProviders_spec (env : Env) (key : ProviderKey) :
  In key (availableProviders env) <-> set (providerEnvGuards key env) = true.
Proof.
  unfold availableProviders. rewrite <- list_elem_of_In, list_elem_of_filter.
  rewrite Is_true_true. split; [tauto|]. intros Hs. split; [exact Hs|].
  unfold providerKeys. destruct key; repeat constructor.
Qed.

Lemma getFallbackProvider_sound (current fallback : ProviderKey) (env : Env) :
  getFallbackProvider current env = Some fallback ->
  fallback <> current /\ set (providerEnvGuards fallback env) = true.
Proof.
  unfold getFallbackProvider. intros Hh.
  apply head_Some_elem_of in Hh. apply list_elem_of_filter in Hh as [Hne Hin].
  split.
  - intros ->. apply Is_true_true in Hne.
    rewrite bool_decide_eq_true_2 in Hne by reflexivity. discriminate.
  - apply availableProviders_spec, list_elem_of_In, Hin.
Qed.

Lemma factory_succeeds (key : ProviderKey) (env : Env) :
  set (providerEnvGuards key env) = true -> providerFactories key env = None.
Proof.
  destruct key; simpl; unfold createGrokAdapter, createGeminiAdapter;
    intros Hs; try rewrite Hs; reflexivity.
Qed.

Section WithBackends.
Context {World : Type} {backends : Backends World}.

(** [ensureProvider] returns the adapter of a configured key, touching
    nothing but the cache. *)
Lemma ensureProvider_configured (key : ProviderKey) (env : Env) (m : Machine World) :
  set (providerEnvGuards key env) = true ->
  exists m', ensureProvider key env m = (Returned key, m') /\
             world m' = world m /\ trace m' = trace m.
Proof.
  intros Hs. unfold ensureProvider.
  destruct (providerCache m key); [now exists m|].
  rewrite Hs, (factory_succeeds _ _ Hs). simpl. eexists. repeat split.
Qed.

(** C10.  Whatever the environment, the guard of the claude provider is a
    non-empty string, the constant "local-claude-code" when
    ANTHROPIC_API_KEY is unset or empty; hence [availableProviders] lists
    claude, [ensureProvider] on claude returns its adapter and throws
    nothing, and every other primary key has a fallback. *)
Theorem claude_always_configured (env : Env) :
  set (providerEnvGuards claude env) = true /\
  (set (ANTHROPIC_API_KEY env) = false ->
   providerEnvGuards claude env = Some "local-claude-code") /\
  In claude (availableProviders env) /\
  (forall m : Machine World, exists m', ensureProvider claude env m = (Returned claude, m')) /\
  (forall k, k <> claude -> exists fallback, getFallbackProvider k env = Some fallback).
Proof.
  split; [apply claude_guard_set|]. split.
  { unfold providerEnvGuards. now intros ->. }
  split; [apply availableProviders_spec, claude_guard_set|]. split.
  - intros m. destruct (ensureProvider_configured claude env m (claude_guard_set env))
      as (m' & Hm & _). now exists m'.
  - intros k Hk. unfold getFallbackProvider.
    destruct (head _) as [fb|] eqn:Hh; [now exists fb|].
    apply head_None in Hh.
    assert (Hin : claude ∈ filter (fun key => negb (bool_decide (key = k))) (availableProviders env)).
    { apply list_elem_of_filter. split.
      - apply Is_true_true. rewrite bool_decide_eq_false_2; [reflexivity | congruence].
      - apply list_elem_of_In, availableProviders_spec, claude_guard_set. }
    rewrite Hh in Hin. inversion Hin.
Qed.

End WithBackends.

End RegistryFacts.

(** ** The model cascades *)
Module CascadeFacts.
Import Js Providers CascadeReplies JsFacts.
Local Open Scope list_scope.

Lemma claude_models_distinct : NoDup ClaudeAdapter.MODEL_CASCADE.
Proof.
  unfold ClaudeAdapter.MODEL_CASCADE.
  repeat (constructor; [rewrite !list_elem_of_In; simpl; intuition discriminate|]).
  constructor.
Qed.

Lemma getNextModel_advances (i : nat) (current : string) :
  ClaudeAdapter.MODEL_CASCADE !! i = Some current ->
  ClaudeAdapter.getNextModel current = ClaudeAdapter.MODEL_CASCADE !! S i.
Proof.
  unfold ClaudeAdapter.MODEL_CASCADE.
  destruct i as [|[|[|i]]]; intros Hc; simpl in Hc;
    try (injection Hc as <-; reflexivity).
  destruct i; discriminate.
Qed.

Lemma existsb_eqb_nth (x : string) (l : list string) :
  existsb (String.eqb x) l = true -> exists i, l !! i = Some x.
Proof.
  induction l as [|y l IH]; simpl; [discriminate|].
  destruct (String.eqb_spec x y) as [->|_]; simpl.
  - intros _. now exists 0.
  - intros Hx. destruct (IH Hx) as [i Hi]. now exists (S i).
Qed.

Lemma claude_startModel_listed (params : ProviderGenerateParams) :
  exists i, ClaudeAdapter.MODEL_CASCADE !! i = Some (ClaudeAdapter.startModel params).
Proof.
  unfold ClaudeAdapter.startModel.
  destruct (model params) as [m|]; [|now exists 0].
  destruct (nonEmpty m && existsb (String.eqb m) ClaudeAdapter.MODEL_CASCADE) eqn:E;
    [|now exists 0].
  apply andb_true_iff in E as [_ E]. now apply existsb_eqb_nth.
Qed.

Lemma claude_index_bound (i : nat) (current : string) :
  ClaudeAdapter.MODEL_CASCADE !! i = Some current -> i < 3.
Proof.
  intros Hi. change 3 with (length ClaudeAdapter.MODEL_CASCADE).
  now apply lookup_lt_Some in Hi.
Qed.

Section WithBackends.
Context {World : Type} {backends : Backends World}.

(** One call of [callClaude] sends one request and never stays pending. *)
Lemma callClaude_effect (prompt model : string) (params : ProviderGenerateParams)
    (m : Machine World) :
  exists c m', ClaudeAdapter.callClaude prompt model params m = (c, m') /\
               trace m' = trace m ++ [BackendRequest claude model] /\
               providerCache m' = providerCache m /\
               c <> Pending.
Proof.
  unfold ClaudeAdapter.callClaude, bind, emit, request. simpl.
  destruct (query _ _ _) as [[messages ending] w].
  destruct (ClaudeAdapter.collect _ _) as [error|acc].
  - eexists _, _. repeat split. discriminate.
  - destruct ending; [|eexists _, _; repeat split; discriminate..].
    destruct (negb _); eexists _, _; repeat split; discriminate.
Qed.

(** The loop of the Claude adapter walks the cascade from the position of
    its current model: it sends requests for a run of consecutive entries
    and ends with the completion of the last one it tried. *)
Lemma claude_cascade_walk (params : ProviderGenerateParams) (fuel i : nat)
    (current : string) (m : Machine World) :
  ClaudeAdapter.MODEL_CASCADE !! i = Some current ->
  length ClaudeAdapter.MODEL_CASCADE - i <= fuel ->
  exists n m1,
    i + n < length ClaudeAdapter.MODEL_CASCADE /\
    trace m1 = trace m ++
      map (BackendRequest claude) (take n (drop i ClaudeAdapter.MODEL_CASCADE)) /\
    providerCache m1 = providerCache m /\
    ClaudeAdapter.cascade fuel current params m =
      ClaudeAdapter.callClaude (prompt params)
        (nth (i + n) ClaudeAdapter.MODEL_CASCADE "") params m1 /\
    match fst (ClaudeAdapter.cascade fuel current params m) with
    | Returned _ => True
    | Threw e => ClaudeAdapter.isRetryableError e = false \/
                 i + S n = length ClaudeAdapter.MODEL_CASCADE
    | Pending => False
    end.
Proof.
  change (length ClaudeAdapter.MODEL_CASCADE) with 3.
  revert i current m. induction fuel as [|fuel IH]; intros i current m Hi Hfuel.
  { pose proof (claude_index_bound _ _ Hi). lia. }
  pose proof (claude_index_bound _ _ Hi) as Hlt.
  assert (Hcur : nth i ClaudeAdapter.MODEL_CASCADE "" = current)
    by now apply nth_lookup_Some.
  destruct (callClaude_effect (prompt params) current params m)
    as (c & m' & Hcall & Htr & Hcache & Hpend).
  assert (Hstop : ClaudeAdapter.cascade (S fuel) current params m = (c, m') ->
                  match c with
                  | Returned _ => True
                  | Threw e => ClaudeAdapter.isRetryableError e = false \/
                               i + 1 = 3
                  | Pending => False
                  end ->
                  exists n m1,
    i + n < 3 /\
    trace m1 = trace m ++
      map (BackendRequest claude) (take n (drop i ClaudeAdapter.MODEL_CASCADE)) /\
    providerCache m1 = providerCache m /\
    ClaudeAdapter.cascade (S fuel) current params m =
      ClaudeAdapter.callClaude (prompt params)
        (nth (i + n) ClaudeAdapter.MODEL_CASCADE "") params m1 /\
    match fst (ClaudeAdapter.cascade (S fuel) current params m) with
    | Returned _ => True
    | Threw e => ClaudeAdapter.isRetryableError e = false \/ i + S n = 3
    | Pending => False
    end).
  { intros Heq Hc. exists 0, m. rewrite Nat.add_0_r, Hcur, Heq, Hcall. simpl.
    rewrite app_nil_r. repeat split; [exact Hlt | exact Hc]. }
  assert (Hunfold : ClaudeAdapter.cascade (S fuel) current params m =
            match c with
            | Threw e =>
                if ClaudeAdapter.isRetryableError e then
                  match ClaudeAdapter.getNextModel current with
                  | Some next => ClaudeAdapter.cascade fuel next params m'
                  | None => (Threw e, m')
                  end
                else (Threw e, m')
            | _ => (c, m')
            end).
  { simpl. unfold tryCatch. rewrite Hcall. destruct c as [r|e|]; try reflexivity.
    destruct (ClaudeAdapter.isRetryableError e); [|reflexivity].
    now destruct (ClaudeAdapter.getNextModel current). }
  destruct c as [r|e|]; [now apply Hstop | | congruence].
  destruct (ClaudeAdapter.isRetryableError e) eqn:Hre; [|apply Hstop; auto].
  rewrite (getNextModel_advances _ _ Hi) in Hunfold.
  destruct (ClaudeAdapter.MODEL_CASCADE !! S i) as [next|] eqn:Hnext.
  - destruct (IH (S i) next m' Hnext ltac:(lia)) as (n & m1 & Hn & Htr1 & Hc1 & Hrun & Hout).
    exists (S n), m1. rewrite Hunfold, Nat.add_succ_r. repeat split.
    + lia.
    + rewrite Htr1, Htr, <- app_assoc. f_equal.
      rewrite (drop_S _ current i) by exact Hi.
      reflexivity.
    + congruence.
    + exact Hrun.
    + destruct (ClaudeAdapter.cascade fuel next params m') as [[r2|e2|] m2];
        simpl in *; auto.
      destruct Hout; [auto | right; lia].
  - apply Hstop; [exact Hunfold|]. right.
    apply lookup_ge_None in Hnext.
    change (length ClaudeAdapter.MODEL_CASCADE) with 3 in Hnext. lia.
Qed.

(** One attempt of the Gemini adapter sends one request, unless the schema
    of the call does not convert, in which case it sends none and throws. *)
Lemma gemini_attempt_effect (modelName : string) (params : ProviderGenerateParams)
    (m : Machine World) :
  exists c m', GeminiAdapter.attempt modelName params m = (c, m') /\
    providerCache m' = providerCache m /\ c <> Pending /\
    match GeminiAdapter.buildGenerationConfig params with
    | inr _ => trace m' = trace m ++ [BackendRequest gemini modelName] /\
               match c with
               | Returned (Some r) => usedModel r = modelName
               | _ => True
               end
    | inl error => m' = m /\ c = Threw error
    end.
Proof.
  unfold GeminiAdapter.attempt.
  destruct (GeminiAdapter.buildGenerationConfig params) as [error|config].
  - eexists _, _. repeat split. discriminate.
  - unfold bind, emit, request. simpl.
    destruct (generateContent _ _ _ _) as [[[response|]|e|] w];
      try (eexists _, _; repeat split; discriminate).
    destruct (nonEmpty (trim response)); eexists _, _; repeat split; discriminate.
Qed.

(** The loop of the Gemini adapter tries a prefix of its model list, in
    order: it returns the answer of the last model it tried, rethrows a
    wrapped Fatal error, or reports that every model failed. *)
Lemma gemini_walk (params : ProviderGenerateParams) (models : list string)
    (lastError : Thrown) (m : Machine World) :
  exists n c m1,
    GeminiAdapter.tryModels models lastError params m = (c, m1) /\
    n <= length models /\
    providerCache m1 = providerCache m /\
    trace m1 = trace m ++
      match GeminiAdapter.buildGenerationConfig params with
      | inr _ => map (BackendRequest gemini) (take n models)
      | inl _ => []
      end /\
    match c with
    | Returned r =>
        exists k, n = S k /\ models !! k = Some (usedModel r) /\
                  exists config, GeminiAdapter.buildGenerationConfig params = inr config
    | Threw e =>
        (exists cause, GeminiAdapter.isRetryableError cause = false /\ e = GeminiAdapter.apiError cause) \/
        (n = length models /\ exists last, e = GeminiAdapter.allFailed last)
    | Pending => False
    end.
Proof.
  revert lastError m. induction models as [|modelName rest IH]; intros lastError m.
  - exists 0, (Threw (GeminiAdapter.allFailed lastError)), m. simpl.
    repeat split; try lia.
    + destruct (GeminiAdapter.buildGenerationConfig params); now rewrite app_nil_r.
    + right. split; [reflexivity | now exists lastError].
  - destruct (gemini_attempt_effect modelName params m) as (c & m' & Hatt & Hcache & Hpend & Hcfg).
    assert (Hnext : forall lastError',
       GeminiAdapter.tryModels (modelName :: rest) lastError params m =
       GeminiAdapter.tryModels rest lastError' params m' ->
       exists n c1 m1,
         GeminiAdapter.tryModels (modelName :: rest) lastError params m = (c1, m1) /\
         n <= length (modelName :: rest) /\
         providerCache m1 = providerCache m /\
         trace m1 = trace m ++
           match GeminiAdapter.buildGenerationConfig params with
           | inr _ => map (BackendRequest gemini) (take n (modelName :: rest))
           | inl _ => []
           end /\
         match c1 with
         | Returned r =>
             exists k, n = S k /\ (modelName :: rest) !! k = Some (usedModel r) /\
                       exists config, GeminiAdapter.buildGenerationConfig params = inr config
         | Threw e =>
             (exists cause, GeminiAdapter.isRetryableError cause = false /\
                            e = GeminiAdapter.apiError cause) \/
             (n = length (modelName :: rest) /\ exists last, e = GeminiAdapter.allFailed last)
         | Pending => False
         end).
    { intros lastError' Heq.
      destruct (IH lastError' m') as (n & c1 & m1 & Hrun & Hn & Hc1 & Htr & Hout).
      exists (S n), c1, m1. rewrite Heq, Hrun. repeat split.
      - simpl. lia.
      - congruence.
      - rewrite Htr. destruct (GeminiAdapter.buildGenerationConfig params).
        + destruct Hcfg as [-> _]. reflexivity.
        + destruct Hcfg as [-> _]. simpl. now rewrite <- app_assoc.
      - destruct c1 as [r|e|]; [| |exact Hout].
        + destruct Hout as (k & -> & Hk & Hc). exists (S k). repeat split; assumption.
        + destruct Hout as [Hw|[-> Hl]]; [now left | right; split; [reflexivity | exact Hl]]. }
    assert (Hunfold : GeminiAdapter.tryModels (modelName :: rest) lastError params m =
              match c with
              | Returned (Some result) => (Returned result, m')
              | Returned None => GeminiAdapter.tryModels rest lastError params m'
              | Threw error =>
                  if negb (GeminiAdapter.isRetryableError error)
                  then (Threw (GeminiAdapter.apiError error), m')
                  else GeminiAdapter.tryModels rest error params m'
              | Pending => (Pending, m')
              end).
    { cbn [GeminiAdapter.tryModels]. rewrite Hatt.
      destruct c as [[result|]|error|]; reflexivity. }
    destruct c as [[result|]|error|]; [| |destruct (GeminiAdapter.isRetryableError error) eqn:Hre|];
      cbv beta iota delta [negb] in Hunfold.
    + exists 1, (Returned result), m'. rewrite Hunfold. simpl.
      destruct (GeminiAdapter.buildGenerationConfig params) as [e|config].
      * destruct Hcfg as [_ [=]].
      * destruct Hcfg as [Htr Hm]. repeat split; try assumption; try lia.
        exists 0. repeat split; [now rewrite Hm | now exists config].
    + now apply (Hnext lastError).
    + now apply (Hnext error).
    + exists (match GeminiAdapter.buildGenerationConfig params with inr _ => 1 | inl _ => 0 end),
        (Threw (GeminiAdapter.apiError error)), m'.
      rewrite Hunfold. repeat split; try assumption.
      * destruct (GeminiAdapter.buildGenerationConfig params); simpl; lia.
      * destruct (GeminiAdapter.buildGenerationConfig params).
        -- destruct Hcfg as [-> _]. now rewrite app_nil_r.
        -- now destruct Hcfg as [-> _].
      * left. now exists error.
    + congruence.
Qed.

Lemma gemini_models_distinct (preferred : option string) :
  NoDup (GeminiAdapter.buildModelList preferred).
Proof.
  assert (Hd : NoDup GeminiAdapter.MODEL_CASCADE).
  { unfold GeminiAdapter.MODEL_CASCADE.
    repeat (constructor; [rewrite !list_elem_of_In; simpl; intuition discriminate|]).
    constructor. }
  unfold GeminiAdapter.buildModelList. destruct preferred as [p|]; [|exact Hd].
  destruct (GeminiAdapter.isValidModel (Some p)); [|exact Hd].
  apply NoDup_cons. split; [|now apply NoDup_filter].
  rewrite list_elem_of_filter. intros [Hp _]. apply Is_true_true in Hp.
  now rewrite String.eqb_refl in Hp.
Qed.

(** The requests of one [generate] call of the Claude adapter. *)
Lemma claude_generate_trace (params : ProviderGenerateParams) (m : Machine World) :
  exists models,
    trace (snd (ClaudeAdapter.generate params m)) =
      trace m ++ map (BackendRequest claude) models.
Proof.
  destruct (claude_startModel_listed params) as [i Hi].
  destruct (claude_cascade_walk params (length ClaudeAdapter.MODEL_CASCADE) i _ m Hi
              ltac:(lia)) as (n & m1 & _ & Htr & _ & Hrun & _).
  unfold ClaudeAdapter.generate. rewrite Hrun.
  destruct (callClaude_effect (prompt params)
              (nth (i + n) ClaudeAdapter.MODEL_CASCADE "") params m1)
    as (c & m' & -> & Htr' & _). simpl. rewrite Htr', Htr, <- app_assoc.
  exists (take n (drop i ClaudeAdapter.MODEL_CASCADE) ++
          [nth (i + n) ClaudeAdapter.MODEL_CASCADE ""]).
  now rewrite map_app.
Qed.

Lemma buildModelList_length (preferred : option string) :
  length (GeminiAdapter.buildModelList preferred) = 3.
Proof.
  unfold GeminiAdapter.buildModelList. destruct preferred as [p|]; [|reflexivity].
  destruct (GeminiAdapter.isValidModel (Some p)) eqn:Hp; [|reflexivity].
  unfold GeminiAdapter.isValidModel in Hp. apply andb_true_iff in Hp as [_ Hp].
  apply existsb_exists in Hp as (x & Hin & Heq). apply String.eqb_eq in Heq. subst x.
  cbn in Hin. destruct Hin as [<-|[<-|[<-|[]]]]; reflexivity.
Qed.

Lemma heard_length {A : Type} (passesOn : A -> bool) (replies : list A) :
  length (heard passesOn replies) <= length replies.
Proof.
  induction replies as [|reply rest IH]; cbn [heard length]; [lia|].
  destruct (passesOn reply); cbn [length]; lia.
Qed.

Lemma heard_nonempty {A : Type} (passesOn : A -> bool) (reply : A) (rest : list A) :
  heard passesOn (reply :: rest) <> [].
Proof. discriminate. Qed.

(** Every reply heard before the last is one the loop passes on from. *)
Lemma heard_passes {A : Type} (passesOn : A -> bool) (replies : list A) (k : nat) (reply : A) :
  S k < length (heard passesOn replies) ->
  heard passesOn replies !! k = Some reply -> passesOn reply = true.
Proof.
  revert k. induction replies as [|first rest IH]; intros k; cbn [heard length]; [lia|].
  destruct (passesOn first) eqn:Hfirst; [|cbn [length]; lia].
  destruct k as [|k]; cbn [length]; [now intros _ [= <-]|].
  intros Hk Hlook. apply (IH k); [lia | exact Hlook].
Qed.

(** The loop stops short of the end of its list only at a reply it does
    not pass on from. *)
Lemma heard_stops {A : Type} (passesOn : A -> bool) (replies : list A) :
  length (heard passesOn replies) < length replies ->
  exists reply, last (heard passesOn replies) = Some reply /\ passesOn reply = false.
Proof.
  induction replies as [|first rest IH]; cbn [heard length]; [lia|].
  destruct (passesOn first) eqn:Hfirst; [|intros _; now exists first].
  cbn [length]. intros Hlen. destruct (IH ltac:(lia)) as (reply & Hlast & Hstop).
  exists reply. split; [|exact Hstop].
  destruct (heard passesOn rest) as [|x l]; [discriminate|]. exact Hlast.
Qed.

Lemma claudeReplies_length (models : list string) (params : ProviderGenerateParams)
    (m : Machine World) :
  length (claudeReplies models params m) = length models.
Proof.
  revert m. induction models as [|x models IH]; intros m; cbn [claudeReplies length];
    [reflexivity | now rewrite IH].
Qed.

Lemma geminiReplies_length (models : list string) (params : ProviderGenerateParams)
    (m : Machine World) :
  length (geminiReplies models params m) = length models.
Proof.
  revert m. induction models as [|x models IH]; intros m; cbn [geminiReplies length];
    [reflexivity | now rewrite IH].
Qed.

(** The Claude loop ends with the last reply it hears, unchanged. *)
Lemma claude_cascade_heard (params : ProviderGenerateParams) (fuel i : nat)
    (current : string) (m : Machine World) :
  ClaudeAdapter.MODEL_CASCADE !! i = Some current ->
  length ClaudeAdapter.MODEL_CASCADE - i <= fuel ->
  last (heard claudePassesOn
          (claudeReplies (drop i ClaudeAdapter.MODEL_CASCADE) params m)) =
    Some (ClaudeAdapter.cascade fuel current params m).
Proof.
  change (length ClaudeAdapter.MODEL_CASCADE) with 3.
  revert i current m. induction fuel as [|fuel IH]; intros i current m Hi Hfuel.
  { pose proof (claude_index_bound _ _ Hi). lia. }
  rewrite (drop_S _ current i Hi). cbn [claudeReplies heard ClaudeAdapter.cascade].
  unfold tryCatch, claudePassesOn at 1.
  destruct (ClaudeAdapter.callClaude (prompt params) current params m) as [c m'] eqn:Hcall.
  cbn [fst snd].
  destruct c as [r|e|]; [reflexivity | | reflexivity].
  destruct (ClaudeAdapter.isRetryableError e); [|reflexivity].
  rewrite (getNextModel_advances _ _ Hi).
  destruct (ClaudeAdapter.MODEL_CASCADE !! S i) as [next|] eqn:Hnext.
  - rewrite <- (IH (S i) next m' Hnext ltac:(lia)).
    rewrite (drop_S _ next (S i) Hnext). reflexivity.
  - apply lookup_ge_None in Hnext. now rewrite (drop_ge _ (S i)) by exact Hnext.
Qed.

(** The requests behind the replies the Claude loop hears. *)
Lemma claude_heard_trace (params : ProviderGenerateParams) (models : list string)
    (m : Machine World) :
  forall reply,
    last (heard claudePassesOn (claudeReplies models params m)) = Some reply ->
    trace (snd reply) = trace m ++
      map (BackendRequest claude)
          (take (length (heard claudePassesOn (claudeReplies models params m))) models).
Proof.
  revert m. induction models as [|x models IH]; intros m reply; [discriminate|].
  cbn [claudeReplies heard].
  destruct (callClaude_effect (prompt params) x params m) as (c & m' & Hcall & Htr & _).
  rewrite Hcall. cbn [snd].
  destruct (claudePassesOn (c, m')).
  - destruct (heard claudePassesOn (claudeReplies models params m')) as [|y l] eqn:Hl.
    + intros [= <-]. cbn [length take map snd]. exact Htr.
    + intros Hlast. cbn [length take map].
      rewrite (IH m' reply); [|rewrite Hl; exact Hlast].
      rewrite Hl, Htr, <- app_assoc. reflexivity.
  - intros [= <-]. cbn [length take map snd]. rewrite take_0. exact Htr.
Qed.

(** The Gemini loop is decided by the last reply it hears: it returns an
    answer with text, wraps an error that is not Retryable, and after the
    last model reports the error thrown last. *)
Lemma tryModels_heard (params : ProviderGenerateParams) (models : list string)
    (lastError : Thrown) (m : Machine World) :
  let replies := heard geminiPassesOn (geminiReplies models params m) in
  GeminiAdapter.tryModels models lastError params m =
    match last replies with
    | None => (Threw (GeminiAdapter.allFailed lastError), m)
    | Some (reply, m') =>
        (match reply with
         | Returned (Some result) => Returned result
         | Returned None => Threw (GeminiAdapter.allFailed (lastThrown lastError replies))
         | Threw error =>
             if GeminiAdapter.isRetryableError error
             then Threw (GeminiAdapter.allFailed error)
             else Threw (GeminiAdapter.apiError error)
         | Pending => Pending
         end, m')
    end.
Proof.
  cbv zeta. revert lastError m.
  induction models as [|x models IH]; intros lastError m; [reflexivity|].
  cbn [geminiReplies heard GeminiAdapter.tryModels].
  destruct (GeminiAdapter.attempt x params m) as [c m'] eqn:Hatt.
  unfold geminiPassesOn at 1 3. cbn [fst snd].
  destruct c as [[result|]|error|]; [reflexivity | | | reflexivity].
  - rewrite IH.
    destruct (heard geminiPassesOn (geminiReplies models params m')) as [|y l] eqn:Hl;
      [reflexivity|].
    change (last ((Returned None, m') :: y :: l)) with (last (y :: l)).
    destruct (last (y :: l)) as [[reply m1]|] eqn:Hlast;
      [|apply last_None in Hlast; discriminate].
    destruct reply as [[result|]|error|]; reflexivity.
  - destruct (GeminiAdapter.isRetryableError error) eqn:Hre; cbn [negb];
      [|cbn [last]; now rewrite Hre].
    rewrite IH.
    destruct (heard geminiPassesOn (geminiReplies models params m')) as [|y l] eqn:Hl;
      [cbn [last]; now rewrite Hre|].
    change (last ((Threw error, m') :: y :: l)) with (last (y :: l)).
    destruct (last (y :: l)) as [[reply m1]|] eqn:Hlast;
      [|apply last_None in Hlast; discriminate].
    destruct reply as [[result|]|error1|]; reflexivity.
Qed.

(** The requests behind the replies the Gemini loop hears. *)
Lemma gemini_heard_trace (params : ProviderGenerateParams) (models : list string)
    (m : Machine World) :
  forall reply,
    last (heard geminiPassesOn (geminiReplies models params m)) = Some reply ->
    trace (snd reply) = trace m ++
      match GeminiAdapter.buildGenerationConfig params with
      | inr _ =>
          map (BackendRequest gemini)
              (take (length (heard geminiPassesOn (geminiReplies models params m))) models)
      | inl _ => []
      end /\
    fst reply <> Pending.
Proof.
  revert m. induction models as [|x models IH]; intros m reply; [discriminate|].
  cbn [geminiReplies heard].
  destruct (gemini_attempt_effect x params m) as (c & m' & Hatt & _ & Hpend & Hcfg).
  rewrite Hatt. cbn [snd].
  assert (Htr : trace m' = trace m ++
            match GeminiAdapter.buildGenerationConfig params with
            | inr _ => [BackendRequest gemini x]
            | inl _ => []
            end).
  { destruct (GeminiAdapter.buildGenerationConfig params).
    - destruct Hcfg as [-> _]. now rewrite app_nil_r.
    - now destruct Hcfg as [-> _]. }
  assert (Hstop : forall rest,
            trace m' = trace m ++
              match GeminiAdapter.buildGenerationConfig params with
              | inr _ => map (BackendRequest gemini) (take (length [(c, m')]) (x :: rest))
              | inl _ => []
              end).
  { intros rest. cbn [length take map]. rewrite take_0. exact Htr. }
  destruct (geminiPassesOn (c, m')).
  - destruct (heard geminiPassesOn (geminiReplies models params m')) as [|y l] eqn:Hl.
    + intros [= <-]. split; [apply Hstop | exact Hpend].
    + intros Hlast. destruct (IH m' reply) as [Hrest Hp]; [rewrite Hl; exact Hlast|].
      split; [|exact Hp]. rewrite Hrest, Hl, Htr, <- app_assoc. cbn [length take map].
      now destruct (GeminiAdapter.buildGenerationConfig params).
  - intros [= <-]. split; [apply Hstop | exact Hpend].
Qed.

(** C5 (amended).  In every [generate] call of the Claude adapter the models
    requested are consecutive entries of MODEL_CASCADE, in its order, from
    the position of the starting model; none is requested twice; the loop
    passes on to the next entry after each reply but the last, which are
    errors Retryable for it, and the call ends with the last reply,
    unchanged: an error it throws is Fatal or comes from the last entry of
    the list.  In every [generate] call of the Gemini adapter the models
    requested are a prefix of the list [buildModelList] gives: the model
    asked for first, when it is one of MODEL_CASCADE, and then the others
    in the order of MODEL_CASCADE, three models without repetition; the
    loop passes on after each reply but the last, which are errors
    Retryable for it or answers without text, and stops before the end of
    the list only at a reply that is neither; the call returns the answer
    of the last model requested, or throws the "Gemini API error" made of
    the error that model threw and that is not Retryable, or, having gone
    through the whole list, throws the error that all models failed, made
    of the error thrown last.  Neither loop stays pending. *)
Theorem cascade_only_advances (params : ProviderGenerateParams) (m : Machine World) :
  (exists i n m1,
     ClaudeAdapter.MODEL_CASCADE !! i = Some (ClaudeAdapter.startModel params) /\
     i + n < length ClaudeAdapter.MODEL_CASCADE /\
     let tried := take (S n) (drop i ClaudeAdapter.MODEL_CASCADE) in
     let replies :=
       heard claudePassesOn
         (claudeReplies (drop i ClaudeAdapter.MODEL_CASCADE) params m) in
     NoDup tried /\
     trace (snd (ClaudeAdapter.generate params m)) =
       trace m ++ map (BackendRequest claude) tried /\
     ClaudeAdapter.generate params m =
       ClaudeAdapter.callClaude (prompt params) (nth n tried "") params m1 /\
     length replies = S n /\
     (forall k reply, S k < length replies -> replies !! k = Some reply ->
                      claudePassesOn reply = true) /\
     last replies = Some (ClaudeAdapter.generate params m) /\
     match fst (ClaudeAdapter.generate params m) with
     | Returned _ => True
     | Threw e => ClaudeAdapter.isRetryableError e = false \/
                  i + S n = length ClaudeAdapter.MODEL_CASCADE
     | Pending => False
     end) /\
  (let models := GeminiAdapter.buildModelList (model params) in
   let replies := heard geminiPassesOn (geminiReplies models params m) in
   models =
     (if GeminiAdapter.isValidModel (model params)
      then default "" (model params) ::
           filter (fun candidate => negb (String.eqb candidate (default "" (model params))))
                  GeminiAdapter.MODEL_CASCADE
      else GeminiAdapter.MODEL_CASCADE) /\
   NoDup models /\
   length models = 3 /\
   1 <= length replies <= length models /\
   (forall k reply, S k < length replies -> replies !! k = Some reply ->
                    geminiPassesOn reply = true) /\
   (length replies < length models ->
    exists reply, last replies = Some reply /\ geminiPassesOn reply = false) /\
   trace (snd (GeminiAdapter.generate params m)) =
     trace m ++
     match GeminiAdapter.buildGenerationConfig params with
     | inr _ => map (BackendRequest gemini) (take (length replies) models)
     | inl _ => []
     end /\
   GeminiAdapter.generate params m =
     match last replies with
     | None => (Threw (GeminiAdapter.allFailed ThrownNothing), m)
     | Some (reply, m') =>
         (match reply with
          | Returned (Some result) => Returned result
          | Returned None =>
              Threw (GeminiAdapter.allFailed (lastThrown ThrownNothing replies))
          | Threw error =>
              if GeminiAdapter.isRetryableError error
              then Threw (GeminiAdapter.allFailed error)
              else Threw (GeminiAdapter.apiError error)
          | Pending => Pending
          end, m')
     end /\
   fst (GeminiAdapter.generate params m) <> Pending).
Proof.
  split.
  - destruct (claude_startModel_listed params) as [i Hi].
    destruct (claude_cascade_walk params (length ClaudeAdapter.MODEL_CASCADE) i _ m Hi
                ltac:(lia)) as (n & m1 & Hn & Htr & _ & Hrun & Hout).
    exists i, n, m1. cbv zeta. split; [exact Hi|]. split; [exact Hn|].
    assert (Hnth : nth n (take (S n) (drop i ClaudeAdapter.MODEL_CASCADE)) "" =
                   nth (i + n) ClaudeAdapter.MODEL_CASCADE "").
    { rewrite !nth_lookup, lookup_take_lt, lookup_drop by lia. reflexivity. }
    assert (Htrace : trace (snd (ClaudeAdapter.generate params m)) =
              trace m ++ map (BackendRequest claude)
                           (take (S n) (drop i ClaudeAdapter.MODEL_CASCADE))).
    { unfold ClaudeAdapter.generate. rewrite Hrun.
      destruct (callClaude_effect (prompt params)
                  (nth (i + n) ClaudeAdapter.MODEL_CASCADE "") params m1)
        as (c & m' & -> & Htr' & _). simpl. rewrite Htr', Htr, <- app_assoc. f_equal.
      assert (Hl : drop i ClaudeAdapter.MODEL_CASCADE !! n =
                   Some (nth (i + n) ClaudeAdapter.MODEL_CASCADE "")).
      { rewrite lookup_drop.
        destruct (nth_lookup_or_length ClaudeAdapter.MODEL_CASCADE (i + n) "");
          [assumption | lia]. }
      now rewrite (take_S_r _ _ _ Hl), map_app. }
    pose proof (claude_cascade_heard params (length ClaudeAdapter.MODEL_CASCADE) i _ m Hi
                  ltac:(lia)) as Hlast.
    fold (ClaudeAdapter.generate params m) in Hlast.
    assert (Hlen : length (heard claudePassesOn
                     (claudeReplies (drop i ClaudeAdapter.MODEL_CASCADE) params m)) = S n).
    { pose proof (claude_heard_trace params (drop i ClaudeAdapter.MODEL_CASCADE) m _ Hlast)
        as Htr2.
      rewrite Htrace in Htr2. apply app_inv_head in Htr2.
      apply (f_equal (@length _)) in Htr2. rewrite !length_map, !length_take in Htr2.
      pose proof (heard_length claudePassesOn
                    (claudeReplies (drop i ClaudeAdapter.MODEL_CASCADE) params m)) as Hle.
      rewrite claudeReplies_length in Hle. rewrite length_drop in Htr2, Hle. lia. }
    repeat split.
    + apply (sublist_NoDup _ ClaudeAdapter.MODEL_CASCADE); [exact claude_models_distinct|].
      etransitivity; [apply sublist_take | apply sublist_drop].
    + exact Htrace.
    + rewrite Hnth. exact Hrun.
    + exact Hlen.
    + intros k reply. apply heard_passes.
    + exact Hlast.
    + exact Hout.
  - cbv zeta.
    set (models := GeminiAdapter.buildModelList (model params)).
    pose proof (tryModels_heard params models ThrownNothing m) as Hrun. cbv zeta in Hrun.
    change (GeminiAdapter.tryModels models ThrownNothing params m)
      with (GeminiAdapter.generate params m) in Hrun.
    pose proof (heard_length geminiPassesOn (geminiReplies models params m)) as Hle.
    rewrite geminiReplies_length in Hle.
    pose proof (buildModelList_length (model params)) as H3. fold models in H3.
    assert (Hsome : 1 <= length (heard geminiPassesOn (geminiReplies models params m))).
    { destruct models as [|x rest]; [discriminate|]. cbn [geminiReplies heard length]. lia. }
    split.
    { subst models. unfold GeminiAdapter.buildModelList.
      destruct (model params) as [p|]; reflexivity. }
    split; [apply gemini_models_distinct|]. split; [exact H3|]. split; [lia|].
    split; [intros k reply; apply heard_passes|].
    split. { intros Hlt. apply heard_stops. now rewrite geminiReplies_length. }
    destruct (last (heard geminiPassesOn (geminiReplies models params m)))
      as [[reply m']|] eqn:Hlast.
    + destruct (gemini_heard_trace params models m _ Hlast) as [Htr Hpend].
      cbn [fst snd] in Htr, Hpend. rewrite Hrun. cbn [fst snd].
      split; [exact Htr|]. split; [reflexivity|].
      destruct reply as [[result|]|error|]; try discriminate; [|congruence].
      destruct (GeminiAdapter.isRetryableError error); discriminate.
    + apply last_None in Hlast. rewrite Hlast in Hsome. cbn [length] in Hsome. lia.
Qed.

End WithBackends.
End CascadeFacts.

(** ** The fallback orchestrator *)
Module OrchestratorFacts.
Import Js Providers Registry Trace JsFacts RegistryFacts CascadeFacts.
Local Open Scope list_scope.

Lemma adapterCalls_app (t u : list Event) :
  adapterCalls (t ++ u) = adapterCalls t ++ adapterCalls u.
Proof.
  induction t as [|[k p|k model] t IH]; simpl; [reflexivity | now rewrite IH | exact IH].
Qed.

Lemma backendRequests_app (t u : list Event) :
  backendRequests (t ++ u) = backendRequests t ++ backendRequests u.
Proof.
  induction t as [|[k p|k model] t IH]; simpl; [reflexivity | exact IH | now rewrite IH].
Qed.

Lemma adapterCalls_requests (k : ProviderKey) (models : list string) :
  adapterCalls (map (BackendRequest k) models) = [].
Proof. induction models; simpl; auto. Qed.

Lemma backendRequests_requests (k : ProviderKey) (models : list string) :
  backendRequests (map (BackendRequest k) models) = map (pair k) models.
Proof. induction models; simpl; congruence. Qed.

Section WithBackends.
Context {World : Type} {backends : Backends World}.

(** An invocation of an adapter records itself once, followed by nothing
    but requests to its own backend. *)
Lemma adapterGenerate_trace (key : ProviderKey) (params : ProviderGenerateParams)
    (m : Machine World) :
  exists models,
    trace (snd (adapterGenerate key params m)) =
      trace m ++ AdapterGenerate key params :: map (BackendRequest key) models.
Proof.
  unfold adapterGenerate, bind at 1, emit. simpl.
  set (m0 := Build_Machine (world m) (providerCache m) (trace m ++ [AdapterGenerate key params])).
  destruct key.
  - exists []. unfold bind, request, settle. simpl.
    destruct (grokGenerate params (world m)) as [c w]. simpl.
    destruct c; reflexivity.
  - destruct (gemini_walk params (GeminiAdapter.buildModelList (model params)) ThrownNothing m0)
      as (n & c & m1 & Hrun & _ & _ & Htr & _).
    unfold GeminiAdapter.generate. rewrite Hrun. simpl. rewrite Htr. subst m0. simpl.
    rewrite <- app_assoc. simpl.
    destruct (GeminiAdapter.buildGenerationConfig params); [now exists [] | eauto].
  - destruct (claude_generate_trace params m0) as [models Htr].
    rewrite Htr. subst m0. simpl. rewrite <- app_assoc. simpl. eauto.
Qed.

Lemma adapterGenerate_calls (key : ProviderKey) (params : ProviderGenerateParams)
    (m : Machine World) :
  adapterCalls (trace (snd (adapterGenerate key params m))) =
    adapterCalls (trace m) ++ [(key, params)].
Proof.
  destruct (adapterGenerate_trace key params m) as [models ->].
  rewrite adapterCalls_app. simpl. now rewrite adapterCalls_requests.
Qed.

(** The orchestrator after its primary adapter has thrown. *)
Lemma generateStructuredContent_unfold (provider : option string)
    (rest : ProviderGenerateParams) (env : Env) (m m1 m2 : Machine World)
    (error : Thrown) :
  getProvider provider env m = (Returned (resolveProviderKey provider env), m1) ->
  adapterGenerate (resolveProviderKey provider env) rest m1 = (Threw error, m2) ->
  generateStructuredContent provider rest env m =
    if Registry.isRetryableError error then
      match getFallbackProvider (resolveProviderKey provider env) env with
      | Some fallbackKey =>
          tryCatch
            (bind (ensureProvider fallbackKey env)
                  (fun fallbackAdapter => adapterGenerate fallbackAdapter rest))
            (fun _ => throw error) m2
      | None => (Threw error, m2)
      end
    else (Threw error, m2).
Proof.
  intros Hget Hgen. unfold generateStructuredContent, bind at 1. rewrite Hget.
  unfold tryCatch at 1. rewrite Hgen.
  destruct (Registry.isRetryableError error); [|reflexivity].
  now destruct (getFallbackProvider _ env).
Qed.

(** C1.  When the primary adapter's [generate] throws an error that the
    orchestrator classifies Retryable and [getFallbackProvider] names
    another configured provider, the orchestrator obtains that provider's
    adapter and invokes its [generate] once, with the same parameters: the
    adapters invoked in the whole call are the primary one and then the
    fallback one.  The call returns what the fallback returns; if the
    fallback throws, the call throws the primary adapter's error. *)
Theorem fallback_once_then_original (provider : option string)
    (rest : ProviderGenerateParams) (env : Env) (m m1 m2 : Machine World)
    (error : Thrown) (fallbackKey : ProviderKey) :
  let primaryKey := resolveProviderKey provider env in
  getProvider provider env m = (Returned primaryKey, m1) ->
  adapterGenerate primaryKey rest m1 = (Threw error, m2) ->
  Registry.isRetryableError error = true ->
  getFallbackProvider primaryKey env = Some fallbackKey ->
  exists m3 outcome m4,
    fallbackKey <> primaryKey /\
    ensureProvider fallbackKey env m2 = (Returned fallbackKey, m3) /\
    adapterGenerate fallbackKey rest m3 = (outcome, m4) /\
    generateStructuredContent provider rest env m =
      (match outcome with Threw _ => Threw error | other => other end, m4) /\
    adapterCalls (trace m4) =
      adapterCalls (trace m) ++ [(primaryKey, rest); (fallbackKey, rest)].
Proof.
  intros primaryKey Hget Hgen Hretry Hfb.
  pose proof (getFallbackProvider_sound _ _ _ Hfb) as [Hne Hset].
  destruct (ensureProvider_configured fallbackKey env m2 Hset) as (m3 & Hens & _ & Htr3).
  destruct (adapterGenerate fallbackKey rest m3) as [outcome m4] eqn:Hfall.
  exists m3, outcome, m4. repeat split; try assumption.
  - rewrite (generateStructuredContent_unfold _ _ _ _ _ _ _ Hget Hgen).
    fold primaryKey. rewrite Hretry, Hfb.
    unfold tryCatch, bind. rewrite Hens, Hfall. now destruct outcome.
  - pose proof (adapterGenerate_calls fallbackKey rest m3) as Hc4.
    pose proof (adapterGenerate_calls primaryKey rest m1) as Hc2.
    rewrite Hfall in Hc4. rewrite Hgen in Hc2. simpl in Hc4, Hc2.
    rewrite Hc4, Htr3, Hc2, <- app_assoc.
    unfold getProvider in Hget. fold primaryKey in Hget.
    assert (Htr1 : trace m1 = trace m).
    { unfold ensureProvider in Hget.
      destruct (providerCache m primaryKey); [now injection Hget as <-|].
      destruct (negb _); [discriminate|].
      destruct (providerFactories primaryKey env); [discriminate|].
      now injection Hget as <-. }
    now rewrite Htr1.
Qed.

End WithBackends.
End OrchestratorFacts.

(** ** Fatal errors and deadlines *)
Module FatalFacts.
Import Js Providers Registry Trace CascadeReplies JsFacts RegistryFacts CascadeFacts
  OrchestratorFacts.
Local Open Scope list_scope.

Section WithBackends.
Context {World : Type} {backends : Backends World}.

Lemma claude_fatal_single (params : ProviderGenerateParams) (m m' : Machine World)
    (e : Thrown) :
  ClaudeAdapter.callClaude (prompt params) (ClaudeAdapter.startModel params) params m
    = (Threw e, m') ->
  ClaudeAdapter.isRetryableError e = false ->
  ClaudeAdapter.generate params m = (Threw e, m') /\
  trace m' = trace m ++ [BackendRequest claude (ClaudeAdapter.startModel params)].
Proof.
  intros Hcall Hfatal. split.
  - unfold ClaudeAdapter.generate. simpl. unfold tryCatch. now rewrite Hcall, Hfatal.
  - destruct (callClaude_effect (prompt params) (ClaudeAdapter.startModel params) params m)
      as (c & m1 & Hc & Htr & _). congruence.
Qed.

Lemma gemini_fatal_single (params : ProviderGenerateParams) (m m' : Machine World)
    (e : Thrown) (first : string) (others : list string) :
  GeminiAdapter.buildModelList (model params) = first :: others ->
  GeminiAdapter.attempt first params m = (Threw e, m') ->
  GeminiAdapter.isRetryableError e = false ->
  GeminiAdapter.generate params m = (Threw (GeminiAdapter.apiError e), m') /\
  backendRequests (trace m') =
    backendRequests (trace m) ++
    match GeminiAdapter.buildGenerationConfig params with
    | inr _ => [(gemini, first)]
    | inl _ => []
    end.
Proof.
  intros Hlist Hatt Hfatal. split.
  - unfold GeminiAdapter.generate. rewrite Hlist.
    cbn [GeminiAdapter.tryModels]. now rewrite Hatt, Hfatal.
  - destruct (gemini_attempt_effect first params m) as (c & m1 & Hc & _ & _ & Hcfg).
    rewrite Hatt in Hc. injection Hc as <- <-.
    destruct (GeminiAdapter.buildGenerationConfig params).
    + destruct Hcfg as [-> _]. now rewrite app_nil_r.
    + destruct Hcfg as [-> _]. now rewrite backendRequests_app.
Qed.

Lemma orchestrator_fatal_single (provider : option string)
    (rest : ProviderGenerateParams) (env : Env) (m m1 m2 : Machine World) (e : Thrown) :
  getProvider provider env m = (Returned (resolveProviderKey provider env), m1) ->
  adapterGenerate (resolveProviderKey provider env) rest m1 = (Threw e, m2) ->
  Registry.isRetryableError e = false ->
  generateStructuredContent provider rest env m = (Threw e, m2) /\
  adapterCalls (trace m2) =
    adapterCalls (trace m1) ++ [(resolveProviderKey provider env, rest)].
Proof.
  intros Hget Hgen Hfatal. split.
  - now rewrite (generateStructuredContent_unfold _ _ _ _ _ _ _ Hget Hgen), Hfatal.
  - pose proof (adapterGenerate_calls (resolveProviderKey provider env) rest m1) as Hc.
    now rewrite Hgen in Hc.
Qed.

(** A reply the loop does not pass on from is the last one it hears. *)
Lemma heard_ends {A : Type} (passesOn : A -> bool) (replies : list A) (k : nat) (reply : A) :
  heard passesOn replies !! k = Some reply -> passesOn reply = false ->
  S k = length (heard passesOn replies) /\ last (heard passesOn replies) = Some reply.
Proof.
  intros Hk Hstop. pose proof (lookup_lt_Some _ _ _ Hk) as Hlt.
  assert (Hlen : S k = length (heard passesOn replies)).
  { destruct (Nat.lt_ge_cases (S k) (length (heard passesOn replies))) as [Hmore|]; [|lia].
    rewrite (heard_passes passesOn replies k reply Hmore Hk) in Hstop. discriminate. }
  split; [exact Hlen|]. rewrite last_lookup, <- Hlen. exact Hk.
Qed.

Lemma claude_fatal_anywhere (params : ProviderGenerateParams) (m : Machine World)
    (i k : nat) (reply : Completion ProviderGenerateResult * Machine World) (e : Thrown) :
  ClaudeAdapter.MODEL_CASCADE !! i = Some (ClaudeAdapter.startModel params) ->
  heard claudePassesOn
    (claudeReplies (drop i ClaudeAdapter.MODEL_CASCADE) params m) !! k = Some reply ->
  fst reply = Threw e ->
  ClaudeAdapter.isRetryableError e = false ->
  S k = length (heard claudePassesOn
                  (claudeReplies (drop i ClaudeAdapter.MODEL_CASCADE) params m)) /\
  ClaudeAdapter.generate params m = reply.
Proof.
  intros Hi Hk He Hfatal.
  destruct (heard_ends claudePassesOn _ k reply Hk) as [Hlen Hlast].
  { unfold claudePassesOn. now rewrite He. }
  split; [exact Hlen|].
  pose proof (claude_cascade_heard params (length ClaudeAdapter.MODEL_CASCADE) i _ m Hi
                ltac:(lia)) as Hrun.
  rewrite Hlast in Hrun. now injection Hrun as ->.
Qed.

Lemma gemini_fatal_anywhere (params : ProviderGenerateParams) (m : Machine World)
    (k : nat) (reply : Completion (option ProviderGenerateResult) * Machine World)
    (e : Thrown) :
  heard geminiPassesOn
    (geminiReplies (GeminiAdapter.buildModelList (model params)) params m) !! k
    = Some reply ->
  fst reply = Threw e ->
  GeminiAdapter.isRetryableError e = false ->
  S k = length (heard geminiPassesOn
                  (geminiReplies (GeminiAdapter.buildModelList (model params)) params m)) /\
  GeminiAdapter.generate params m = (Threw (GeminiAdapter.apiError e), snd reply).
Proof.
  intros Hk He Hfatal.
  destruct (heard_ends geminiPassesOn _ k reply Hk) as [Hlen Hlast].
  { unfold geminiPassesOn. now rewrite He, Hfatal. }
  split; [exact Hlen|].
  pose proof (tryModels_heard params (GeminiAdapter.buildModelList (model params))
                ThrownNothing m) as Hrun.
  cbv zeta in Hrun. rewrite Hlast in Hrun. destruct reply as [c m']. cbn [fst snd] in *.
  subst c. rewrite Hfatal in Hrun. exact Hrun.
Qed.

(** Obtaining an adapter leaves the trace as it is. *)
Lemma getProvider_trace (provider : option string) (env : Env) (m m1 : Machine World)
    (c : Completion ProviderKey) :
  getProvider provider env m = (c, m1) -> trace m1 = trace m.
Proof.
  unfold getProvider, ensureProvider.
  destruct (providerCache m _); [now intros [= _ <-]|].
  destruct (negb _); [now intros [= _ <-]|].
  destruct (providerFactories _ env); now intros [= _ <-].
Qed.

(** C6 (amended).  An error that a layer classifies Fatal ends the call at that
    layer, without a further attempt.  The Claude executor, whose first
    request throws an error Fatal for it, throws that error having sent
    this one request.  The Gemini executor, whose first attempt throws an
    error Fatal for it, throws its "Gemini API error" for the cause, having
    sent that one request, or none when the attempt failed on the schema
    before a request was made.  The orchestrator, whose primary adapter
    throws an error Fatal for it, throws that error having invoked no other
    adapter.  With claude or gemini as the primary provider, a first
    attempt that fails with an error Fatal for the executor, and an error
    thrown by the adapter that is Fatal for the orchestrator too, the whole
    call consists of one adapter invocation with that one attempt, and
    throws.  At whatever place of its list an executor hears an error Fatal
    for it, that reply is the last it hears: the Claude executor ends with
    it, the Gemini executor with its "Gemini API error" for it. *)
Theorem fatal_error_single_attempt :
  (forall (params : ProviderGenerateParams) (m m' : Machine World) (e : Thrown),
     ClaudeAdapter.callClaude (prompt params) (ClaudeAdapter.startModel params) params m
       = (Threw e, m') ->
     ClaudeAdapter.isRetryableError e = false ->
     ClaudeAdapter.generate params m = (Threw e, m') /\
     trace m' = trace m ++ [BackendRequest claude (ClaudeAdapter.startModel params)]) /\
  (forall (params : ProviderGenerateParams) (m m' : Machine World) (e : Thrown)
          (first : string) (others : list string),
     GeminiAdapter.buildModelList (model params) = first :: others ->
     GeminiAdapter.attempt first params m = (Threw e, m') ->
     GeminiAdapter.isRetryableError e = false ->
     GeminiAdapter.generate params m = (Threw (GeminiAdapter.apiError e), m') /\
     backendRequests (trace m') =
       backendRequests (trace m) ++
       match GeminiAdapter.buildGenerationConfig params with
       | inr _ => [(gemini, first)]
       | inl _ => []
       end) /\
  (forall (provider : option string) (rest : ProviderGenerateParams) (env : Env)
          (m m1 m2 : Machine World) (e : Thrown),
     getProvider provider env m = (Returned (resolveProviderKey provider env), m1) ->
     adapterGenerate (resolveProviderKey provider env) rest m1 = (Threw e, m2) ->
     Registry.isRetryableError e = false ->
     generateStructuredContent provider rest env m = (Threw e, m2) /\
     adapterCalls (trace m2) =
       adapterCalls (trace m1) ++ [(resolveProviderKey provider env, rest)]) /\
  (forall (provider : option string) (rest : ProviderGenerateParams) (env : Env)
          (m m1 m2 : Machine World) (e : Thrown),
     resolveProviderKey provider env = claude ->
     getProvider provider env m = (Returned claude, m1) ->
     ClaudeAdapter.callClaude (prompt rest) (ClaudeAdapter.startModel rest) rest
       (Build_Machine (world m1) (providerCache m1)
          (trace m1 ++ [AdapterGenerate claude rest])) = (Threw e, m2) ->
     ClaudeAdapter.isRetryableError e = false ->
     Registry.isRetryableError e = false ->
     generateStructuredContent provider rest env m = (Threw e, m2) /\
     trace m2 = trace m ++ [AdapterGenerate claude rest;
                            BackendRequest claude (ClaudeAdapter.startModel rest)]) /\
  (forall (provider : option string) (rest : ProviderGenerateParams) (env : Env)
          (m m1 m2 : Machine World) (e : Thrown) (first : string) (others : list string),
     resolveProviderKey provider env = gemini ->
     getProvider provider env m = (Returned gemini, m1) ->
     GeminiAdapter.buildModelList (model rest) = first :: others ->
     GeminiAdapter.attempt first rest
       (Build_Machine (world m1) (providerCache m1)
          (trace m1 ++ [AdapterGenerate gemini rest])) = (Threw e, m2) ->
     GeminiAdapter.isRetryableError e = false ->
     Registry.isRetryableError (GeminiAdapter.apiError e) = false ->
     generateStructuredContent provider rest env m =
       (Threw (GeminiAdapter.apiError e), m2) /\
     trace m2 = trace m ++
       AdapterGenerate gemini rest ::
       match GeminiAdapter.buildGenerationConfig rest with
       | inr _ => [BackendRequest gemini first]
       | inl _ => []
       end) /\
  (forall (params : ProviderGenerateParams) (m : Machine World) (i k : nat)
          (reply : Completion ProviderGenerateResult * Machine World) (e : Thrown),
     ClaudeAdapter.MODEL_CASCADE !! i = Some (ClaudeAdapter.startModel params) ->
     heard claudePassesOn
       (claudeReplies (drop i ClaudeAdapter.MODEL_CASCADE) params m) !! k = Some reply ->
     fst reply = Threw e ->
     ClaudeAdapter.isRetryableError e = false ->
     S k = length (heard claudePassesOn
                     (claudeReplies (drop i ClaudeAdapter.MODEL_CASCADE) params m)) /\
     ClaudeAdapter.generate params m = reply) /\
  (forall (params : ProviderGenerateParams) (m : Machine World) (k : nat)
          (reply : Completion (option ProviderGenerateResult) * Machine World)
          (e : Thrown),
     heard geminiPassesOn
       (geminiReplies (GeminiAdapter.buildModelList (model params)) params m) !! k
       = Some reply ->
     fst reply = Threw e ->
     GeminiAdapter.isRetryableError e = false ->
     S k = length (heard geminiPassesOn
                     (geminiReplies (GeminiAdapter.buildModelList (model params))
                        params m)) /\
     GeminiAdapter.generate params m = (Threw (GeminiAdapter.apiError e), snd reply)).
Proof.
  split; [exact claude_fatal_single|]. split; [exact gemini_fatal_single|].
  split; [exact orchestrator_fatal_single|].
  split; [|split; [|split; [exact claude_fatal_anywhere | exact gemini_fatal_anywhere]]].
  - intros provider rest env m m1 m2 e Hkey Hget Hcall Hfatal1 Hfatal2.
    destruct (claude_fatal_single rest _ _ e Hcall Hfatal1) as [Hgen Htr].
    assert (Hadapter : adapterGenerate claude rest m1 = (Threw e, m2)).
    { unfold adapterGenerate, bind, emit. simpl. exact Hgen. }
    pose proof (getProvider_trace _ _ _ _ _ Hget) as Htr1.
    rewrite <- Hkey in Hget, Hadapter.
    destruct (orchestrator_fatal_single provider rest env m m1 m2 e Hget Hadapter Hfatal2)
      as [Hrun _].
    split; [exact Hrun|].
    rewrite Htr. simpl. rewrite <- app_assoc, Htr1. reflexivity.
  - intros provider rest env m m1 m2 e first others Hkey Hget Hlist Hatt Hfatal1 Hfatal2.
    destruct (gemini_fatal_single rest _ _ e first others Hlist Hatt Hfatal1) as [Hgen _].
    assert (Hadapter : adapterGenerate gemini rest m1 =
                       (Threw (GeminiAdapter.apiError e), m2)).
    { unfold adapterGenerate, bind, emit. simpl. exact Hgen. }
    pose proof (getProvider_trace _ _ _ _ _ Hget) as Htr1.
    rewrite <- Hkey in Hget, Hadapter.
    destruct (orchestrator_fatal_single provider rest env m m1 m2 _ Hget Hadapter Hfatal2)
      as [Hrun _].
    split; [exact Hrun|].
    destruct (gemini_attempt_effect first rest
                (Build_Machine (world m1) (providerCache m1)
                   (trace m1 ++ [AdapterGenerate gemini rest])))
      as (c & m' & Hc & _ & _ & Hcfg).
    rewrite Hatt in Hc. injection Hc as <- <-.
    destruct (GeminiAdapter.buildGenerationConfig rest).
    + destruct Hcfg as [-> _]. cbn [trace]. now rewrite Htr1.
    + destruct Hcfg as [-> _]. cbn [trace]. rewrite <- app_assoc, Htr1. reflexivity.
Qed.

End WithBackends.
End FatalFacts.

(** ** Concrete calls *)
Module ProviderExamples.
Import Js Providers Registry Trace.
Local Open Scope list_scope.

(** With gemini selected and no XAI key, an overloaded Gemini backend
    makes the orchestrator fall back to claude, once, and return its
    answer. *)
Lemma fallback_once_then_original_witness :
  let B := Scenario.geminiOverloaded in
  let env := Scenario.env None (Some "gemini-key") None in
  let rest := Scenario.ask "Summarise" None in
  let m1 := snd (getProvider (Some "gemini") env Scenario.start) in
  let m2 := snd (adapterGenerate (backends := B) gemini rest m1) in
  let error := GeminiAdapter.allFailed
                 (ThrownError "503 Service Unavailable" (FNum 503) FAbsent) in
  exists m3 outcome m4,
    claude <> resolveProviderKey (Some "gemini") env /\
    ensureProvider claude env m2 = (Returned claude, m3) /\
    adapterGenerate (backends := B) claude rest m3 = (outcome, m4) /\
    generateStructuredContent (backends := B) (Some "gemini") rest env Scenario.start
      = (match outcome with Threw _ => Threw error | other => other end, m4) /\
    adapterCalls (trace m4) =
      adapterCalls (trace Scenario.start) ++
        [(resolveProviderKey (Some "gemini") env, rest); (claude, rest)].
Proof.
  cbv zeta.
  eapply (OrchestratorFacts.fallback_once_then_original (backends := Scenario.geminiOverloaded)
           (Some "gemini") (Scenario.ask "Summarise" None)
           (Scenario.env None (Some "gemini-key") None) Scenario.start);
    reflexivity.
Defined.

Example fallback_returns_claude :
  fst (generateStructuredContent (backends := Scenario.geminiOverloaded) (Some "gemini")
         (Scenario.ask "Summarise" None) (Scenario.env None (Some "gemini-key") None)
         Scenario.start)
  = Returned {| content := "from claude"; provider := "claude";
                usedModel := "claude-haiku-4-5-20251001" |}.
Proof. vm_compute. reflexivity. Qed.

(** Primary gemini overloaded, fallback grok failing: the error thrown is
    the one of gemini. *)
Example both_fail_original_error :
  let run := generateStructuredContent (backends := Scenario.bothFail) (Some "gemini")
               (Scenario.ask "Summarise" None)
               (Scenario.env (Some "xai-key") (Some "gemini-key") None) Scenario.start in
  fst run = Threw (GeminiAdapter.allFailed
                     (ThrownError "503 Service Unavailable" (FNum 503) FAbsent)) /\
  adapterCalls (trace (snd run)) =
    [(gemini, Scenario.ask "Summarise" None); (grok, Scenario.ask "Summarise" None)] /\
  backendRequests (trace (snd run)) =
    [(gemini, "gemini-2.5-flash-lite"); (gemini, "gemini-3-flash"); (gemini, "gemini-3-pro")].
Proof. vm_compute. repeat split. Qed.

(** The cascade of the Claude adapter moves from the first model to the
    second on an overload. *)
Example haiku_overloaded_sonnet_answers :
  let run := ClaudeAdapter.generate (backends := Scenario.haikuOverloaded)
               (Scenario.ask "Summarise" None) Scenario.start in
  fst run = Returned {| content := "from sonnet"; provider := "claude";
                        usedModel := "claude-sonnet-4-6" |} /\
  backendRequests (trace (snd run)) =
    [(claude, "claude-haiku-4-5-20251001"); (claude, "claude-sonnet-4-6")].
Proof. vm_compute. repeat split. Qed.

(** A rejected key, with claude and with gemini as the primary provider:
    one request, no cascade, no fallback. *)
Lemma fatal_error_single_attempt_witness :
  let B := Scenario.unauthorized in
  let env := Scenario.env (Some "xai-key") (Some "gemini-key") None in
  let rest := Scenario.ask "Summarise" None in
  let rejected := ThrownError "API key not valid" (FNum 401) FAbsent in
  (resolveProviderKey (Some "claude") env = claude /\
   ClaudeAdapter.isRetryableError (Error "401 unauthorized") = false /\
   Registry.isRetryableError (Error "401 unauthorized") = false /\
   exists m2,
     generateStructuredContent (backends := B) (Some "claude") rest env Scenario.start
       = (Threw (Error "401 unauthorized"), m2) /\
     trace m2 = trace Scenario.start ++
       [AdapterGenerate claude rest;
        BackendRequest claude (ClaudeAdapter.startModel rest)]) /\
  (resolveProviderKey (Some "gemini") env = gemini /\
   GeminiAdapter.isRetryableError rejected = false /\
   Registry.isRetryableError (GeminiAdapter.apiError rejected) = false /\
   exists m2,
     generateStructuredContent (backends := B) (Some "gemini") rest env Scenario.start
       = (Threw (GeminiAdapter.apiError rejected), m2) /\
     trace m2 = trace Scenario.start ++
       [AdapterGenerate gemini rest; BackendRequest gemini "gemini-2.5-flash-lite"]).
Proof.
  cbv zeta. split.
  - split; [reflexivity|]. split; [reflexivity|]. split; [reflexivity|].
    eexists.
    eapply (proj1 (proj2 (proj2 (proj2
              (FatalFacts.fatal_error_single_attempt (backends := Scenario.unauthorized)))))
              (Some "claude") (Scenario.ask "Summarise" None)
              (Scenario.env (Some "xai-key") (Some "gemini-key") None) Scenario.start);
      reflexivity.
  - split; [reflexivity|]. split; [reflexivity|]. split; [reflexivity|].
    eexists.
    eapply (proj1 (proj2 (proj2 (proj2 (proj2
              (FatalFacts.fatal_error_single_attempt (backends := Scenario.unauthorized))))))
              (Some "gemini") (Scenario.ask "Summarise" None)
              (Scenario.env (Some "xai-key") (Some "gemini-key") None) Scenario.start
              _ _ (ThrownError "API key not valid" (FNum 401) FAbsent)
              "gemini-2.5-flash-lite" ["gemini-3-flash"; "gemini-3-pro"]);
      reflexivity.
Defined.

(** An environment with no key at all still offers claude. *)
Lemma claude_always_configured_witness :
  let env := Scenario.env None None None in
  set (ANTHROPIC_API_KEY env) = false /\
  providerEnvGuards claude env = Some "local-claude-code" /\
  availableProviders env = [claude] /\
  getFallbackProvider grok env = Some claude /\
  getFallbackProvider gemini env = Some claude /\
  getFallbackProvider claude env = None.
Proof.
  cbv zeta. split; [reflexivity|]. split.
  - apply (proj1 (proj2 (RegistryFacts.claude_always_configured (World := nat)
                           (Scenario.env None None None)))). reflexivity.
  - repeat split.
Defined.

(** C4 at the failing call.  claude is the primary provider, grok is
    configured, and the deadline of the Claude request expires: the adapter
    throws "Claude request timed out." after its single request, an error
    that neither the Claude executor nor the orchestrator classifies
    Retryable, so the orchestrator rethrows it and invokes no fallback.
    The timeout of the Gemini adapter, "Request timeout", is Retryable for
    the orchestrator. *)
Theorem claude_timeout_gets_no_fallback :
  let env := Scenario.env (Some "xai-key") (Some "gemini-key") None in
  let rest := Scenario.ask "Summarise" None in
  let run := generateStructuredContent (backends := Scenario.claudeTimesOut)
               (Some "claude") rest env Scenario.start in
  fst run = Threw (Error "Claude request timed out.") /\
  trace (snd run) =
    [AdapterGenerate claude rest; BackendRequest claude "claude-haiku-4-5-20251001"] /\
  getFallbackProvider claude env = Some grok /\
  ClaudeAdapter.isRetryableError (Error "Claude request timed out.") = false /\
  Registry.isRetryableError (Error "Claude request timed out.") = false /\
  GeminiAdapter.isRetryableError (Error "Request timeout") = false /\
  Registry.isRetryableError (GeminiAdapter.apiError (Error "Request timeout")) = true.
Proof. vm_compute. repeat split. Qed.

(** C5 as stated fails: the Gemini adapter, asked for its third model and
    finding every model overloaded, asks the third entry of its list, then
    the first, then the second, and throws an error of its own making. *)
Lemma gemini_cascade_starts_at_requested_model :
  let run := GeminiAdapter.generate (backends := Scenario.geminiOverloaded)
               (Scenario.ask "Summarise" (Some "gemini-3-pro")) Scenario.start in
  GeminiAdapter.MODEL_CASCADE =
    ["gemini-2.5-flash-lite"; "gemini-3-flash"; "gemini-3-pro"] /\
  backendRequests (trace (snd run)) =
    [(gemini, "gemini-3-pro"); (gemini, "gemini-2.5-flash-lite");
     (gemini, "gemini-3-flash")] /\
  fst run = Threw (Error
    "All Gemini models failed. Last error type: overloaded. 503 Service Unavailable") /\
  fst run <> Threw (ThrownError "503 Service Unavailable" (FNum 503) FAbsent).
Proof. vm_compute. repeat split. discriminate. Qed.

(** C6 as stated fails, on two calls with gemini as the primary provider
    and an error Fatal for the Gemini executor.  When the deadline of the request expires, the
    executor stops after its one request, yet the orchestrator classifies
    the error it is given Retryable and asks claude: two backends are
    asked.  When the schema of the call does not convert, the error is
    Fatal for both layers and no backend is asked at all. *)
Lemma fatal_is_relative_to_the_layer :
  let env := Scenario.env None (Some "gemini-key") None in
  let timedOut := generateStructuredContent (backends := QuietBackends.geminiTimesOut)
                    (Some "gemini") (Scenario.ask "Summarise" None) env Scenario.start in
  let rest := QuietBackends.askWithSchema "Summarise" (inl (Error "Unsupported type")) in
  let unconverted := generateStructuredContent (backends := Scenario.geminiOverloaded)
                       (Some "gemini") rest env Scenario.start in
  (GeminiAdapter.isRetryableError (Error "Request timeout") = false /\
   backendRequests (trace (snd timedOut)) =
     [(gemini, "gemini-2.5-flash-lite"); (claude, "claude-haiku-4-5-20251001")] /\
   adapterCalls (trace (snd timedOut)) =
     [(gemini, Scenario.ask "Summarise" None); (claude, Scenario.ask "Summarise" None)] /\
   fst timedOut = Returned {| content := "from claude"; provider := "claude";
                              usedModel := "claude-haiku-4-5-20251001" |}) /\
  (GeminiAdapter.buildGenerationConfig rest =
     inl (Error "Failed to convert schema: Unsupported type") /\
   GeminiAdapter.isRetryableError (Error "Failed to convert schema: Unsupported type")
     = false /\
   Registry.isRetryableError
     (GeminiAdapter.apiError (Error "Failed to convert schema: Unsupported type")) = false /\
   backendRequests (trace (snd unconverted)) = [] /\
   adapterCalls (trace (snd unconverted)) = [(gemini, rest)] /\
   fst unconverted = Threw (Error
     "Gemini API error (unknown error): Failed to convert schema: Unsupported type")).
Proof. vm_compute. repeat split. Qed.

End ProviderExamples.

(** ** Schema conversion *)
Module SchemaFacts.
Import Js Schema Providers.
Local Open Scope list_scope.

(** Pairing the alternatives with their conversions before the filter
    selects the conversions of the alternatives that are not null. *)
Lemma paired_filter {A B : Type} (keep : A -> bool) (f : A -> B) (l : list A) :
  map snd (filter (fun xc => keep (fst xc)) (map (fun x => (x, f x)) l)) =
  map f (filter (fun x => keep x) l).
Proof.
  induction l as [|x l IH]; [reflexivity|].
  cbn [map]. rewrite !filter_cons. cbn [fst].
  destruct (keep x); simpl; [now rewrite IH | exact IH].
Qed.

Lemma convertUnion_spec (schemas : list JsonSchema) (byType : GeminiSchema) :
  convertUnion (map (fun x => (x, convertToGeminiSchema x)) schemas) byType =
  match nonNullSchemas schemas with
  | [one] => setNullable (convertToGeminiSchema one)
  | first :: _ => convertToGeminiSchema first
  | [] => byType
  end.
Proof.
  unfold convertUnion, nonNullSchemas.
  rewrite (paired_filter (fun x => negb (typeIs x "null"))).
  now destruct (filter _ schemas) as [|a [|b r]].
Qed.

(** A schema with alternatives converts as its first alternative that is
    not null. *)
Lemma convert_union (s : JsonSchema) (schemas : list JsonSchema)
    (first : JsonSchema) (others : list JsonSchema) :
  alternatives s = Some schemas ->
  nonNullSchemas schemas = first :: others ->
  convertToGeminiSchema s =
    match others with
    | [] => setNullable (convertToGeminiSchema first)
    | _ => convertToGeminiSchema first
    end.
Proof.
  destruct s as [any one ty props req its minI maxI pat en]. unfold alternatives.
  cbn [anyOf oneOf]. intros Halt Hnn.
  destruct any as [l|]; [injection Halt as -> | destruct one as [l|]; [injection Halt as -> | discriminate]];
    cbn [convertToGeminiSchema]; rewrite convertUnion_spec, Hnn; now destruct others.
Qed.

(** Without alternatives that are not null, a node whose type is none of
    the six the converter knows and that has no enum becomes a plain
    STRING. *)
Lemma convert_unknown (s : JsonSchema) :
  match alternatives s with Some schemas => nonNullSchemas schemas = [] | None => True end ->
  existsb (typeIs s) ["object"; "array"; "string"; "number"; "integer"; "boolean"] = false ->
  enum s = None ->
  convertToGeminiSchema s = plain STRING.
Proof.
  destruct s as [any one ty props req its minI maxI pat en]. unfold alternatives.
  cbn [anyOf oneOf enum existsb]. intros Halt Hty ->.
  repeat (apply orb_false_iff in Hty as [? Hty]).
  assert (Hby : forall g, match any, one with
                          | Some schemas, _ =>
                              convertUnion (map (fun x => (x, convertToGeminiSchema x)) schemas) g
                          | None, Some schemas =>
                              convertUnion (map (fun x => (x, convertToGeminiSchema x)) schemas) g
                          | None, None => g
                          end = g).
  { intros g. destruct any as [l|]; [|destruct one as [l|]]; try reflexivity;
      now rewrite convertUnion_spec, Halt. }
  cbn [convertToGeminiSchema]. rewrite Hby.
  repeat match goal with Hf : typeIs _ _ = false |- _ => rewrite Hf; clear Hf end.
  reflexivity.
Qed.

(** C9 (amended).  The Gemini conversion raises nothing of its own.
    [buildGenerationConfig] throws exactly when [z.toJSONSchema] threw, and
    otherwise configures the converted schema; a schema with alternatives
    converts as its first alternative that is not null, marked nullable
    when it is the only one, and the further alternatives leave no trace;
    a node of no known type and without enum converts to a plain STRING.
    In the Claude adapter a conversion that throws leaves [outputFormat]
    unset. *)
Theorem schema_conversion_raises_nothing :
  (forall params : ProviderGenerateParams,
     (exists e, GeminiAdapter.buildGenerationConfig params = inl e) <->
     (exists cause, zodSchema params = Some (inl cause))) /\
  (forall (params : ProviderGenerateParams) (jsonSchema : JsonSchema),
     zodSchema params = Some (inr jsonSchema) ->
     GeminiAdapter.buildGenerationConfig params =
       inr {| responseMimeType := Some "application/json";
              responseSchema := Some (convertToGeminiSchema jsonSchema) |}) /\
  (forall (s : JsonSchema) (schemas : list JsonSchema) (first : JsonSchema)
          (others : list JsonSchema),
     alternatives s = Some schemas ->
     nonNullSchemas schemas = first :: others ->
     convertToGeminiSchema s =
       match others with
       | [] => setNullable (convertToGeminiSchema first)
       | _ => convertToGeminiSchema first
       end) /\
  (forall s : JsonSchema,
     match alternatives s with
     | Some schemas => nonNullSchemas schemas = []
     | None => True
     end ->
     existsb (typeIs s) ["object"; "array"; "string"; "number"; "integer"; "boolean"] = false ->
     enum s = None ->
     convertToGeminiSchema s = plain STRING) /\
  (forall (params : ProviderGenerateParams) (cause : Thrown),
     zodSchema params = Some (inl cause) ->
     ClaudeAdapter.outputFormat params = None).
Proof.
  split.
  { intros params. unfold GeminiAdapter.buildGenerationConfig.
    destruct (zodSchema params) as [[cause|js]|]; split.
    - intros _. now exists cause.
    - intros _. eexists. reflexivity.
    - intros [e [=]].
    - intros [cause [=]].
    - intros [e [=]].
    - intros [cause [=]]. }
  split.
  { intros params js Hz. unfold GeminiAdapter.buildGenerationConfig. now rewrite Hz. }
  split; [exact convert_union|]. split; [exact convert_unknown|].
  intros params cause Hz. unfold ClaudeAdapter.outputFormat. now rewrite Hz.
Qed.

(** C9 as stated fails: the union of a string and a number has no native
    counterpart, yet the configuration is built, with the schema of a
    plain string, and nothing is thrown. *)
Lemma union_converted_without_error :
  let schema := union [typed "string"; typed "number"] in
  let params := {| prompt := "Extract"; model := None; timeoutMs := None;
                   zodSchema := Some (inr schema); hasOutputFormat := false |} in
  SpecWords.unrepresentable schema = true /\
  GeminiAdapter.buildGenerationConfig params =
    inr {| responseMimeType := Some "application/json";
           responseSchema := Some (plain STRING) |}.
Proof. vm_compute. split; reflexivity. Qed.

(** A union kept to its first alternative, and a failed conversion in the
    Claude adapter. *)
Lemma schema_conversion_raises_nothing_witness :
  let schema := union [typed "null"; typed "boolean"; typed "number"] in
  let params := {| prompt := "Extract"; model := None; timeoutMs := None;
                   zodSchema := Some (inl (Error "unsupported")); hasOutputFormat := false |} in
  convertToGeminiSchema schema = plain BOOLEAN /\
  ClaudeAdapter.outputFormat params = None.
Proof.
  cbv zeta. split.
  - apply (proj1 (proj2 (proj2 schema_conversion_raises_nothing))
             (union [typed "null"; typed "boolean"; typed "number"])
             [typed "null"; typed "boolean"; typed "number"]
             (typed "boolean") [typed "number"]); reflexivity.
  - apply (proj2 (proj2 (proj2 (proj2 schema_conversion_raises_nothing)))
             _ (Error "unsupported")). reflexivity.
Defined.

(** The converter tests the type before the enum: a string enumeration as
    Zod emits it loses its values, while an untyped one keeps them. *)
Example typed_enum_loses_values :
  convertToGeminiSchema (stringEnum ["a"; "b"]) = plain STRING /\
  g_enum (convertToGeminiSchema
            (mkJsonSchema None None None None None None None None None (Some ["a"; "b"])))
    = Some ["a"; "b"].
Proof. vm_compute. split; reflexivity. Qed.

End SchemaFacts.

(** ** The batch dispatcher *)
Module BatchFacts.
Import Batch.
Local Open Scope list_scope.
Local Open Scope nat_scope.

Section Chunking.
Context {T : Type}.
Implicit Types (arr : list T) (out : list (list T)).

(** With a positive chunk size the loop ends within [length arr]
    iterations. *)
Lemma chunkFrom_total arr size fuel i :
  0 < size -> length arr - i <= fuel -> is_Some (chunkFrom fuel arr size i).
Proof.
  intros Hsize. revert i. induction fuel as [|fuel IH]; intros i Hfuel; simpl.
  - destruct (Nat.ltb_spec i (length arr)); [lia | eauto].
  - destruct (Nat.ltb_spec i (length arr)); [|eauto].
    destruct (IH (i + size) ltac:(lia)) as [out ->]. eauto.
Qed.

Lemma chunkFrom_lookup arr size fuel i out k :
  chunkFrom fuel arr size i = Some out ->
  out !! k = if decide (i + k * size < length arr)
             then Some (take size (drop (i + k * size) arr)) else None.
Proof.
  revert i out k. induction fuel as [|fuel IH]; intros i out k; simpl.
  - destruct (Nat.ltb_spec i (length arr)); [discriminate|]. intros [= <-].
    rewrite lookup_nil. destruct (decide _); [lia | reflexivity].
  - destruct (Nat.ltb_spec i (length arr)).
    + destruct (chunkFrom fuel arr size (i + size)) as [out'|] eqn:Hrest; [|discriminate].
      intros [= <-]. destruct k as [|k]; simpl.
      * rewrite Nat.add_0_r. destruct (decide _); [|lia].
        unfold slice. do 2 f_equal. lia.
      * rewrite (IH _ _ k Hrest).
        replace (i + size + k * size) with (i + (size + k * size)) by lia.
        reflexivity.
    + intros [= <-]. rewrite lookup_nil. destruct (decide _); [lia | reflexivity].
Qed.

Lemma chunkFrom_concat arr size fuel i out :
  chunkFrom fuel arr size i = Some out -> concat out = drop i arr.
Proof.
  revert i out. induction fuel as [|fuel IH]; intros i out; simpl.
  - destruct (Nat.ltb_spec i (length arr)); [discriminate|]. intros [= <-].
    now rewrite drop_ge.
  - destruct (Nat.ltb_spec i (length arr)).
    + destruct (chunkFrom fuel arr size (i + size)) as [out'|] eqn:Hrest; [|discriminate].
      intros [= <-]. simpl. rewrite (IH _ _ Hrest). unfold slice.
      replace (i + size - i) with size by lia.
      rewrite <- drop_drop. apply take_drop.
    + intros [= <-]. now rewrite drop_ge.
Qed.

Lemma chunk_total arr size : 0 < size -> is_Some (chunk arr size).
Proof. intros Hsize. apply chunkFrom_total; [exact Hsize | lia]. Qed.

Lemma chunk_lookup arr size out k :
  chunk arr size = Some out ->
  out !! k = if decide (k * size < length arr)
             then Some (take size (drop (k * size) arr)) else None.
Proof. intros Hc. now rewrite (chunkFrom_lookup _ _ _ _ _ k Hc). Qed.

(** The number of chunks is the quotient rounded up. *)
Lemma chunk_length arr size out :
  0 < size -> chunk arr size = Some out ->
  length out = (length arr + (size - 1)) / size.
Proof.
  intros Hsize Hc.
  set (q := (length arr + (size - 1)) / size).
  assert (Hq : q * size <= length arr + (size - 1) < (q + 1) * size).
  { pose proof (Nat.div_mod_eq (length arr + (size - 1)) size) as Hd.
    pose proof (Nat.mod_upper_bound (length arr + (size - 1)) size ltac:(lia)).
    fold q in Hd. nia. }
  assert (Hlt : forall k, k < length out <-> k * size < length arr).
  { intros k. rewrite <- lookup_lt_is_Some, (chunk_lookup _ _ _ k Hc).
    destruct (decide _); split; intros; eauto; try lia.
    now destruct H as [? [=]]. }
  destruct (Nat.lt_trichotomy (length out) q) as [Hl|[Hl|Hl]]; [|exact Hl|].
  - assert (~ length out < length out) by lia.
    rewrite Hlt in H. nia.
  - apply Hlt in Hl. nia.
Qed.

Lemma chunk_concat arr size out : chunk arr size = Some out -> concat out = arr.
Proof. intros Hc. now rewrite (chunkFrom_concat _ _ _ _ _ Hc). Qed.

End Chunking.

(** *** Writing into the result array *)





(** *** The chunks being awaited *)

Lemma awaited_resolve (ws : list Worker) (w k : nat) :
  ws !! w = Some (Awaiting k) ->
  Permutation (awaited ws) (k :: awaited (<[w := Ready]> ws)).
Proof.
  revert w. induction ws as [|x ws IH]; intros w Hw; [discriminate|].
  destruct w as [|w]; simpl in *.
  - now injection Hw as ->.
  - destruct x; simpl; auto. rewrite (IH _ Hw). apply perm_swap.
Qed.

Lemma awaited_claim (ws : list Worker) (w k : nat) :
  ws !! w = Some Ready ->
  Permutation (awaited (<[w := Awaiting k]> ws)) (k :: awaited ws).
Proof.
  revert w. induction ws as [|x ws IH]; intros w Hw; [discriminate|].
  destruct w as [|w]; simpl in *.
  - now injection Hw as ->.
  - destruct x; simpl; auto. rewrite (IH _ Hw). apply perm_swap.
Qed.

Lemma awaited_leave (ws : list Worker) (w : nat) :
  ws !! w = Some Ready -> awaited (<[w := Finished]> ws) = awaited ws.
Proof.
  revert w. induction ws as [|x ws IH]; intros w Hw; [discriminate|].
  destruct w as [|w]; simpl in *.
  - now injection Hw as ->.
  - destruct x; simpl; auto. now rewrite (IH _ Hw).
Qed.


Lemma awaited_all_finished (ws : list Worker) :
  forallb isFinished ws = true -> awaited ws = [].
Proof.
  induction ws as [|[] ws IH]; simpl; try discriminate; auto.
Qed.

Lemma In_insert_other (ws : list Worker) (w : nat) (x y : Worker) :
  In x (<[w := y]> ws) -> x = y \/ In x ws.
Proof.
  revert w. induction ws as [|z ws IH]; intros w; [simpl; auto|].
  destruct w as [|w]; simpl.
  - intros [<-|Hin]; auto.
  - intros [<-|Hin]; auto. destruct (IH _ Hin); auto.
Qed.

(** *** The invariant of the worker pool *)

Section Dispatcher.
Variable texts : list string.
Variable chunks : list (list string).
Hypothesis chunked : chunk texts CHUNK_SIZE = Some chunks.

Lemma chunk_extent (k : nat) (c : list string) :
  chunks !! k = Some c ->
  c = take CHUNK_SIZE (drop (k * CHUNK_SIZE) texts) /\
  length c <= CHUNK_SIZE /\ 0 < length c /\
  k * CHUNK_SIZE + length c <= length texts.
Proof.
  rewrite (chunk_lookup _ _ _ k chunked). destruct (decide _) as [Hk|]; [|discriminate].
  intros [= <-]. split; [reflexivity|].
  rewrite length_take, length_drop. unfold CHUNK_SIZE in *. lia.
Qed.








End Dispatcher.


(** *** Every order of events ends, and none gets stuck *)

Lemma weight_insert (ws : list Worker) (w : nat) (x y : Worker) :
  ws !! w = Some x ->
  list_sum (map weight (<[w := y]> ws)) + weight x = list_sum (map weight ws) + weight y.
Proof.
  revert w. induction ws as [|z ws IH]; intros w Hw; [discriminate|].
  destruct w as [|w]; simpl in *.
  - injection Hw as ->. lia.
  - specialize (IH _ Hw). lia.
Qed.

(** Each event uses up some of the work left, so an order of events from
    the start has at most three per chunk plus one per worker. *)
Lemma step_uses_work (nchunks : nat) (a : Action) (s s' : Dispatch) :
  step nchunks a s = Some s' -> workLeft nchunks s' < workLeft nchunks s.
Proof.
  unfold workLeft.
  destruct a as [w|w translated]; simpl; destruct (workers s !! w) as [[|k|]|] eqn:Hw;
    try discriminate.
  - destruct (Nat.ltb_spec (index s) nchunks); intros [= <-]; simpl;
      pose proof (weight_insert _ _ _ (Awaiting (index s)) Hw);
      pose proof (weight_insert _ _ _ Finished Hw); simpl in *; lia.
  - intros [= <-]. simpl. pose proof (weight_insert _ _ _ Ready Hw). simpl in *. lia.
Qed.

(** While a worker is still in its loop, an event can happen, whatever the
    awaited translation turns out to be. *)
Lemma unfinished_can_step (nchunks : nat) (s : Dispatch) (reply : nat -> list string) :
  completed s = false ->
  exists a s', step nchunks a s = Some s' /\
               match a with
               | Wake _ => served s' = served s
               | Resolve _ translated =>
                   exists k, translated = reply k /\ served s' = served s ++ [(k, reply k)]
               end.
Proof.
  unfold completed. intros Hnot.
  assert (Hw : exists w x, workers s !! w = Some x /\ isFinished x = false).
  { induction (workers s) as [|x ws IH]; simpl in Hnot; [discriminate|].
    destruct (isFinished x) eqn:Hx.
    - destruct (IH Hnot) as (w & y & Hy & Hf). now exists (S w), y.
    - now exists 0, x. }
  destruct Hw as (w & [|k|] & Hw & Hf); try discriminate.
  - exists (Wake w). simpl. rewrite Hw.
    destruct (index s <? nchunks); eexists; split; reflexivity.
  - exists (Resolve w (reply k)). simpl. rewrite Hw. eexists. split; [reflexivity|].
    now exists k.
Qed.

(** From any state some order of events lets every worker finish, with the
    translations answered by [reply]. *)
Lemma completion_reachable (nchunks : nat) (reply : nat -> list string) (s : Dispatch) :
  exists schedule s',
    run nchunks schedule s = Some s' /\ completed s' = true /\
    exists ks, served s' = served s ++ map (fun k => (k, reply k)) ks.
Proof.
  remember (workLeft nchunks s) as n eqn:Hn.
  revert s Hn. induction n as [n IH] using lt_wf_ind. intros s ->.
  destruct (completed s) eqn:Hdone.
  - exists [], s. simpl. split; [reflexivity|]. split; [exact Hdone|].
    exists []. simpl. now rewrite app_nil_r.
  - destruct (unfinished_can_step nchunks s reply Hdone) as (a & s1 & Hstep & Hserved).
    destruct (IH _ (step_uses_work _ _ _ _ Hstep) s1 eq_refl)
      as (rest & s' & Hrun & Hdone' & ks & Hks).
    exists (a :: rest), s'. simpl. rewrite Hstep. split; [exact Hrun|]. split; [exact Hdone'|].
    destruct a as [w|w translated].
    + exists ks. now rewrite Hks, Hserved.
    + destruct Hserved as (k & _ & Hk). exists (k :: ks).
      rewrite Hks, Hk, <- app_assoc. reflexivity.
Qed.

End BatchFacts.

(** ** The batch of 257 texts *)
Module BatchExamples.
Import Batch BatchScenario.
Local Open Scope list_scope.
Local Open Scope nat_scope.

Example batch_257_first_arrives_last :
  dispatch texts257 firstArrivesLast = Some (map Some (translate texts257)).
Proof. vm_compute. reflexivity. Qed.

Example batch_257_slow_starter :
  dispatch texts257 slowStarter = Some (map Some (translate texts257)).
Proof. vm_compute. reflexivity. Qed.

(** A schedule that names an event that cannot happen is no run of the
    handler: nobody awaits a translation before claiming a chunk. *)
Example batch_257_impossible_order :
  dispatch texts257 [Resolve 0 (reply 0)] = None.
Proof. vm_compute. reflexivity. Qed.


End BatchExamples.

(** ** Recovery: the double-encoded array *)
Module DoubleEncodingFacts.
Import Js Json Regex Recovery JsFacts.
Local Open Scope list_scope.
Local Open Scope nat_scope.

Lemma nonEmpty_true (s : string) : nonEmpty s = true <-> s <> EmptyString.
Proof. destruct s; simpl; split; congruence. Qed.

Lemma tidyTimestamps_shape (raw : list string) :
  length (tidyTimestamps raw) <= 2 /\
  Forall (fun ts => ts <> EmptyString) (tidyTimestamps raw).
Proof.
  unfold tidyTimestamps. split.
  - rewrite length_take. lia.
  - apply Forall_take, Forall_forall. intros ts Hin.
    apply list_elem_of_filter in Hin as [Hne _].
    now apply nonEmpty_true, Is_true_true.
Qed.

Section WithParser.
Variable JSON_parse : string -> option JSON.

(** A takeaway comes out of [decodeItem] only with a label and an insight
    that are not empty and with one or two timestamps, none empty. *)
Lemma decodeItem_valid (item : string) (t : StructuredTakeaway) :
  decodeItem JSON_parse item = Some t ->
  label t <> EmptyString /\ insight t <> EmptyString /\
  1 <= length (timestamps t) <= 2 /\
  Forall (fun ts => ts <> EmptyString) (timestamps t).
Proof.
  unfold decodeItem. destruct (JSON_parse item) as [parsed|]; [|discriminate].
  set (l := match get "label" parsed with Some (JString s) => trim s | _ => EmptyString end).
  set (i := match get "insight" parsed with Some (JString s) => trim s | _ => EmptyString end).
  set (ts := match get "timestamps" parsed with
             | Some (JArray values) =>
                 tidyTimestamps
                   (omap (fun ts => match ts with JString s => Some s | _ => None end) values)
             | _ => []
             end).
  assert (Hts : length ts <= 2 /\ Forall (fun x => x <> EmptyString) ts).
  { subst ts. destruct (get "timestamps" parsed) as [[]|];
      try (split; [simpl; lia | constructor]). apply tidyTimestamps_shape. }
  assert (Hgo : (if nonEmpty l && nonEmpty i && (0 <? length ts)
                 then Some {| label := l; insight := i; timestamps := ts |}
                 else None) = Some t ->
                label t <> EmptyString /\ insight t <> EmptyString /\
                1 <= length (timestamps t) <= 2 /\
                Forall (fun x => x <> EmptyString) (timestamps t)).
  { destruct (nonEmpty l && nonEmpty i && (0 <? length ts)) eqn:E; [|discriminate].
    intros [= <-]. simpl.
    apply andb_true_iff in E as [E Hn]. apply andb_true_iff in E as [Hl Hi].
    apply Nat.ltb_lt in Hn. repeat split; try (now apply nonEmpty_true); try tauto; lia. }
  destruct parsed; try discriminate; exact Hgo.
Qed.

Lemma decodeItems_string (text : string) (rest : list JSON)
    (takeaways : list StructuredTakeaway) :
  decodeItems JSON_parse (JString text :: rest) takeaways =
    match decodeItem JSON_parse text with
    | Some t =>
        if 6 <=? length (takeaways ++ [t]) then takeaways ++ [t]
        else decodeItems JSON_parse rest (takeaways ++ [t])
    | None => decodeItems JSON_parse rest takeaways
    end.
Proof. reflexivity. Qed.

Lemma omap_cons {A B : Type} (f : A -> option B) (x : A) (l : list A) :
  omap f (x :: l) = match f x with Some y => y :: omap f l | None => omap f l end.
Proof. reflexivity. Qed.

(** The loop with its [break] keeps the first six takeaways decoded. *)
Lemma decodeItems_take (outerArray : list JSON) (takeaways : list StructuredTakeaway) :
  length takeaways < 6 ->
  decodeItems JSON_parse outerArray takeaways =
    take 6 (takeaways ++ omap (decodeElement JSON_parse) outerArray).
Proof.
  revert takeaways. induction outerArray as [|item rest IH]; intros takeaways Hlen.
  - simpl. rewrite app_nil_r. now rewrite take_ge by lia.
  - assert (Hskip : decodeElement JSON_parse item = None ->
                    decodeItems JSON_parse rest takeaways =
                      take 6 (takeaways ++ omap (decodeElement JSON_parse) (item :: rest))).
    { intros Hnone. rewrite omap_cons, Hnone. now apply IH. }
    destruct item as [|b|n|text|items|members]; try (apply Hskip; reflexivity).
    rewrite decodeItems_string, omap_cons. cbn [decodeElement].
    destruct (decodeItem JSON_parse text) as [t|] eqn:Hd; [|now apply IH].
    destruct (Nat.leb_spec 6 (length (takeaways ++ [t]))) as [Hfull|Hroom].
    + replace (takeaways ++ t :: omap (decodeElement JSON_parse) rest)
        with ((takeaways ++ [t]) ++ omap (decodeElement JSON_parse) rest)
        by now rewrite <- app_assoc.
      rewrite take_app_le by exact Hfull.
      rewrite length_app in Hfull. simpl in Hfull.
      rewrite take_ge by (rewrite length_app; simpl; lia). reflexivity.
    + rewrite IH by exact Hroom. now rewrite <- app_assoc.
Qed.


End WithParser.
End DoubleEncodingFacts.

(** ** The matcher *)
Module RegexFacts.
Import Js Json Regex Recovery Template.
Local Open Scope list_scope.
Local Open Scope nat_scope.

Lemma append_assoc (a b c : string) : ((a ++ b) ++ c = a ++ b ++ c)%string.
Proof. induction a; simpl; congruence. Qed.

Lemma append_nil_r (a : string) : (a ++ "")%string = a.
Proof. induction a; simpl; congruence. Qed.

Lemma length_append (a b : string) :
  String.length (a ++ b) = String.length a + String.length b.
Proof. induction a; simpl; congruence. Qed.

Lemma substring_prefix (a b : string) : substring 0 (String.length a) (a ++ b) = a.
Proof. induction a; simpl; [now destruct b | congruence]. Qed.

Lemma consumed_app (a b : string) : consumed (a ++ b) b = a.
Proof.
  unfold consumed. rewrite length_append.
  replace (String.length a + String.length b - String.length b) with (String.length a) by lia.
  apply substring_prefix.
Qed.

Lemma allChars_app (p : ascii -> bool) (a b : string) :
  allChars p (a ++ b) = allChars p a && allChars p b.
Proof. induction a; simpl; [reflexivity | now rewrite IHa, andb_assoc]. Qed.

Lemma allChars_weaken (p q : ascii -> bool) (s : string) :
  (forall c, p c = true -> q c = true) -> allChars p s = true -> allChars q s = true.
Proof.
  intros Hpq. induction s as [|c s IH]; simpl; [reflexivity|].
  intros H. apply andb_true_iff in H as [Hc Hs]. now rewrite (Hpq _ Hc), IH.
Qed.

(** *** Heads of lists of matches *)

Lemma head_flat_map {A B : Type} (f : A -> list B) (l : list A) (x : A) (y : B) :
  head l = Some x -> head (f x) = Some y -> head (flat_map f l) = Some y.
Proof.
  destruct l as [|x' l]; [discriminate|]. intros [= ->] Hy. simpl.
  destruct (f x); [discriminate|]. exact Hy.
Qed.

Lemma head_map {A B : Type} (f : A -> B) (l : list A) (x : A) :
  head l = Some x -> head (map f l) = Some (f x).
Proof. destruct l; [discriminate|]. now intros [= ->]. Qed.

(** The text a result leaves is the end of the text matched against. *)
Lemma iterate_suffix (step : string -> Captures -> list (string * Captures))
    (greedy : bool) :
  (forall s caps found, In found (step s caps) -> exists u, s = (u ++ fst found)%string) ->
  forall fuel s caps found,
    In found (iterate step greedy fuel s caps) -> exists u, s = (u ++ fst found)%string.
Proof.
  intros Hstep. induction fuel as [|fuel IH]; intros s caps found; simpl.
  - intros [<-|[]]. now exists EmptyString.
  - assert (Hmore : In found
              (flat_map (fun f1 => if String.length (fst f1) <? String.length s
                                   then iterate step greedy fuel (fst f1) (snd f1) else [])
                        (step s caps)) ->
            exists u, s = (u ++ fst found)%string).
    { intros Hin. apply in_flat_map in Hin as (f1 & Hf1 & Hin).
      destruct (String.length (fst f1) <? String.length s); [|destruct Hin].
      destruct (Hstep _ _ _ Hf1) as [u1 ->]. destruct (IH _ _ _ Hin) as [u2 Hu2].
      exists (u1 ++ u2)%string. now rewrite append_assoc, <- Hu2. }
    destruct greedy.
    + intros Hin. apply in_app_or in Hin as [Hin|[<-|[]]]; [auto | now exists EmptyString].
    + intros [<-|Hin]; [now exists EmptyString | auto].
Qed.

Lemma matchRe_suffix (r : Regex) (s : string) (caps : Captures)
    (found : string * Captures) :
  In found (matchRe r s caps) -> exists u, s = (u ++ fst found)%string.
Proof.
  revert s caps found. induction r as [|c|p|a IHa b IHb|greedy a IHa|n a IHa];
    intros s caps found; simpl.
  - intros [<-|[]]. now exists EmptyString.
  - destruct s as [|d t]; [intros []|]. destruct (Ascii.eqb c d); [|intros []].
    intros [<-|[]]. now exists (String d EmptyString).
  - destruct s as [|d t]; [intros []|]. destruct (p d); [|intros []].
    intros [<-|[]]. now exists (String d EmptyString).
  - intros Hin. apply in_flat_map in Hin as (f1 & Hf1 & Hin).
    destruct (IHa _ _ _ Hf1) as [u1 ->]. destruct (IHb _ _ _ Hin) as [u2 Hu2].
    exists (u1 ++ u2)%string. now rewrite append_assoc, <- Hu2.
  - apply iterate_suffix. exact IHa.
  - intros Hin. apply in_map_iff in Hin as (f1 & <- & Hf1). simpl. now apply IHa in Hf1.
Qed.

(** A match of a pattern that ends with the character [ch] ends with it. *)
Lemma matchRe_last (ch : ascii) (rs : list Regex) (s : string) (caps : Captures)
    (found : string * Captures) :
  In found (matchRe (seqAll (rs ++ [Chr ch])) s caps) ->
  exists u, s = (u ++ String ch (fst found))%string.
Proof.
  revert s caps. induction rs as [|r rs IH]; intros s caps; simpl.
  - destruct s as [|d t]; [intros []|]. destruct (Ascii.eqb_spec ch d) as [->|]; [|intros []].
    simpl. intros [<-|[]]. now exists EmptyString.
  - intros Hin. apply in_flat_map in Hin as (f1 & Hf1 & Hin).
    destruct (matchRe_suffix _ _ _ _ Hf1) as [u1 ->]. destruct (IH _ _ Hin) as [u2 Hu2].
    exists (u1 ++ u2)%string. now rewrite append_assoc, <- Hu2.
Qed.

(** *** Matching token by token *)

Lemma M_done (s : string) (caps : Captures) :
  head (matchRe (seqAll []) s caps) = Some (s, caps).
Proof. reflexivity. Qed.

Lemma M_step (r : Regex) (rs : list Regex) (s s1 : string) (caps c1 : Captures)
    (found : string * Captures) :
  head (matchRe r s caps) = Some (s1, c1) ->
  head (matchRe (seqAll rs) s1 c1) = Some found ->
  head (matchRe (seqAll (r :: rs)) s caps) = Some found.
Proof. intros Hr Hrs. simpl. now apply head_flat_map with (s1, c1). Qed.

Lemma M_chr (c : ascii) (rs : list Regex) (s : string) (caps : Captures)
    (found : string * Captures) :
  head (matchRe (seqAll rs) s caps) = Some found ->
  head (matchRe (seqAll (Chr c :: rs)) (String c s) caps) = Some found.
Proof. apply M_step. simpl. now rewrite Ascii.eqb_refl. Qed.

Lemma M_lit (w : string) (rs : list Regex) (s : string) (caps : Captures)
    (found : string * Captures) :
  head (matchRe (seqAll rs) s caps) = Some found ->
  head (matchRe (seqAll (lit w ++ rs)) (w ++ s) caps) = Some found.
Proof. induction w as [|c w IH]; intros H; [exact H|]. apply M_chr, IH, H. Qed.

Lemma matchRe_star (greedy : bool) (a : Regex) (s : string) (caps : Captures) :
  matchRe (Star greedy a) s caps = iterate (matchRe a) greedy (String.length s) s caps.
Proof. reflexivity. Qed.

Lemma iterate_S (step : string -> Captures -> list (string * Captures)) (greedy : bool)
    (fuel : nat) (s : string) (caps : Captures) :
  iterate step greedy (S fuel) s caps =
    let more :=
      flat_map (fun found =>
                  if String.length (fst found) <? String.length s
                  then iterate step greedy fuel (fst found) (snd found)
                  else [])
               (step s caps) in
    if greedy then more ++ [(s, caps)] else (s, caps) :: more.
Proof. reflexivity. Qed.

Lemma matchRe_cls_yes (p : ascii -> bool) (c : ascii) (t : string) (caps : Captures) :
  p c = true -> matchRe (Cls p) (String c t) caps = [(t, caps)].
Proof. intros Hc. simpl. now rewrite Hc. Qed.

Lemma matchRe_cls_no (p : ascii -> bool) (s : string) (caps : Captures) :
  stopsAt p s = true -> matchRe (Cls p) s caps = [].
Proof.
  destruct s as [|c t]; [reflexivity|]. simpl. intros Hc.
  apply negb_true_iff in Hc. now rewrite Hc.
Qed.

(** One more character of the class in front of a text: the repetition
    first tries it and then goes on as on the text. *)
Lemma star_class_cons (greedy : bool) (p : ascii -> bool) (c : ascii) (t : string)
    (caps : Captures) :
  p c = true ->
  matchRe (Star greedy (Cls p)) (String c t) caps =
    if greedy
    then matchRe (Star greedy (Cls p)) t caps ++ [(String c t, caps)]
    else (String c t, caps) :: matchRe (Star greedy (Cls p)) t caps.
Proof.
  intros Hc. rewrite !matchRe_star.
  change (String.length (String c t)) with (S (String.length t)).
  rewrite iterate_S. cbv zeta. rewrite (matchRe_cls_yes p c t caps Hc).
  cbn [flat_map fst snd].
  assert (Hlt : (String.length t <? String.length (String c t)) = true)
    by (apply Nat.ltb_lt; simpl; lia).
  rewrite Hlt, app_nil_r. reflexivity.
Qed.

Lemma star_class_stop (greedy : bool) (p : ascii -> bool) (s : string) (caps : Captures) :
  stopsAt p s = true -> matchRe (Star greedy (Cls p)) s caps = [(s, caps)].
Proof.
  intros Hs. rewrite matchRe_star. destruct (String.length s) as [|n]; [reflexivity|].
  rewrite iterate_S. cbv zeta. rewrite (matchRe_cls_no p s caps Hs). simpl.
  now destruct greedy.
Qed.

Lemma greedy_run (p : ascii -> bool) (u s : string) (caps : Captures) :
  allChars p u = true -> stopsAt p s = true ->
  head (matchRe (Star true (Cls p)) (u ++ s) caps) = Some (s, caps).
Proof.
  intros Hu Hs. induction u as [|c u IH].
  - change ("" ++ s)%string with s. now rewrite star_class_stop.
  - simpl in Hu. apply andb_true_iff in Hu as [Hc Hu]. specialize (IH Hu).
    change (String c u ++ s)%string with (String c (u ++ s)).
    rewrite (star_class_cons true p c (u ++ s) caps Hc).
    destruct (matchRe (Star true (Cls p)) (u ++ s) caps); [discriminate | exact IH].
Qed.

Lemma M_spaces (g : string) (rs : list Regex) (s : string) (caps : Captures)
    (found : string * Captures) :
  whiteSpace g = true -> stopsAt isWhiteSpace s = true ->
  head (matchRe (seqAll rs) s caps) = Some found ->
  head (matchRe (seqAll (spaces :: rs)) (g ++ s) caps) = Some found.
Proof. intros Hg Hs. apply M_step. now apply greedy_run. Qed.

Lemma matchRe_seq (a b : Regex) (s : string) (caps : Captures) :
  matchRe (Seq a b) s caps =
    flat_map (fun found => matchRe b (fst found) (snd found)) (matchRe a s caps).
Proof. reflexivity. Qed.

Lemma matchRe_group (n : nat) (a : Regex) (s : string) (caps : Captures) :
  matchRe (Group n a) s caps =
    map (fun found => (fst found, (n, consumed s (fst found)) :: snd found))
        (matchRe a s caps).
Proof. reflexivity. Qed.

Lemma matchRe_chr_yes (c : ascii) (t : string) (caps : Captures) :
  matchRe (Chr c) (String c t) caps = [(t, caps)].
Proof. simpl. now rewrite Ascii.eqb_refl. Qed.

Lemma matchRe_chr_no (c d : ascii) (t : string) (caps : Captures) :
  Ascii.eqb c d = false -> matchRe (Chr c) (String d t) caps = [].
Proof. intros Hcd. simpl. now rewrite Hcd. Qed.

Lemma head_app {A : Type} (l k : list A) (x : A) :
  head l = Some x -> head (l ++ k) = Some x.
Proof. destruct l; [discriminate|]. now intros [= ->]. Qed.

(** *** String bodies with their escapes *)

(** The escape of the pattern: a backslash, a character that is not a line
    terminator, and a run of characters of the body. *)
Local Abbreviation escape :=
  (Seq (Chr backslash) (Seq (Cls dot) (Star true (Cls textChar)))).

(** A string body is a run of plain characters and then nothing, or an
    escape and a string body again. *)
Lemma stringText_split (text : string) :
  stringText text = true ->
  exists run rest,
    text = (run ++ rest)%string /\ allChars textChar run = true /\
    stopsAt textChar rest = true /\
    (rest = EmptyString \/
     exists d rest', rest = String backslash (String d rest') /\ dot d = true /\
                     stringText rest' = true).
Proof.
  induction text as [|c text IH]; intros Ht.
  - exists EmptyString, EmptyString. repeat split. now left.
  - cbn [stringText] in Ht. destruct (Ascii.eqb_spec c backslash) as [->|Hc].
    + destruct text as [|d text']; [discriminate|]. apply andb_true_iff in Ht as [Hd Ht].
      exists EmptyString, (String backslash (String d text')).
      repeat split. right. now exists d, text'.
    + apply andb_true_iff in Ht as [Hq Ht].
      destruct (IH Ht) as (run & rest & -> & Hrun & Hstop & Hrest).
      exists (String c run), rest. repeat split; [|exact Hstop | exact Hrest].
      cbn [allChars]. rewrite Hrun, andb_true_r. unfold textChar.
      apply negb_true_iff in Hq. rewrite Hq. cbn [orb]. apply negb_true_iff.
      now apply Ascii.eqb_neq.
Qed.

Lemma escape_step (d : ascii) (run s : string) (caps : Captures) :
  dot d = true -> allChars textChar run = true -> stopsAt textChar s = true ->
  head (matchRe escape (String backslash (String d (run ++ s))) caps) = Some (s, caps).
Proof.
  intros Hd Hrun Hs.
  rewrite matchRe_seq, matchRe_chr_yes. cbn [flat_map fst snd]. rewrite app_nil_r.
  rewrite matchRe_seq, matchRe_cls_yes by exact Hd. cbn [flat_map fst snd].
  rewrite app_nil_r. now apply greedy_run.
Qed.

(** The repetition of the escape group goes through all the escapes of a
    string body, up to its closing double quote; it adds captures of its
    own group only. *)
Lemma star_escapes (inner n : nat) :
  forall rest,
    String.length rest <= n ->
    stopsAt textChar rest = true ->
    stringText rest = true ->
    exists extra,
      Forall (fun e : nat * string => fst e = inner) extra /\
      forall fuel s caps,
        String.length rest <= fuel ->
        head (iterate (matchRe (Group inner escape)) true fuel
                (rest ++ String quoteChar s) caps)
          = Some (String quoteChar s, extra ++ caps).
Proof.
  induction n as [|n IH]; intros rest Hlen Hstart Htext.
  - destruct rest as [|c rest]; [|cbn [String.length] in Hlen; lia].
    exists []. split; [constructor|]. intros fuel s caps _.
    cbn [append].
    destruct fuel as [|fuel]; [reflexivity|]. rewrite iterate_S. cbv zeta.
    rewrite matchRe_group, matchRe_seq, matchRe_chr_no by reflexivity. reflexivity.
  - destruct rest as [|c rest].
    { exists []. split; [constructor|]. intros fuel s caps _.
      cbn [append].
      destruct fuel as [|fuel]; [reflexivity|]. rewrite iterate_S. cbv zeta.
      rewrite matchRe_group, matchRe_seq, matchRe_chr_no by reflexivity. reflexivity. }
    cbn [stringText] in Htext.
    destruct (Ascii.eqb_spec c backslash) as [->|Hc].
    2:{ apply andb_true_iff in Htext as [Hq _]. cbn [stopsAt] in Hstart.
        unfold textChar in Hstart. apply negb_true_iff in Hq. rewrite Hq in Hstart.
        apply Ascii.eqb_neq in Hc. rewrite Hc in Hstart. discriminate. }
    destruct rest as [|d rest']; [discriminate|]. apply andb_true_iff in Htext as [Hd Htext].
    destruct (stringText_split rest' Htext) as (run & rest2 & -> & Hrun & Hstop & Hrest2).
    assert (Htext2 : stringText rest2 = true).
    { destruct Hrest2 as [->|(d2 & r2 & -> & Hd2 & Ht2)]; [reflexivity|].
      cbn [stringText]. now rewrite Ascii.eqb_refl, Hd2, Ht2. }
    cbn [String.length] in Hlen. rewrite length_append in Hlen.
    destruct (IH rest2 ltac:(lia) Hstop Htext2) as (extra & Hextra & Hgo).
    exists (extra ++ [(inner, String backslash (String d run))]). split.
    { apply Forall_app. split; [exact Hextra | now repeat constructor]. }
    intros fuel s caps Hfuel. cbn [String.length] in Hfuel. rewrite length_append in Hfuel.
    destruct fuel as [|fuel]; [lia|]. rewrite iterate_S. cbv zeta.
    apply head_app.
    assert (Hstop2 : stopsAt textChar (rest2 ++ String quoteChar s) = true).
    { destruct rest2 as [|c2 r2]; [reflexivity | exact Hstop]. }
    change (String backslash (String d (run ++ rest2)) ++ String quoteChar s)%string
      with (String backslash (String d ((run ++ rest2) ++ String quoteChar s))).
    rewrite append_assoc.
    eapply head_flat_map.
    + rewrite matchRe_group. apply head_map. now apply escape_step.
    + cbn [fst snd].
      replace (String.length (rest2 ++ String quoteChar s) <?
               String.length (String backslash (String d (run ++ rest2 ++ String quoteChar s))))
        with true.
      2:{ symmetry. apply Nat.ltb_lt. cbn [String.length]. rewrite !length_append. lia. }
      change (String backslash (String d (run ++ rest2 ++ String quoteChar s)))
        with (String backslash (String d run) ++ (rest2 ++ String quoteChar s))%string.
      rewrite consumed_app, <- app_assoc. cbn [app]. apply Hgo. lia.
Qed.

Lemma head_stringBody (inner : nat) (text : string) :
  stringText text = true ->
  exists extra,
    Forall (fun e : nat * string => fst e = inner) extra /\
    forall s caps,
      head (matchRe (stringBody inner) (text ++ String quoteChar s) caps)
        = Some (String quoteChar s, extra ++ caps).
Proof.
  intros Ht. destruct (stringText_split text Ht) as (run & rest & -> & Hrun & Hstop & Hrest).
  assert (Htext2 : stringText rest = true).
  { destruct Hrest as [->|(d2 & r2 & -> & Hd2 & Ht2)]; [reflexivity|].
    cbn [stringText]. now rewrite Ascii.eqb_refl, Hd2, Ht2. }
  destruct (star_escapes inner (String.length rest) rest ltac:(lia) Hstop Htext2)
    as (extra & Hextra & Hgo).
  exists extra. split; [exact Hextra|]. intros s caps.
  unfold stringBody. rewrite matchRe_seq, append_assoc.
  apply head_flat_map with (rest ++ String quoteChar s, caps)%string.
  - apply greedy_run; [exact Hrun|].
    destruct rest as [|c2 r2]; [reflexivity | exact Hstop].
  - cbn [fst snd]. rewrite matchRe_star. apply Hgo. rewrite length_append. lia.
Qed.

(** A string body in its group: the match goes on after it with the body
    as the capture of the group, above captures of the escape group. *)
Lemma M_body (n inner : nat) (text : string) :
  stringText text = true ->
  exists extra,
    Forall (fun e : nat * string => fst e = inner) extra /\
    forall (rs : list Regex) (s : string) (caps : Captures) (found : string * Captures),
      head (matchRe (seqAll rs) (String quoteChar s) ((n, text) :: extra ++ caps))
        = Some found ->
      head (matchRe (seqAll (Group n (stringBody inner) :: rs))
              (text ++ String quoteChar s) caps) = Some found.
Proof.
  intros Ht. destruct (head_stringBody inner text Ht) as (extra & Hextra & Hhead).
  exists extra. split; [exact Hextra|]. intros rs s caps found.
  apply M_step. rewrite matchRe_group.
  rewrite (head_map _ _ _ (Hhead s caps)). cbn [fst snd]. now rewrite consumed_app.
Qed.

Lemma capture_skip (n : nat) (extra caps : Captures) :
  Forall (fun e : nat * string => fst e <> n) extra ->
  capture n (extra ++ caps) = capture n caps.
Proof.
  induction extra as [|[k text] extra IH]; intros Hne; [reflexivity|].
  apply Forall_cons in Hne as [Hk Hne]. cbn [app capture fst] in *.
  destruct (Nat.eqb_spec k n) as [->|_]; [congruence | now apply IH].
Qed.

Lemma lazy_head (a : Regex) (s : string) (caps : Captures) :
  head (matchRe (Star false a) s caps) = Some (s, caps).
Proof. rewrite matchRe_star. now destruct (String.length s). Qed.

Lemma flat_map_map {A B C : Type} (f : B -> list C) (g : A -> B) (l : list A) :
  flat_map f (map g l) = flat_map (fun x => f (g x)) l.
Proof. induction l; simpl; congruence. Qed.

Lemma matchRe_wrong_start (c d : ascii) (rs : list Regex) (t : string) (caps : Captures) :
  Ascii.eqb c d = false -> matchRe (seqAll (Chr c :: rs)) (String d t) caps = [].
Proof. intros Hcd. simpl. now rewrite Hcd. Qed.

Lemma closesRecord_bracket (u s : string) :
  closesRecord (u ++ String "]" s) = closesRecord u.
Proof.
  induction u as [|c u IH]; [reflexivity|]. cbn [append closesRecord].
  now destruct (isWhiteSpace c).
Qed.

(** After a closing bracket that does not close the record, the rest of
    the pattern fails. *)
Lemma close_fails (rs : list Regex) (t : string) (caps : Captures) :
  closesRecord t = false -> matchRe (seqAll (spaces :: Chr "}" :: rs)) t caps = [].
Proof.
  cbn [seqAll]. induction t as [|c t IH]; intros Ht.
  - rewrite matchRe_seq. unfold spaces. rewrite star_class_stop by reflexivity. reflexivity.
  - cbn [closesRecord] in Ht. rewrite matchRe_seq. unfold spaces.
    destruct (isWhiteSpace c) eqn:Hc.
    + rewrite star_class_cons by exact Hc. rewrite flat_map_app.
      fold spaces. rewrite <- matchRe_seq, (IH Ht). cbn [flat_map fst snd app].
      rewrite app_nil_r. rewrite matchRe_seq, matchRe_chr_no; [reflexivity|].
      destruct (Ascii.eqb_spec "}" c) as [<-|]; [discriminate Hc | reflexivity].
    + rewrite star_class_stop by (cbn [stopsAt]; now rewrite Hc).
      cbn [flat_map fst snd]. rewrite app_nil_r, matchRe_seq, matchRe_chr_no; [reflexivity|].
      now rewrite Ascii.eqb_sym.
Qed.

(** The lazy group between the brackets: the match goes on from the first
    closing bracket after which the record closes. *)
Lemma lazy_run_then (n : nat) (rs : list Regex) (pre u s : string) (caps : Captures)
    (found : string * Captures) :
  allChars dot u = true ->
  noEarlyClose u = true ->
  head (matchRe (seqAll (Chr "]" :: spaces :: Chr "}" :: rs)) (String "]" s)
          ((n, pre ++ u)%string :: caps)) = Some found ->
  head (flat_map (fun f1 => matchRe (seqAll (Chr "]" :: spaces :: Chr "}" :: rs)) (fst f1)
                              ((n, consumed (pre ++ u ++ String "]" s) (fst f1)) :: snd f1))
                 (matchRe (Star false (Cls dot)) (u ++ String "]" s) caps)) = Some found.
Proof.
  revert pre. induction u as [|c u IH]; intros pre Hu Hclose Hk.
  - change ("" ++ String "]" s)%string with (String "]" s).
    apply head_flat_map with (String "]" s, caps); [apply lazy_head|].
    cbn [fst snd]. rewrite consumed_app. now rewrite append_nil_r in Hk.
  - cbn [allChars] in Hu. apply andb_true_iff in Hu as [Hdot Hu].
    cbn [noEarlyClose] in Hclose. apply andb_true_iff in Hclose as [Hc Hclose].
    apply negb_true_iff in Hc.
    change (String c u ++ String "]" s)%string with (String c (u ++ String "]" s)).
    rewrite (star_class_cons false dot c (u ++ String "]" s) caps Hdot).
    cbn [flat_map fst snd].
    assert (Hfail : forall caps',
              matchRe (seqAll (Chr "]" :: spaces :: Chr "}" :: rs))
                (String c (u ++ String "]" s)) caps' = []).
    { intros caps'. destruct (Ascii.eqb_spec c "]") as [->|Hne].
      - cbn [andb] in Hc.
        change (seqAll (Chr "]" :: spaces :: Chr "}" :: rs))
          with (Seq (Chr "]") (seqAll (spaces :: Chr "}" :: rs))).
        rewrite matchRe_seq, matchRe_chr_yes. cbn [flat_map fst snd].
        rewrite close_fails by (now rewrite closesRecord_bracket). reflexivity.
      - apply matchRe_wrong_start. rewrite Ascii.eqb_sym. now apply Ascii.eqb_neq. }
    rewrite Hfail. cbn [app].
    replace (pre ++ String c (u ++ String "]" s))%string
      with ((pre ++ String c "") ++ u ++ String "]" s)%string
      by now rewrite append_assoc.
    apply IH; [exact Hu | exact Hclose|]. now rewrite append_assoc.
Qed.

Lemma M_lazy (n : nat) (rs : list Regex) (u s : string) (caps : Captures)
    (found : string * Captures) :
  allChars dot u = true ->
  noEarlyClose u = true ->
  head (matchRe (seqAll (spaces :: Chr "}" :: rs)) s ((n, u) :: caps)) = Some found ->
  head (matchRe (seqAll (Group n (Star false (Cls dot)) :: Chr "]" :: spaces :: Chr "}" :: rs))
          (u ++ String "]" s) caps) = Some found.
Proof.
  intros Hu Hclose Hk.
  change (matchRe (seqAll (Group n ?a :: ?k)) ?x ?c)
    with (flat_map (fun f1 => matchRe (seqAll k) (fst f1) (snd f1))
            (map (fun f1 => (fst f1, (n, consumed x (fst f1)) :: snd f1)) (matchRe a x c))).
  rewrite flat_map_map. cbn [fst snd].
  apply (lazy_run_then n rs "" u s caps found Hu Hclose).
  now apply M_chr.
Qed.

(** *** The leftmost match *)

Lemma matchAt_wrong_start (c d : ascii) (rs : list Regex) (t : string) :
  Ascii.eqb c d = false -> matchAt (seqAll (Chr c :: rs)) (String d t) = None.
Proof. intros Hcd. unfold matchAt. now rewrite matchRe_wrong_start. Qed.

Lemma exec_skip (c : ascii) (rs : list Regex) (junk s : string) :
  without c junk = true ->
  exec (seqAll (Chr c :: rs)) (junk ++ s) = exec (seqAll (Chr c :: rs)) s.
Proof.
  induction junk as [|d junk IH]; [reflexivity|]. intros Hj.
  unfold without in Hj. simpl in Hj.
  apply andb_true_iff in Hj as [Hd Hj]. apply negb_true_iff in Hd.
  change (String d junk ++ s)%string with (String d (junk ++ s)).
  cbn [exec]. rewrite matchAt_wrong_start by (now rewrite Ascii.eqb_sym). now apply IH.
Qed.

Lemma diverges_fails (w : string) (rs : list Regex) (t s : string) (caps : Captures) :
  diverges w t = true -> matchRe (seqAll (lit w ++ rs)) (t ++ s) caps = [].
Proof.
  revert t. induction w as [|a w IH]; intros t; [discriminate|].
  destruct t as [|b t]; [discriminate|]. cbn [diverges].
  change (seqAll (lit (String a w) ++ rs)) with (Seq (Chr a) (seqAll (lit w ++ rs))).
  change (String b t ++ s)%string with (String b (t ++ s)).
  rewrite matchRe_seq. destruct (Ascii.eqb_spec a b) as [->|Hab].
  - intros Hd. rewrite matchRe_chr_yes. cbn [flat_map fst snd]. now rewrite IH.
  - intros _. rewrite matchRe_chr_no by (now apply Ascii.eqb_neq). reflexivity.
Qed.

(** After an opening brace that no first key follows, the rest of the
    pattern fails. *)
Lemma startsNoRecord_fails (rs : list Regex) (r s : string) (caps : Captures) :
  startsNoRecord r = true ->
  matchRe (seqAll (spaces :: lit (dq "'label'") ++ rs)) (r ++ s) caps = [].
Proof.
  cbn [seqAll]. induction r as [|c r IH]; [discriminate|].
  cbn [startsNoRecord]. change (String c r ++ s)%string with (String c (r ++ s)).
  rewrite matchRe_seq. unfold spaces. destruct (isWhiteSpace c) eqn:Hc.
  - intros Hr. rewrite star_class_cons by exact Hc. rewrite flat_map_app.
    fold spaces. rewrite <- matchRe_seq, (IH Hr). cbn [flat_map fst snd app].
    rewrite app_nil_r.
    change (lit (dq "'label'") ++ rs) with (Chr quoteChar :: (lit (dq "label'") ++ rs)).
    apply matchRe_wrong_start.
    destruct (Ascii.eqb_spec quoteChar c) as [<-|]; [discriminate Hc | reflexivity].
  - intros Hd. rewrite star_class_stop by (cbn [stopsAt]; now rewrite Hc).
    cbn [flat_map fst snd]. rewrite app_nil_r.
    change (String c (r ++ s)) with (String c r ++ s)%string. now apply diverges_fails.
Qed.

(** The search passes over quiet text. *)
Lemma exec_quiet (rs : list Regex) (junk s : string) :
  quiet junk = true ->
  exec (seqAll (Chr "{" :: spaces :: lit (dq "'label'") ++ rs)) (junk ++ s) =
    exec (seqAll (Chr "{" :: spaces :: lit (dq "'label'") ++ rs)) s.
Proof.
  induction junk as [|d junk IH]; [reflexivity|]. cbn [quiet]. intros Hj.
  apply andb_true_iff in Hj as [Hd Hj].
  change (String d junk ++ s)%string with (String d (junk ++ s)).
  cbn [exec].
  replace (matchAt (seqAll (Chr "{" :: spaces :: lit (dq "'label'") ++ rs))
             (String d (junk ++ s))) with (@None (string * Captures)); [now apply IH|].
  symmetry. destruct (Ascii.eqb_spec d "{") as [->|Hne].
  - unfold matchAt.
    change (seqAll (Chr "{" :: ?k)) with (Seq (Chr "{") (seqAll k)).
    rewrite matchRe_seq, matchRe_chr_yes. cbn [flat_map fst snd].
    now rewrite startsNoRecord_fails.
  - apply matchAt_wrong_start. rewrite Ascii.eqb_sym. now apply Ascii.eqb_neq.
Qed.

Lemma exec_empty (c : ascii) (rs : list Regex) : exec (seqAll (Chr c :: rs)) "" = None.
Proof. reflexivity. Qed.

Lemma exec_found (r : Regex) (s rest : string) (caps : Captures) :
  matchAt r s = Some (rest, caps) -> exec r s = Some (consumed s rest, caps, rest).
Proof. destruct s; simpl; now intros ->. Qed.

Lemma without_occurrence (c : ascii) (u rest : string) :
  without c (u ++ String c rest) = false.
Proof.
  unfold without. rewrite allChars_app. simpl. rewrite Ascii.eqb_refl. simpl.
  apply andb_false_r.
Qed.

(** A text without the last character of a pattern holds no match. *)
Lemma exec_none (ch : ascii) (rs : list Regex) (s : string) :
  without ch s = true -> exec (seqAll (rs ++ [Chr ch])) s = None.
Proof.
  assert (Hat : forall t, without ch t = true -> matchAt (seqAll (rs ++ [Chr ch])) t = None).
  { intros t Ht. unfold matchAt.
    destruct (matchRe (seqAll (rs ++ [Chr ch])) t []) as [|found l] eqn:Hm; [reflexivity|].
    destruct (matchRe_last ch rs t [] found) as [u Hu]; [rewrite Hm; now left|].
    rewrite Hu, without_occurrence in Ht. discriminate. }
  induction s as [|c s IH]; intros Hs.
  - simpl. now rewrite Hat.
  - cbn [exec]. rewrite (Hat _ Hs). apply IH.
    unfold without in *. simpl in Hs. now apply andb_true_iff in Hs as [_ Hs].
Qed.

End RegexFacts.

(** ** Recovery: responses on the template *)
Module TemplateFacts.
Import Js Json Regex Recovery Template RegexFacts DoubleEncodingFacts.
Local Open Scope list_scope.
Local Open Scope nat_scope.

Lemma objectPattern_tokens :
  objectFront ++ [Chr "}"] =
  Chr "{" :: spaces :: lit (dq "'label'") ++
  spaces :: Chr ":" :: spaces :: Chr quoteChar :: Group 1 (stringBody 2) :: Chr quoteChar ::
  spaces :: Chr "," :: spaces :: lit (dq "'insight'") ++
  spaces :: Chr ":" :: spaces :: Chr quoteChar :: Group 3 (stringBody 4) :: Chr quoteChar ::
  spaces :: Chr "," :: spaces :: lit (dq "'timestamps'") ++
  spaces :: Chr ":" :: spaces :: Chr "[" :: Group 5 (Star false (Cls dot)) :: Chr "]" ::
  spaces :: [Chr "}"].
Proof. reflexivity. Qed.

Lemma renderStamps_after (filler : string) (stamps : list string) (after : string) :
  renderStamps filler stamps after = (renderStamps filler stamps "" ++ after)%string.
Proof.
  induction stamps as [|t [|t' rest] IH]; simpl in *.
  - reflexivity.
  - now rewrite append_assoc.
  - rewrite IH. simpl. rewrite !append_assoc. simpl. now rewrite append_assoc.
Qed.

Lemma stampChar_dot (s : string) : allChars stampChar s = true -> allChars dot s = true.
Proof.
  apply allChars_weaken. intros c Hc. unfold stampChar in Hc.
  now apply andb_true_iff in Hc as [_ Hd].
Qed.

Lemma stampChar_unquoted (s : string) :
  allChars stampChar s = true -> without quoteChar s = true.
Proof.
  apply allChars_weaken. intros c Hc. unfold stampChar in Hc.
  now apply andb_true_iff in Hc as [Hq _].
Qed.

Lemma stampText_chars (t : string) :
  stampText t = true ->
  allChars dot t = true /\ without quoteChar t = true /\ t <> EmptyString.
Proof.
  unfold stampText. intros H. apply andb_true_iff in H as [Hn Hc].
  repeat split; [now apply stampChar_dot | now apply stampChar_unquoted|].
  intros ->. discriminate Hn.
Qed.

Lemma renderStamps_body (filler : string) (stamps : list string) :
  fillerText filler = true -> forallb stampText stamps = true ->
  allChars dot (renderStamps filler stamps "") = true.
Proof.
  intros Hf. apply stampChar_dot in Hf.
  induction stamps as [|t [|t' rest] IH]; intros Hs; [reflexivity| |].
  - simpl in Hs. apply andb_true_iff in Hs as [Ht _].
    destruct (stampText_chars _ Ht) as (Hb & _ & _).
    cbn [renderStamps allChars]. rewrite allChars_app, Hb. reflexivity.
  - cbn [forallb] in Hs. apply andb_true_iff in Hs as [Ht Hs].
    destruct (stampText_chars _ Ht) as (Hb & _ & _).
    change (renderStamps filler (t :: t' :: rest) "")
      with (String quoteChar (t ++ String quoteChar
              (filler ++ renderStamps filler (t' :: rest) ""))).
    cbn [allChars]. rewrite allChars_app, Hb. cbn [allChars].
    rewrite allChars_app, Hf, (IH Hs). reflexivity.
Qed.

(** What [templateRecord] asks of a written record, piece by piece. *)
Lemma templateRecord_parts (w : Written) :
  templateRecord w = true ->
  (forall i, i < 12 -> whiteSpace (w_gaps w i) = true) /\
  stringText (label (w_takeaway w)) = true /\
  stringText (insight (w_takeaway w)) = true /\
  fillerText (w_filler w) = true /\
  forallb stampText (timestamps (w_takeaway w)) = true /\
  noEarlyClose (renderStamps (w_filler w) (timestamps (w_takeaway w)) "") = true /\
  quiet (w_framing w) = true.
Proof.
  unfold templateRecord. intros H.
  apply andb_true_iff in H as [H Hq]. apply andb_true_iff in H as [H Hclose].
  apply andb_true_iff in H as [H Hstamps]. apply andb_true_iff in H as [H Hfiller].
  apply andb_true_iff in H as [H Hinsight]. apply andb_true_iff in H as [Hgaps Hlabel].
  repeat split; try assumption.
  intros i Hi. rewrite forallb_forall in Hgaps. apply Hgaps, in_seq. lia.
Qed.

(** At the first character of a record on the template the pattern matches
    the whole record, with the label, the insight and the text between the
    brackets as groups 1, 3 and 5. *)
Lemma matchAt_render (w : Written) (after : string) :
  templateRecord w = true ->
  exists caps,
    matchAt objectPattern (render (w_gaps w) (w_filler w) (w_takeaway w) after) =
      Some (after, caps) /\
    capture 1 caps = Some (label (w_takeaway w)) /\
    capture 3 caps = Some (insight (w_takeaway w)) /\
    capture 5 caps = Some (renderStamps (w_filler w) (timestamps (w_takeaway w)) "").
Proof.
  intros Hw.
  destruct (templateRecord_parts w Hw)
    as (Hgap & Hlabel & Hinsight & Hfiller & Hstamps & Hclose & _).
  destruct (M_body 1 2 (label (w_takeaway w)) Hlabel) as (extra1 & Hex1 & Hb1).
  destruct (M_body 3 4 (insight (w_takeaway w)) Hinsight) as (extra3 & Hex3 & Hb3).
  exists ((5, renderStamps (w_filler w) (timestamps (w_takeaway w)) "") ::
          (3, insight (w_takeaway w)) :: extra3 ++
          (1, label (w_takeaway w)) :: extra1 ++ []).
  split; [|split; [|split]].
  - unfold matchAt, objectPattern, render. rewrite objectPattern_tokens.
    rewrite (renderStamps_after (w_filler w) (timestamps (w_takeaway w))).
    apply M_chr. apply M_spaces; [apply Hgap; lia | reflexivity|]. apply M_lit.
    apply M_spaces; [apply Hgap; lia | reflexivity|]. apply M_chr.
    apply M_spaces; [apply Hgap; lia | reflexivity|]. apply M_chr.
    apply Hb1. apply M_chr.
    apply M_spaces; [apply Hgap; lia | reflexivity|]. apply M_chr.
    apply M_spaces; [apply Hgap; lia | reflexivity|]. apply M_lit.
    apply M_spaces; [apply Hgap; lia | reflexivity|]. apply M_chr.
    apply M_spaces; [apply Hgap; lia | reflexivity|]. apply M_chr.
    apply Hb3. apply M_chr.
    apply M_spaces; [apply Hgap; lia | reflexivity|]. apply M_chr.
    apply M_spaces; [apply Hgap; lia | reflexivity|]. apply M_lit.
    apply M_spaces; [apply Hgap; lia | reflexivity|]. apply M_chr.
    apply M_spaces; [apply Hgap; lia | reflexivity|]. apply M_chr.
    apply M_lazy; [now apply renderStamps_body | exact Hclose|].
    apply M_spaces; [apply Hgap; lia | reflexivity|]. apply M_chr.
    apply M_done.
  - cbn [capture Nat.eqb]. rewrite capture_skip; [cbn [capture Nat.eqb]; reflexivity|].
    eapply Forall_impl; [exact Hex3|]. intros e He. rewrite He. discriminate.
  - reflexivity.
  - reflexivity.
Qed.

End TemplateFacts.

(** ** Recovery: the scan over a response on the template *)
Module ScanFacts.
Import Js Json Regex Recovery Template RegexFacts TemplateFacts.
Local Open Scope list_scope.
Local Open Scope nat_scope.

Lemma renderStamps_cons (filler t : string) (rest : list string) :
  renderStamps filler (t :: rest) "" =
  String quoteChar (t ++ String quoteChar
    ((match rest with [] => EmptyString | _ => filler end) ++
     renderStamps filler rest "")).
Proof. destruct rest; reflexivity. Qed.

Lemma renderStamps_length (filler : string) (stamps : list string) :
  length stamps <= String.length (renderStamps filler stamps "").
Proof.
  induction stamps as [|t rest IH]; [simpl; lia|].
  rewrite renderStamps_cons. cbn [String.length length].
  rewrite length_append. cbn [String.length]. rewrite length_append. lia.
Qed.

(** One timestamp in its quotes is matched whole, with its text as group 1. *)
Lemma matchAt_stamp (t rest : string) :
  without quoteChar t = true -> t <> EmptyString ->
  matchAt timestampPattern (String quoteChar (t ++ String quoteChar rest)) =
    Some (rest, [(1, t)]).
Proof.
  intros Ht Hne. destruct t as [|c t]; [congruence|].
  unfold without in Ht. cbn [allChars] in Ht. apply andb_true_iff in Ht as [Hc Ht].
  unfold matchAt, timestampPattern. apply M_chr.
  apply M_step with (s1 := String quoteChar rest) (c1 := [(1, String c t)]).
  - change (String c t ++ String quoteChar rest)%string
      with (String c (t ++ String quoteChar rest)).
    rewrite matchRe_group, matchRe_seq, matchRe_cls_yes by exact Hc.
    cbn [flat_map fst snd]. rewrite app_nil_r.
    erewrite head_map.
    2:{ apply greedy_run; [exact Ht|]. cbn [stopsAt]. now rewrite Ascii.eqb_refl. }
    cbn [fst snd].
    change (String c (t ++ String quoteChar rest))
      with (String c t ++ String quoteChar rest)%string.
    now rewrite consumed_app.
  - apply M_chr. apply M_done.
Qed.

Lemma matchGlobal_skip (fuel : nat) (junk s : string) :
  without quoteChar junk = true ->
  matchGlobal fuel timestampPattern (junk ++ s) = matchGlobal fuel timestampPattern s.
Proof.
  intros Hj. destruct fuel; [reflexivity|]. cbn [matchGlobal].
  unfold timestampPattern. now rewrite exec_skip.
Qed.

Lemma matchGlobal_empty (fuel : nat) : matchGlobal fuel timestampPattern "" = [].
Proof. destruct fuel; reflexivity. Qed.

(** The pattern of timestamps finds, between the brackets of a record on
    the template, each timestamp in its quotes, in order. *)
Lemma matchGlobal_stamps (filler : string) (stamps : list string) (fuel : nat) :
  fillerText filler = true -> forallb stampText stamps = true ->
  length stamps < fuel ->
  matchGlobal fuel timestampPattern (renderStamps filler stamps "") = map quoted stamps.
Proof.
  intros Hf. apply stampChar_unquoted in Hf.
  revert fuel. induction stamps as [|t rest IH]; intros fuel Hs Hfuel.
  - apply matchGlobal_empty.
  - cbn [forallb] in Hs. apply andb_true_iff in Hs as [Ht Hs].
    destruct (stampText_chars _ Ht) as (_ & Hq & Hne).
    destruct fuel as [|fuel]; [lia|]. cbn [length] in Hfuel.
    rewrite renderStamps_cons. cbn [matchGlobal map].
    erewrite exec_found.
    2:{ apply matchAt_stamp; [exact Hq | exact Hne]. }
    f_equal.
    + set (after := (_ ++ renderStamps filler rest "")%string).
      change (String quoteChar (t ++ String quoteChar after))
        with (String quoteChar (t ++ String quoteChar (EmptyString ++ after))).
      change (String quoteChar (t ++ String quoteChar ("" ++ after)))
        with (String quoteChar (t ++ (String quoteChar "" ++ after))).
      rewrite <- append_assoc.
      change (String quoteChar ((t ++ String quoteChar "") ++ after))
        with (quoted t ++ after)%string.
      apply consumed_app.
    + rewrite matchGlobal_skip by (destruct rest; [reflexivity | exact Hf]).
      apply IH; [exact Hs | lia].
Qed.

Lemma removeQuotes_quoted (t : string) :
  without quoteChar t = true -> removeQuotes (quoted t) = t.
Proof.
  intros Ht. unfold quoted. cbn [removeQuotes]. rewrite Ascii.eqb_refl.
  induction t as [|c t IH].
  - cbn [append removeQuotes]. now rewrite Ascii.eqb_refl.
  - unfold without in Ht. cbn [allChars] in Ht. apply andb_true_iff in Ht as [Hc Ht].
    apply negb_true_iff in Hc. cbn [append removeQuotes]. rewrite Hc. f_equal.
    now apply IH.
Qed.

Lemma removeQuotes_stamps (stamps : list string) :
  forallb stampText stamps = true ->
  map removeQuotes (map quoted stamps) = stamps.
Proof.
  induction stamps as [|t rest IH]; intros Hs; [reflexivity|].
  cbn [forallb] in Hs. apply andb_true_iff in Hs as [Ht Hs].
  destruct (stampText_chars _ Ht) as (_ & Hq & _).
  cbn [map]. now rewrite removeQuotes_quoted, IH.
Qed.

Section TemplateScan.
Variable JSON_parse : string -> option JSON.

(** The captures of a record on the template decode to what [recovered]
    makes of the record. *)
Lemma decodeMatch_render (w : Written) (caps : Captures) :
  templateRecord w = true ->
  capture 1 caps = Some (label (w_takeaway w)) ->
  capture 3 caps = Some (insight (w_takeaway w)) ->
  capture 5 caps = Some (renderStamps (w_filler w) (timestamps (w_takeaway w)) "") ->
  decodeMatch JSON_parse caps = recovered JSON_parse (w_takeaway w).
Proof.
  intros Hw H1 H3 H5.
  destruct (templateRecord_parts w Hw) as (_ & _ & _ & Hfiller & Hstamps & _ & _).
  unfold decodeMatch, recovered. rewrite H1, H3, H5.
  rewrite matchGlobal_stamps
    by (try assumption;
        pose proof (renderStamps_length (w_filler w) (timestamps (w_takeaway w))); lia).
  rewrite removeQuotes_stamps by exact Hstamps.
  destruct (JSON_parse (quote ++ label (w_takeaway w) ++ quote)%string) as [[]|];
    try reflexivity.
  destruct (JSON_parse (quote ++ insight (w_takeaway w) ++ quote)%string) as [[]|];
    try reflexivity.
  destruct (tidyTimestamps (timestamps (w_takeaway w))); reflexivity.
Qed.

(** The search finds nothing in a tail that is quiet or holds no closing
    brace. *)
Lemma exec_tail (tail : string) :
  quiet tail || without "}" tail = true -> exec objectPattern tail = None.
Proof.
  intros Htail. apply orb_true_iff in Htail as [Hq|Hb].
  - unfold objectPattern. rewrite objectPattern_tokens.
    rewrite <- (append_nil_r tail). now rewrite exec_quiet.
  - unfold objectPattern. now apply exec_none.
Qed.

(** The scan over records on the template: it adds what it recovers of
    them to the takeaways it starts from, and stops at six. *)
Lemma scan_renderAll (records : list Written) (tail : string) :
  forallb templateRecord records = true ->
  quiet tail || without "}" tail = true ->
  forall (fuel : nat) (pre : string) (takeaways : list StructuredTakeaway),
    quiet pre = true ->
    length records < fuel ->
    length takeaways < 6 ->
    scan JSON_parse fuel (pre ++ renderAll records tail) takeaways
    = Some (take 6 (takeaways ++
                    omap (fun w => recovered JSON_parse (w_takeaway w)) records)).
Proof.
  intros Hrecords Htail.
  induction records as [|w rest IH]; intros fuel pre takeaways Hpre Hfuel Hroom.
  - destruct fuel as [|fuel]; [simpl in Hfuel; lia|].
    cbn [scan renderAll omap]. unfold objectPattern at 1. rewrite objectPattern_tokens.
    rewrite exec_quiet by exact Hpre. rewrite <- objectPattern_tokens.
    fold objectPattern. rewrite exec_tail by exact Htail.
    rewrite app_nil_r, take_ge by lia. reflexivity.
  - cbn [forallb] in Hrecords. apply andb_true_iff in Hrecords as [Hw Hrest].
    destruct fuel as [|fuel]; [simpl in Hfuel; lia|]. cbn [length] in Hfuel.
    cbn [scan renderAll]. unfold objectPattern at 1. rewrite objectPattern_tokens.
    rewrite exec_quiet by exact Hpre. rewrite <- objectPattern_tokens.
    fold objectPattern.
    destruct (matchAt_render w (w_framing w ++ renderAll rest tail) Hw)
      as (caps & Hmatch & H1 & H3 & H5).
    rewrite (exec_found _ _ _ _ Hmatch).
    rewrite (decodeMatch_render w caps Hw H1 H3 H5).
    destruct (templateRecord_parts w Hw) as (_ & _ & _ & _ & _ & _ & Hframing).
    change (omap (fun w0 => recovered JSON_parse (w_takeaway w0)) (w :: rest))
      with (match recovered JSON_parse (w_takeaway w) with
            | Some found =>
                found :: omap (fun w0 => recovered JSON_parse (w_takeaway w0)) rest
            | None => omap (fun w0 => recovered JSON_parse (w_takeaway w0)) rest
            end).
    destruct (recovered JSON_parse (w_takeaway w)) as [found|].
    + replace (takeaways ++ found ::
                 omap (fun w0 => recovered JSON_parse (w_takeaway w0)) rest)
        with ((takeaways ++ [found]) ++
              omap (fun w0 => recovered JSON_parse (w_takeaway w0)) rest)
        by now rewrite <- app_assoc.
      destruct (Nat.leb_spec 6 (length (takeaways ++ [found]))) as [Hfull|Hmore].
      * rewrite take_app_le by exact Hfull.
        rewrite length_app in Hfull. cbn [length] in Hfull.
        rewrite take_ge by (rewrite length_app; cbn [length]; lia). reflexivity.
      * apply IH; [exact Hrest | exact Hframing | lia | exact Hmore].
    + apply IH; [exact Hrest | exact Hframing | lia | exact Hroom].
Qed.

End TemplateScan.

End ScanFacts.

(** ** Recovery: the result for a response on the template *)
Module RecoveryFacts.
Import Js Json Regex Recovery Template RegexFacts TemplateFacts ScanFacts.
Local Open Scope list_scope.
Local Open Scope nat_scope.

Lemma render_length (gap : nat -> string) (filler : string) (r : StructuredTakeaway)
    (after : string) :
  String.length after < String.length (render gap filler r after).
Proof.
  unfold render. rewrite renderStamps_after.
  repeat first [rewrite length_append | progress cbn [String.length]]. lia.
Qed.

Lemma renderAll_length (records : list Written) (tail : string) :
  length records <= String.length (renderAll records tail).
Proof.
  induction records as [|w rest IH]; cbn [renderAll length]; [lia|].
  pose proof (render_length (w_gaps w) (w_filler w) (w_takeaway w)
                (w_framing w ++ renderAll rest tail)) as Hlen.
  rewrite length_append in Hlen. lia.
Qed.

(** Every match of the pattern ends in a closing brace, so what remains
    after it is shorter than the text searched. *)
Lemma exec_rest_shorter (ch : ascii) (rs : list Regex) (s text rest : string)
    (caps : Captures) :
  exec (seqAll (rs ++ [Chr ch])) s = Some (text, caps, rest) ->
  String.length rest < String.length s.
Proof.
  assert (Hat : forall s0 rest0 caps0,
             matchAt (seqAll (rs ++ [Chr ch])) s0 = Some (rest0, caps0) ->
             String.length rest0 < String.length s0).
  { intros s0 rest0 caps0. unfold matchAt.
    destruct (matchRe (seqAll (rs ++ [Chr ch])) s0 []) as [|found others] eqn:Hall;
      [discriminate|].
    intros [= ->].
    destruct (matchRe_last ch rs s0 [] (rest0, caps0)) as [u ->];
      [rewrite Hall; now left|].
    rewrite length_append. cbn [fst String.length]. lia. }
  induction s as [|c s IH]; cbn [exec].
  - destruct (matchAt _ "") as [[rest0 caps0]|] eqn:Hm; [|discriminate].
    intros [= _ _ <-]. now apply Hat in Hm.
  - destruct (matchAt _ (String c s)) as [[rest0 caps0]|] eqn:Hm.
    + intros [= _ _ <-]. now apply Hat in Hm.
    + intros Hexec. apply IH in Hexec. cbn [String.length]. lia.
Qed.

(** The scan ends: as many iterations as the text has characters, and one
    more, are enough whatever [JSON.parse] does. *)
Lemma scan_total (JSON_parse : string -> option JSON) (fuel : nat) :
  forall (raw : string) (takeaways : list StructuredTakeaway),
    String.length raw < fuel -> scan JSON_parse fuel raw takeaways <> None.
Proof.
  induction fuel as [|fuel IH]; intros raw takeaways Hfuel; [lia|].
  cbn [scan].
  destruct (exec objectPattern raw) as [[[text caps] rest]|] eqn:Hexec; [|discriminate].
  apply exec_rest_shorter in Hexec.
  destruct (decodeMatch JSON_parse caps) as [takeaway|].
  - destruct (6 <=? length (takeaways ++ [takeaway])); [discriminate|]. apply IH. lia.
  - apply IH. lia.
Qed.

Lemma recoverPartialTakeaways_total (JSON_parse : string -> option JSON) (raw : string) :
  recoverPartialTakeaways JSON_parse raw <> None.
Proof.
  unfold recoverPartialTakeaways.
  destruct (doubleEncoded JSON_parse raw) as [takeaways|takeaways]; [discriminate|].
  pose proof (scan_total JSON_parse (S (String.length raw)) raw takeaways) as Hscan.
  destruct (scan JSON_parse (S (String.length raw)) raw takeaways); [discriminate|].
  exfalso. apply Hscan; [lia | reflexivity].
Qed.

Section TemplateRecovery.
Variable JSON_parse : string -> option JSON.

(** C8, amended.  Take a response made of quiet text, then records on the
    template, each followed by quiet text, then a tail that is quiet or
    holds no closing brace, such as a record cut off.  Quiet text is text
    in which every opening brace is followed, white space apart, by
    something else than the key label: a bracket, commas, prose, the
    opening of an object that holds the array.  A record on the template
    has the three keys in their order, white space at most between its
    tokens, a label and an insight written as string bodies with or without
    escapes, and between the brackets, on one line, any number of
    timestamps in double quotes, each of one character at least, with no
    closing bracket followed by a closing brace.  Let the first stage be
    passed by, or fail to read the response as an array.  Then
    [recoverPartialTakeaways] goes through the records in order and
    recovers one takeaway of each record whose label and insight
    [JSON.parse] reads and that has a timestamp which is not blank: the
    label and the insight as read and trimmed, and the first two
    timestamps that are not blank, trimmed.  It makes nothing of the other
    records, of the text between the records and of the tail; it stops at
    six takeaways, and returns [null] when it has found fewer than
    four. *)
Theorem template_records_recovered (pre tail : string) (records : list Written) :
  quiet pre = true ->
  forallb templateRecord records = true ->
  quiet tail || without "}" tail = true ->
  let raw := (pre ++ renderAll records tail)%string in
  (startsWith (trim raw) "[" && includes (trim raw) marker = false \/
   forall items, JSON_parse (trim raw) <> Some (JArray items)) ->
  let found := take 6 (omap (fun w => recovered JSON_parse (w_takeaway w)) records) in
  recoverPartialTakeaways JSON_parse raw =
    Some (if 4 <=? length found then Some found else None).
Proof.
  intros Hpre Hrecords Htail raw Hfirst found.
  assert (Hstage : doubleEncoded JSON_parse raw = FellThrough []).
  { unfold doubleEncoded. destruct Hfirst as [->|Hparse]; [reflexivity|].
    destruct (startsWith (trim raw) "[" && includes (trim raw) marker); [|reflexivity].
    destruct (JSON_parse (trim raw)) as [[]|]; try reflexivity.
    now destruct (Hparse items). }
  unfold recoverPartialTakeaways. rewrite Hstage. subst raw.
  rewrite (scan_renderAll JSON_parse records tail Hrecords Htail).
  - reflexivity.
  - exact Hpre.
  - rewrite length_append. pose proof (renderAll_length records tail). lia.
  - cbn [length]. lia.
Qed.

End TemplateRecovery.

End RecoveryFacts.

(** ** Recovery: examples *)
Module RecoveryExamples.
Import Js Json Regex Recovery Template RecoveryScenario.
Local Open Scope list_scope.
Local Open Scope nat_scope.

(** Two responses on the template.  The array of four records without
    its closing bracket, followed by a fifth record cut off: the four come
    back, the fifth does not.  And five records with blanks between their
    tokens, in an object that holds the array: four come back, the label
    of the first with its escapes read, and nothing of the record without
    a timestamp. *)
Lemma template_records_recovered_witness :
  (let found := take 6 (omap (fun w => recovered parseJson (w_takeaway w))
                             (map (compactly ",") written)) in
   recoverPartialTakeaways parseJson truncatedResponse =
     Some (if 4 <=? length found then Some found else None)) /\
  (let found := take 6 (omap (fun w => recovered parseJson (w_takeaway w)) wrapped) in
   recoverPartialTakeaways parseJson wrappedResponse =
     Some (if 4 <=? length found then Some found else None)).
Proof.
  split.
  - apply (RecoveryFacts.template_records_recovered parseJson "[" cutOff
             (map (compactly ",") written)).
    + reflexivity.
    + reflexivity.
    + reflexivity.
    + left. vm_compute. reflexivity.
  - apply (RecoveryFacts.template_records_recovered parseJson (dq "{'takeaways': [") cutOff
             wrapped).
    + reflexivity.
    + vm_compute. reflexivity.
    + reflexivity.
    + left. vm_compute. reflexivity.
Defined.

(** The two responses, computed. *)
Example recovered_from_truncated_and_wrapped :
  recoverPartialTakeaways parseJson truncatedResponse = Some (Some returned) /\
  recoverPartialTakeaways parseJson wrappedResponse = Some (Some unwrapped).
Proof. split; vm_compute; reflexivity. Qed.

(** C8, as stated, fails.  In the first response the third record is cut
    off inside its timestamps and complete records follow: the pattern
    takes the text from its opening brace to the closing brace of the
    fourth record as one record, so that what comes back holds a takeaway
    C whose timestamps are no timestamps of the response, and nothing of
    the complete record D.  In the second response four complete records
    stand, the first with an empty array of timestamps: the loop passes
    over it, three takeaways are found and [null] is returned. *)
Lemma cut_off_record_takes_the_next :
  parseJson (dq "{'label':'D','insight':'delta','timestamps':['00:50']}") =
    Some (JObject [("label", JString "D"); ("insight", JString "delta");
                   ("timestamps", JArray [JString "00:50"])]) /\
  recoverPartialTakeaways parseJson interruptedResponse =
    Some (Some [ {| label := "A"; insight := "alpha"; timestamps := ["00:10"] |};
                 {| label := "B"; insight := "beta"; timestamps := ["00:20"] |};
                 {| label := "C"; insight := "gamma"; timestamps := ["00:4{"; ":"] |};
                 {| label := "E"; insight := "epsilon"; timestamps := ["00:60"] |} ]) /\
  parseJson (dq "{'label':'A','insight':'alpha','timestamps':[]}") =
    Some (JObject [("label", JString "A"); ("insight", JString "alpha");
                   ("timestamps", JArray [])]) /\
  recoverPartialTakeaways parseJson untimedResponse = Some None.
Proof. repeat split; vm_compute; reflexivity. Qed.

(** Four complete records whose arrays of timestamps are written over
    several lines, each record a JSON object by itself: the pattern does
    not take a line terminator between the brackets, and nothing is
    recovered. *)
Example pretty_printed_arrays_not_recovered :
  parseJson (prettyRecord "A" "alpha" "00:10") =
    Some (JObject [("label", JString "A"); ("insight", JString "alpha");
                   ("timestamps", JArray [JString "00:10"])]) /\
  recoverPartialTakeaways parseJson prettyResponse = Some None.
Proof. split; vm_compute; reflexivity. Qed.

(** Takeaways that the first stage decoded without reaching four stay in
    the list that the scan adds to: here three encoded takeaways and one
    plain record make four, the plain one last although it is written
    first. *)
Example leftovers_of_first_stage_are_kept :
  doubleEncoded parseJson mixedResponse =
    FellThrough [ {| label := "A"; insight := "a"; timestamps := ["0:01"] |};
                  {| label := "B"; insight := "b"; timestamps := ["0:01"] |};
                  {| label := "C"; insight := "c"; timestamps := ["0:01"] |} ] /\
  recoverPartialTakeaways parseJson mixedResponse =
    Some (Some [ {| label := "A"; insight := "a"; timestamps := ["0:01"] |};
                 {| label := "B"; insight := "b"; timestamps := ["0:01"] |};
                 {| label := "C"; insight := "c"; timestamps := ["0:01"] |};
                 {| label := "D"; insight := "d"; timestamps := ["0:04"] |} ]).
Proof. split; vm_compute; reflexivity. Qed.


End RecoveryExamples.

(** ** The registry: resolution, cache and the shape of a call *)
Module ResolutionFacts.
Import Js Providers Registry Trace JsFacts RegistryFacts OrchestratorFacts.
Local Open Scope list_scope.

Lemma keyOfName_nonEmpty (name : string) (key : ProviderKey) :
  keyOfName name = Some key -> nonEmpty name = true.
Proof. destruct name; [discriminate | reflexivity]. Qed.

Lemma resolve_named (name : string) (key : ProviderKey) (env : Env) :
  keyOfName name = Some key -> resolveProviderKey (Some name) env = key.
Proof.
  intros Hk. unfold resolveProviderKey.
  destruct name as [|c name]; [discriminate|].
  change (default "" (Some (String c name))) with (String c name).
  cbn [set nonEmpty]. now rewrite Hk.
Qed.

Lemma keyOfName_keyName (name : string) (key : ProviderKey) :
  keyOfName name = Some key -> keyName key = name.
Proof.
  unfold keyOfName.
  destruct (String.eqb_spec name "grok") as [->|_]; [now intros [= <-]|].
  destruct (String.eqb_spec name "gemini") as [->|_]; [now intros [= <-]|].
  destruct (String.eqb_spec name "claude") as [->|_]; [now intros [= <-]|discriminate].
Qed.

Lemma inProviderFactories_own (name : string) :
  existsb (String.eqb name) RegistryNames.objectPrototypeNames = false ->
  RegistryNames.inProviderFactories name =
    match keyOfName name with Some _ => true | None => false end.
Proof.
  intros Hown. unfold RegistryNames.inProviderFactories, keyOfName. rewrite Hown.
  cbn [providerKeys map keyName existsb].
  destruct (String.eqb name "grok"), (String.eqb name "gemini"), (String.eqb name "claude");
    reflexivity.
Qed.

(** X1.  [resolveProviderKey] returns a preference ([preferred], else
    AI_PROVIDER, else NEXT_PUBLIC_AI_PROVIDER, the first that is not
    undefined) as it is when it is not empty and [in providerFactories]:
    one of the three keys, or a name the table inherits from
    [Object.prototype].  Otherwise it resolves to grok when XAI_API_KEY is
    set, else to gemini when GEMINI_API_KEY is set, else to claude: the
    first entry of [availableProviders], so that the default at its end is
    never reached.  Unless the preference is an inherited name, what it
    returns is the name of the key that [Registry.resolveProviderKey]
    gives. *)
Theorem resolveProviderKey_priority (preferred : option string) (env : Env) :
  let envPreference :=
    match preferred with
    | Some p => Some p
    | None => match AI_PROVIDER env with
              | Some p => Some p
              | None => NEXT_PUBLIC_AI_PROVIDER env
              end
    end in
  let byGuards :=
    if set (XAI_API_KEY env) then grok
    else if set (GEMINI_API_KEY env) then gemini else claude in
  (forall p, envPreference = Some p -> nonEmpty p = true ->
             RegistryNames.inProviderFactories p = true ->
             RegistryNames.resolveProviderKey preferred env = p) /\
  ((forall p, envPreference = Some p ->
              nonEmpty p && RegistryNames.inProviderFactories p = false) ->
   RegistryNames.resolveProviderKey preferred env = keyName byGuards /\
   head (availableProviders env) = Some byGuards) /\
  ((forall p, envPreference = Some p ->
              existsb (String.eqb p) RegistryNames.objectPrototypeNames = false) ->
   RegistryNames.resolveProviderKey preferred env =
     keyName (Registry.resolveProviderKey preferred env)).
Proof.
  intros envPreference byGuards.
  pose proof (claude_guard_set env) as Hc.
  assert (Hfall :
    (if set (providerEnvGuards grok env) then "grok"
     else if set (providerEnvGuards gemini env) then "gemini"
     else if set (providerEnvGuards claude env) then "claude" else "grok") =
    keyName byGuards).
  { rewrite Hc. subst byGuards. cbn [providerEnvGuards].
    destruct (set (XAI_API_KEY env)), (set (GEMINI_API_KEY env)); reflexivity. }
  assert (Htyped :
    (if set (providerEnvGuards grok env) then grok
     else if set (providerEnvGuards gemini env) then gemini
     else if set (providerEnvGuards claude env) then claude else grok) = byGuards).
  { rewrite Hc. reflexivity. }
  unfold RegistryNames.resolveProviderKey, Registry.resolveProviderKey.
  fold envPreference. rewrite Hfall, Htyped. clearbody envPreference.
  split; [|split].
  - intros p -> Hp Hin. now rewrite Hp, Hin.
  - intros Hnot. split.
    + destruct envPreference as [p|]; [|reflexivity]. now rewrite (Hnot p eq_refl).
    + unfold availableProviders, providerKeys.
      rewrite !filter_cons, filter_nil. rewrite Hc. subst byGuards.
      cbn [providerEnvGuards].
      destruct (set (XAI_API_KEY env)), (set (GEMINI_API_KEY env)); reflexivity.
  - intros Hown. destruct envPreference as [p|]; [|reflexivity].
    rewrite (inProviderFactories_own p (Hown p eq_refl)). cbn [set].
    destruct p as [|c p]; [reflexivity|].
    change (default "" (Some (String c p))) with (String c p). cbn [nonEmpty andb].
    destruct (keyOfName (String c p)) as [key|] eqn:Hkey.
    + symmetry. now apply keyOfName_keyName.
    + reflexivity.
Qed.

Section WithBackends.
Context {World : Type} {backends : Backends World}.

(** X2.  A preference that names a provider whose guard is not set is not
    replaced by a provider that is configured: unless the adapter is in
    the cache, [getProvider] throws the error that the provider is not
    configured, and [generateStructuredContent] throws it too, having
    invoked no adapter and changed nothing. *)
Theorem unconfigured_preference_is_not_replaced (name : string) (key : ProviderKey)
    (rest : ProviderGenerateParams) (env : Env) (m : Machine World) :
  keyOfName name = Some key ->
  set (providerEnvGuards key env) = false ->
  providerCache m key = false ->
  getProvider (Some name) env m = (Threw (notConfigured key), m) /\
  generateStructuredContent (Some name) rest env m = (Threw (notConfigured key), m).
Proof.
  intros Hname Hguard Hcache.
  assert (Hget : getProvider (Some name) env m = (Threw (notConfigured key), m)).
  { unfold getProvider. rewrite (resolve_named _ _ env Hname).
    unfold ensureProvider. now rewrite Hcache, Hguard. }
  split; [exact Hget|].
  unfold generateStructuredContent, bind. now rewrite Hget.
Qed.

(** X3.  [ensureProvider] reads the guard and runs the factory only on a
    miss of the cache: once it has returned the adapter of a key, it
    returns it again under every environment, also one in which the key's
    variable is gone, and leaves the state as it is.  The first call
    touches the cache at that key only. *)
Theorem cached_adapter_outlives_its_key (key adapter : ProviderKey) (env env' : Env)
    (m m1 : Machine World) :
  ensureProvider key env m = (Returned adapter, m1) ->
  adapter = key /\
  ensureProvider key env' m1 = (Returned key, m1) /\
  providerCache m1 key = true /\
  (forall other, other <> key -> providerCache m1 other = providerCache m other) /\
  world m1 = world m /\ trace m1 = trace m.
Proof.
  unfold ensureProvider. destruct (providerCache m key) eqn:Hc.
  - intros [= <- <-]. rewrite Hc. repeat split; reflexivity || assumption.
  - destruct (negb (set (providerEnvGuards key env))); [discriminate|].
    destruct (providerFactories key env); [discriminate|].
    intros [= <- <-]. cbn [providerCache world trace].
    rewrite bool_decide_eq_true_2 by reflexivity.
    repeat split; try reflexivity.
    intros other Hne. now rewrite bool_decide_eq_false_2.
Qed.

Lemma ensureProvider_cases (key : ProviderKey) (env : Env) (m : Machine World) :
  (exists m1, ensureProvider key env m = (Returned key, m1) /\ trace m1 = trace m) \/
  (exists e, ensureProvider key env m = (Threw e, m)).
Proof.
  unfold ensureProvider. destruct (providerCache m key); [left; eauto|].
  destruct (negb (set (providerEnvGuards key env))); [right; eauto|].
  destruct (providerFactories key env); [right; eauto | left; eauto].
Qed.

(** X4.  The adapters that one call of [generateStructuredContent]
    invokes: none, when the primary adapter cannot be obtained; the primary
    one alone, in which case the call ends as that invocation ends; or the
    primary one and then one fallback, which happens only after the
    primary has thrown an error classified Retryable and with the provider
    that [getFallbackProvider] names.  Each receives the parameters of the
    call unchanged. *)
Theorem orchestrator_invokes_at_most_two (provider : option string)
    (rest : ProviderGenerateParams) (env : Env) (m : Machine World) :
  let primaryKey := resolveProviderKey provider env in
  let outcome := generateStructuredContent provider rest env m in
  (exists e, getProvider provider env m = (Threw e, m) /\ outcome = (Threw e, m)) \/
  (exists m1,
     getProvider provider env m = (Returned primaryKey, m1) /\
     outcome = adapterGenerate primaryKey rest m1 /\
     adapterCalls (trace (snd outcome)) = adapterCalls (trace m) ++ [(primaryKey, rest)]) \/
  (exists m1 m2 error fallbackKey,
     getProvider provider env m = (Returned primaryKey, m1) /\
     adapterGenerate primaryKey rest m1 = (Threw error, m2) /\
     Registry.isRetryableError error = true /\
     getFallbackProvider primaryKey env = Some fallbackKey /\
     fallbackKey <> primaryKey /\
     adapterCalls (trace (snd outcome)) =
       adapterCalls (trace m) ++ [(primaryKey, rest); (fallbackKey, rest)]).
Proof.
  intros primaryKey outcome.
  destruct (ensureProvider_cases primaryKey env m) as [(m1 & Hget & Htr1)|(e & Hget)].
  2:{ left. exists e. split; [exact Hget|]. subst outcome.
      unfold generateStructuredContent, bind. unfold getProvider. fold primaryKey.
      now rewrite Hget. }
  right.
  assert (Hcalls1 : adapterCalls (trace (snd (adapterGenerate primaryKey rest m1))) =
                    adapterCalls (trace m) ++ [(primaryKey, rest)])
    by (rewrite adapterGenerate_calls; now rewrite Htr1).
  assert (Hplain : outcome = adapterGenerate primaryKey rest m1 ->
            exists m1',
              getProvider provider env m = (Returned primaryKey, m1') /\
              outcome = adapterGenerate primaryKey rest m1' /\
              adapterCalls (trace (snd outcome)) =
                adapterCalls (trace m) ++ [(primaryKey, rest)]).
  { intros Hout. exists m1. split; [exact Hget|]. split; [exact Hout|].
    now rewrite Hout. }
  destruct (adapterGenerate primaryKey rest m1) as [c m2] eqn:Hgen.
  assert (Hbody : outcome =
            match c with
            | Threw error =>
                if Registry.isRetryableError error then
                  match getFallbackProvider primaryKey env with
                  | Some fallbackKey =>
                      tryCatch
                        (bind (ensureProvider fallbackKey env)
                              (fun fallbackAdapter => adapterGenerate fallbackAdapter rest))
                        (fun _ => throw error) m2
                  | None => (Threw error, m2)
                  end
                else (Threw error, m2)
            | other => (other, m2)
            end).
  { subst outcome. unfold generateStructuredContent, bind at 1.
    unfold getProvider in Hget. unfold getProvider. fold primaryKey. rewrite Hget.
    unfold tryCatch at 1. rewrite Hgen.
    destruct c as [r|error|]; try reflexivity.
    destruct (Registry.isRetryableError error); [|reflexivity].
    now destruct (getFallbackProvider primaryKey env). }
  destruct c as [r|error|]; try (left; apply Hplain; exact Hbody).
  destruct (Registry.isRetryableError error) eqn:Hretry;
    [|left; apply Hplain; exact Hbody].
  destruct (getFallbackProvider primaryKey env) as [fallbackKey|] eqn:Hfb;
    [|left; apply Hplain; exact Hbody].
  right. exists m1, m2, error, fallbackKey.
  destruct (getFallbackProvider_sound _ _ _ Hfb) as [Hne Hset].
  destruct (ensureProvider_configured fallbackKey env m2 Hset) as (m3 & Hens & _ & Htr3).
  repeat split; try assumption.
  rewrite Hbody. unfold tryCatch, bind. rewrite Hens.
  pose proof (adapterGenerate_calls fallbackKey rest m3) as Hc4.
  destruct (adapterGenerate fallbackKey rest m3) as [c4 m4].
  cbn [snd] in Hc4.
  assert (Htr4 : adapterCalls (trace m4) =
                 adapterCalls (trace m) ++ [(primaryKey, rest); (fallbackKey, rest)]).
  { rewrite Hc4, Htr3. cbn [snd] in Hcalls1. rewrite Hcalls1, <- app_assoc. reflexivity. }
  destruct c4; exact Htr4.
Qed.

End WithBackends.

End ResolutionFacts.

(** ** What the orchestrator makes of the Gemini adapter's errors *)
Module GeminiFailureFacts.
Import Js Providers Registry JsFacts.

Lemma toLowerCase_app (a b : string) :
  toLowerCase (a ++ b) = toLowerCase a ++ toLowerCase b.
Proof. induction a as [|c a IH]; simpl; [reflexivity | now rewrite IH]. Qed.

(** A text that does not contain the character [sep] occurs in
    [a ++ sep ++ b] on one side of [sep] or the other. *)
Lemma prefix_before (sep : ascii) (n u b : string) :
  includes n (String sep "") = false ->
  String.prefix n (u ++ String sep b) = String.prefix n (u ++ String sep "").
Proof.
  revert u. induction n as [|d n IH]; intros u Hsep.
  - now destruct u.
  - assert (Hn : includes n (String sep "") = false).
    { rewrite includes_cons in Hsep. now apply orb_false_iff in Hsep as [_ Hn]. }
    assert (Hd : d <> sep).
    { intros ->. rewrite includes_cons in Hsep. apply orb_false_iff in Hsep as [Hp _].
      cbn [String.prefix] in Hp.
      destruct (ascii_dec sep sep); [destruct n; discriminate | congruence]. }
    destruct u as [|x u]; simpl.
    + destruct (ascii_dec d sep); [contradiction | reflexivity].
    + destruct (ascii_dec d x); [now apply IH | reflexivity].
Qed.

Lemma includes_after (a : string) (sep : ascii) (b n : string) :
  includes n (String sep "") = false ->
  includes (a ++ String sep b) n = includes (a ++ String sep "") n || includes b n.
Proof.
  intros Hsep. induction a as [|x a IH].
  - change ("" ++ String sep b) with (String sep b).
    change ("" ++ String sep "") with (String sep "").
    rewrite !includes_cons, includes_empty.
    change (String sep b) with ("" ++ String sep b) at 1.
    rewrite (prefix_before sep n "" b Hsep). cbn [append].
    destruct n as [|d n]; [now destruct b|].
    cbn [String.prefix]. rewrite orb_false_r.
    assert (Hd : d <> sep).
    { intros ->. rewrite includes_cons in Hsep. apply orb_false_iff in Hsep as [Hp _].
      cbn [String.prefix] in Hp.
      destruct (ascii_dec sep sep); [destruct n; discriminate | congruence]. }
    destruct (ascii_dec d sep); [contradiction | reflexivity].
  - change (String x a ++ String sep b) with (String x (a ++ String sep b)).
    change (String x a ++ String sep "") with (String x (a ++ String sep "")).
    rewrite !includes_cons, IH.
    change (String x (a ++ String sep b)) with (String x a ++ String sep b).
    rewrite (prefix_before sep n (String x a) b Hsep).
    change (String x a ++ String sep "") with (String x (a ++ String sep "")).
    now rewrite orb_assoc.
Qed.

Lemma includes_skip (c : ascii) (b n : string) :
  match n with String d _ => negb (Ascii.eqb d c) | EmptyString => false end = true ->
  includes (String c b) n = includes b n.
Proof.
  intros Hn. rewrite includes_cons. destruct n as [|d n]; [discriminate|].
  apply negb_true_iff in Hn. cbn [String.prefix].
  destruct (ascii_dec d c) as [->|]; [now rewrite Ascii.eqb_refl in Hn | reflexivity].
Qed.

Lemma describeError_cases (e : Thrown) :
  GeminiAdapter.describeError e = "overloaded" \/
  GeminiAdapter.describeError e = "rate limited" \/
  GeminiAdapter.describeError e = "authentication failed" \/
  GeminiAdapter.describeError e = "invalid request" \/
  GeminiAdapter.describeError e = "timeout" \/
  GeminiAdapter.describeError e = "unknown error".
Proof.
  unfold GeminiAdapter.describeError.
  repeat match goal with |- context [if ?b then _ else _] => destruct b end; tauto.
Qed.

(** The orchestrator's test on a message made of a text, a separator that
    is a full stop or a colon, a blank and a second text: the test of the
    first text with the separator, or the test of the second. *)
Lemma retryable_joined (a : string) (sep : ascii) (msg : string) :
  sep = "."%char \/ sep = ":"%char ->
  Registry.isRetryableError (Error (a ++ String sep (String " " msg))) =
    Registry.isRetryableError (Error (a ++ String sep "")) ||
    Registry.isRetryableError (Error msg).
Proof.
  intros Hsep. unfold Registry.isRetryableError, Error.
  cbn [truthy negb messageOrString].
  assert (Hlow : toLowerCase (a ++ String sep (String " " msg)) =
                 toLowerCase a ++ String sep (String " " (toLowerCase msg)))
    by (rewrite toLowerCase_app; destruct Hsep as [-> | ->]; reflexivity).
  assert (Hlow' : toLowerCase (a ++ String sep "") = toLowerCase a ++ String sep "")
    by (rewrite toLowerCase_app; destruct Hsep as [-> | ->]; reflexivity).
  rewrite Hlow, Hlow'.
  set (rest := String " " (toLowerCase msg)).
  rewrite (includes_after _ sep rest "service unavailable"),
          (includes_after _ sep rest "503"), (includes_after _ sep rest "502"),
          (includes_after _ sep rest "504"), (includes_after _ sep rest "timeout"),
          (includes_after _ sep rest "overload")
    by (destruct Hsep as [-> | ->]; reflexivity).
  subst rest.
  rewrite (includes_skip " " _ "service unavailable"), (includes_skip " " _ "503"),
          (includes_skip " " _ "502"), (includes_skip " " _ "504"),
          (includes_skip " " _ "timeout"), (includes_skip " " _ "overload")
    by reflexivity.
  repeat match goal with
         | |- context [includes (toLowerCase a ++ String sep "") ?n] =>
             generalize (includes (toLowerCase a ++ String sep "") n); intros []
         end;
    cbn [orb]; rewrite ?orb_true_r; reflexivity.
Qed.

Lemma retryable_description (d : string) (Hd :
    d = "overloaded" \/ d = "rate limited" \/ d = "authentication failed" \/
    d = "invalid request" \/ d = "timeout" \/ d = "unknown error") :
  Registry.isRetryableError
    (Error ("All Gemini models failed. Last error type: " ++ d ++ ".")) =
    Registry.isRetryableError (Error d) /\
  Registry.isRetryableError (Error ("Gemini API error (" ++ d ++ "):")) =
    Registry.isRetryableError (Error d) /\
  (Registry.isRetryableError (Error d) = true <-> d = "overloaded" \/ d = "timeout").
Proof.
  destruct Hd as [-> | [-> | [-> | [-> | [-> | ->]]]]];
    (split; [vm_compute; reflexivity|]); (split; [vm_compute; reflexivity|]);
    (split; [vm_compute; try discriminate; intros _; tauto
            | intros [H|H]; vm_compute; try reflexivity; discriminate H]).
Qed.

(** X5.  The two errors with which the Gemini adapter gives up, the one
    that wraps a cause it does not retry and the one thrown when all
    models have failed, are classified Retryable by the orchestrator
    exactly when the adapter's description of the cause would be, which is
    so for "overloaded" and "timeout" only, or the cause's own message
    would be.  A cause described as "rate limited" whose message the
    orchestrator does not retry therefore leads to no fallback. *)
Theorem gemini_failure_seen_by_orchestrator (cause : Thrown) :
  let description := GeminiAdapter.describeError cause in
  let seen :=
    Registry.isRetryableError (Error description) ||
    Registry.isRetryableError (Error (messageOrUnknown cause)) in
  Registry.isRetryableError (GeminiAdapter.allFailed cause) = seen /\
  Registry.isRetryableError (GeminiAdapter.apiError cause) = seen /\
  (Registry.isRetryableError (Error description) = true <->
   description = "overloaded" \/ description = "timeout").
Proof.
  intros description seen. subst seen.
  destruct (retryable_description description (describeError_cases cause))
    as (Hall & Hapi & Hiff).
  split; [|split; [|exact Hiff]].
  - unfold GeminiAdapter.allFailed. fold description.
    change ("All Gemini models failed. Last error type: " ++
            description ++ ". " ++ messageOrUnknown cause)
      with ("All Gemini models failed. Last error type: " ++
            description ++ String "." (String " " (messageOrUnknown cause))).
    replace ("All Gemini models failed. Last error type: " ++
             description ++ String "." (String " " (messageOrUnknown cause)))
      with (("All Gemini models failed. Last error type: " ++ description) ++
            String "." (String " " (messageOrUnknown cause)))
      by (now rewrite <- RegexFacts.append_assoc).
    rewrite retryable_joined by (now left).
    rewrite RegexFacts.append_assoc. now rewrite Hall.
  - unfold GeminiAdapter.apiError. fold description.
    change ("Gemini API error (" ++ description ++ "): " ++ messageOrUnknown cause)
      with ("Gemini API error (" ++ description ++
            String ")" (String ":" (String " " (messageOrUnknown cause)))).
    replace ("Gemini API error (" ++ description ++
             String ")" (String ":" (String " " (messageOrUnknown cause))))
      with (("Gemini API error (" ++ description ++ ")") ++
            String ":" (String " " (messageOrUnknown cause)))
      by (rewrite !RegexFacts.append_assoc; reflexivity).
    rewrite retryable_joined by (now right).
    rewrite !RegexFacts.append_assoc. cbn [append] in Hapi |- *. now rewrite Hapi.
Qed.

(** X6.  For an instance of [Error] the description and the test of the
    Gemini executor agree: a cause described as "overloaded" or "rate
    limited" is one it retries, so the error that wraps a cause it does
    not retry never carries either description.  A thrown string is
    described by its text but never retried. *)
Theorem gemini_description_agrees_with_retry (message : string) (status code : Field) :
  let cause := ThrownError message status code in
  (GeminiAdapter.describeError cause = "overloaded" \/
   GeminiAdapter.describeError cause = "rate limited" ->
   GeminiAdapter.isRetryableError cause = true) /\
  (GeminiAdapter.isRetryableError cause = false ->
   GeminiAdapter.describeError cause = "authentication failed" \/
   GeminiAdapter.describeError cause = "invalid request" \/
   GeminiAdapter.describeError cause = "timeout" \/
   GeminiAdapter.describeError cause = "unknown error") /\
  (forall text, GeminiAdapter.isRetryableError (ThrownString text) = false) /\
  GeminiAdapter.describeError (ThrownString "503") = "overloaded".
Proof.
  intros cause.
  assert (Hagree : GeminiAdapter.describeError cause = "overloaded" \/
                   GeminiAdapter.describeError cause = "rate limited" ->
                   GeminiAdapter.isRetryableError cause = true).
  { subst cause. unfold GeminiAdapter.describeError, GeminiAdapter.isRetryableError.
    cbn [truthy negb messageOrString GeminiAdapter.messageOrEmpty statusOf codeOf].
    destruct (isNum (nullish status code) 503); [reflexivity|].
    destruct (includes message "503"); cbn [orb]; [now rewrite orb_true_r|].
    destruct (isNum (nullish status code) 429); [reflexivity|].
    destruct (includes (toLowerCase message) "rate limit"); cbn [orb];
      [now rewrite !orb_true_r|].
    repeat match goal with |- context [if ?b then _ else _] => destruct b end;
      intros [H|H]; discriminate H. }
  split; [exact Hagree|]. split; [|split].
  - intros Hfatal.
    destruct (describeError_cases cause) as [H | [H | H]]; [| |tauto];
      rewrite Hagree in Hfatal by tauto; discriminate.
  - intros text. unfold GeminiAdapter.isRetryableError.
    cbn [GeminiAdapter.messageOrEmpty statusOf codeOf nullish isNum].
    now destruct (negb (truthy (ThrownString text))).
  - reflexivity.
Qed.

End GeminiFailureFacts.

(** ** What the adapters return *)
Module AdapterResultFacts.
Import Js Providers Registry Trace JsFacts CascadeFacts OrchestratorFacts.
Local Open Scope list_scope.

Section WithBackends.
Context {World : Type} {backends : Backends World}.

Lemma callClaude_returns (prompt model : string) (params : ProviderGenerateParams)
    (m m' : Machine World) (r : ProviderGenerateResult) :
  ClaudeAdapter.callClaude prompt model params m = (Returned r, m') ->
  nonEmpty (content r) = true /\ provider r = "claude".
Proof.
  unfold ClaudeAdapter.callClaude, bind, emit, request. cbn [world providerCache trace].
  destruct (query _ _ _) as [[messages ending] w].
  destruct (ClaudeAdapter.collect messages _) as [error|acc]; [discriminate|].
  destruct ending; try discriminate.
  destruct (nonEmpty _) eqn:Hcontent; cbn [negb]; [|discriminate].
  intros [= <- _]. cbn [content provider]. now split.
Qed.

Lemma attempt_returns (modelName : string) (params : ProviderGenerateParams)
    (m m' : Machine World) (r : ProviderGenerateResult) :
  GeminiAdapter.attempt modelName params m = (Returned (Some r), m') ->
  nonEmpty (trim (content r)) = true /\ provider r = "gemini" /\ usedModel r = modelName.
Proof.
  unfold GeminiAdapter.attempt.
  destruct (GeminiAdapter.buildGenerationConfig params) as [error|config]; [discriminate|].
  unfold bind, emit, request. cbn [world providerCache trace].
  destruct (generateContent _ _ _ _) as [[[response|]|error|] w]; try discriminate.
  destruct (nonEmpty (trim response)) eqn:Htext; [|discriminate].
  intros [= <- _]. cbn [content provider usedModel]. now repeat split.
Qed.

Lemma tryModels_returns (params : ProviderGenerateParams) (models : list string) :
  forall (lastError : Thrown) (m m' : Machine World) (r : ProviderGenerateResult),
    GeminiAdapter.tryModels models lastError params m = (Returned r, m') ->
    nonEmpty (trim (content r)) = true /\ provider r = "gemini" /\ In (usedModel r) models.
Proof.
  induction models as [|modelName rest IH]; intros lastError m m' r; cbn [GeminiAdapter.tryModels].
  - discriminate.
  - destruct (GeminiAdapter.attempt modelName params m) as [[[found|]|error|] m1] eqn:Hattempt.
    + intros [= <- <-]. destruct (attempt_returns _ _ _ _ _ Hattempt) as (Ht & Hp & Hm).
      repeat split; [exact Ht | exact Hp | now left].
    + intros Hrest. destruct (IH _ _ _ _ Hrest) as (Ht & Hp & Hm). auto with datatypes.
    + destruct (negb (GeminiAdapter.isRetryableError error)); [discriminate|].
      intros Hrest. destruct (IH _ _ _ _ Hrest) as (Ht & Hp & Hm). auto with datatypes.
    + discriminate.
Qed.

Lemma buildModelList_listed (preferred : option string) (modelName : string) :
  In modelName (GeminiAdapter.buildModelList preferred) ->
  In modelName GeminiAdapter.MODEL_CASCADE.
Proof.
  unfold GeminiAdapter.buildModelList. destruct preferred as [p|]; [|auto].
  destruct (GeminiAdapter.isValidModel (Some p)) eqn:Hvalid; [|auto].
  intros [<-|Hin].
  - unfold GeminiAdapter.isValidModel in Hvalid. apply andb_true_iff in Hvalid as [_ Hin].
    apply existsb_exists in Hin as (x & Hin & Heq). apply String.eqb_eq in Heq. now subst.
  - apply list_elem_of_In, list_elem_of_filter in Hin as [_ Hin]. now apply list_elem_of_In.
Qed.

(** X7.  Neither adapter returns an empty answer.  A result of the Claude
    adapter carries content that is not the empty string, which may still
    be blank; a result of the Gemini adapter carries content that is not
    blank and the name of a model of its cascade.  Each names its own
    provider. *)
Theorem adapters_return_text (params : ProviderGenerateParams) (m m' : Machine World)
    (r : ProviderGenerateResult) :
  (ClaudeAdapter.generate params m = (Returned r, m') ->
   content r <> EmptyString /\ provider r = "claude") /\
  (GeminiAdapter.generate params m = (Returned r, m') ->
   trim (content r) <> EmptyString /\ provider r = "gemini" /\
   In (usedModel r) GeminiAdapter.MODEL_CASCADE).
Proof.
  split.
  - intros Hgen.
    destruct (claude_startModel_listed params) as [i Hi].
    destruct (claude_cascade_walk params (length ClaudeAdapter.MODEL_CASCADE) i _ m Hi)
      as (n & m1 & _ & _ & _ & Hcall & _); [lia|].
    unfold ClaudeAdapter.generate in Hgen. rewrite Hcall in Hgen.
    destruct (callClaude_returns _ _ _ _ _ _ Hgen) as [Hc Hp].
    split; [|exact Hp]. intros Hempty. now rewrite Hempty in Hc.
  - intros Hgen. unfold GeminiAdapter.generate in Hgen.
    destruct (tryModels_returns _ _ _ _ _ _ Hgen) as (Ht & Hp & Hm).
    split; [|split; [exact Hp|]].
    + intros Hempty. now rewrite Hempty in Ht.
    + now apply buildModelList_listed with (model params).
Qed.

Lemma tryModels_blank (params : ProviderGenerateParams) (config : Schema.GenerationConfig)
    (models : list string) :
  GeminiAdapter.buildGenerationConfig params = inr config ->
  (forall modelName w,
     match fst (generateContent modelName config (prompt params) w) with
     | Responded (Some text) => nonEmpty (trim text) = false
     | Responded None => True
     | _ => False
     end) ->
  forall (lastError : Thrown) (m : Machine World),
    exists m',
      GeminiAdapter.tryModels models lastError params m =
        (Threw (GeminiAdapter.allFailed lastError), m') /\
      trace m' = trace m ++ map (BackendRequest gemini) models.
Proof.
  intros Hconfig Hblank. induction models as [|modelName rest IH]; intros lastError m.
  - exists m. split; [reflexivity | now rewrite app_nil_r].
  - cbn [GeminiAdapter.tryModels].
    assert (Hattempt : exists m1,
               GeminiAdapter.attempt modelName params m = (Returned None, m1) /\
               trace m1 = trace m ++ [BackendRequest gemini modelName]).
    { unfold GeminiAdapter.attempt. rewrite Hconfig.
      unfold bind, emit, request. cbn [world providerCache trace].
      specialize (Hblank modelName (world m)).
      destruct (generateContent modelName config (prompt params) (world m))
        as [[[text|]|error|] w]; cbn [fst] in Hblank; try contradiction.
      - rewrite Hblank. eexists. split; reflexivity.
      - eexists. split; reflexivity. }
    destruct Hattempt as (m1 & -> & Htr1).
    destruct (IH lastError m1) as (m' & -> & Htr).
    exists m'. split; [reflexivity|]. rewrite Htr, Htr1, <- app_assoc. reflexivity.
Qed.

(** X8.  A Gemini model that answers without text, or with blank text, is
    passed over like one that failed, but leaves no error behind: when
    every model answers so, [generate] has asked each model of its list
    once, in order, and throws the error that all models failed with the
    description "unknown error", which the orchestrator does not classify
    Retryable and so does not answer with a fallback. *)
Theorem gemini_blank_answers_exhaust_cascade (params : ProviderGenerateParams)
    (config : Schema.GenerationConfig) (m : Machine World) :
  GeminiAdapter.buildGenerationConfig params = inr config ->
  (forall modelName w,
     match fst (generateContent modelName config (prompt params) w) with
     | Responded (Some text) => nonEmpty (trim text) = false
     | Responded None => True
     | _ => False
     end) ->
  exists m',
    GeminiAdapter.generate params m =
      (Threw (Error "All Gemini models failed. Last error type: unknown error. Unknown error"),
       m') /\
    trace m' = trace m ++
      map (BackendRequest gemini) (GeminiAdapter.buildModelList (model params)) /\
    Registry.isRetryableError
      (Error "All Gemini models failed. Last error type: unknown error. Unknown error") = false.
Proof.
  intros Hconfig Hblank.
  destruct (tryModels_blank params config (GeminiAdapter.buildModelList (model params))
              Hconfig Hblank ThrownNothing m) as (m' & Hrun & Htr).
  exists m'. split; [exact Hrun|]. split; [exact Htr | reflexivity].
Qed.

End WithBackends.

End AdapterResultFacts.

Module AdapterResultExamples.
Import Js Providers Registry Trace.
Local Open Scope list_scope.

(** The Claude adapter returns a blank answer as it is; the Gemini adapter
    does not. *)
Example claude_returns_blank_text :
  fst (ClaudeAdapter.generate (backends := QuietBackends.blankAnswers)
         (Scenario.ask "Summarise" None) Scenario.start)
  = Returned {| content := "   "; provider := "claude";
                usedModel := "claude-haiku-4-5-20251001" |}.
Proof. vm_compute. reflexivity. Qed.

Lemma gemini_blank_answers_exhaust_cascade_witness :
  exists m',
    GeminiAdapter.generate (backends := QuietBackends.blankAnswers)
      (Scenario.ask "Summarise" None) Scenario.start =
      (Threw (Error "All Gemini models failed. Last error type: unknown error. Unknown error"),
       m') /\
    trace m' = trace Scenario.start ++
      map (BackendRequest gemini)
          (GeminiAdapter.buildModelList (model (Scenario.ask "Summarise" None))) /\
    Registry.isRetryableError
      (Error "All Gemini models failed. Last error type: unknown error. Unknown error") = false.
Proof.
  apply (AdapterResultFacts.gemini_blank_answers_exhaust_cascade
           (backends := QuietBackends.blankAnswers) (Scenario.ask "Summarise" None)
           {| Schema.responseMimeType := None; Schema.responseSchema := None |}).
  - reflexivity.
  - intros modelName w. reflexivity.
Defined.

Lemma unconfigured_preference_is_not_replaced_witness :
  let env := Scenario.env (Some "xai-key") None None in
  getProvider (Some "gemini") env Scenario.start =
    (Threw (notConfigured gemini), Scenario.start) /\
  generateStructuredContent (backends := Scenario.claudeTimesOut) (Some "gemini")
    (Scenario.ask "Summarise" None) env Scenario.start =
    (Threw (notConfigured gemini), Scenario.start).
Proof.
  cbv zeta.
  apply (ResolutionFacts.unconfigured_preference_is_not_replaced
           (backends := Scenario.claudeTimesOut) "gemini" gemini); reflexivity.
Defined.

Lemma cached_adapter_outlives_its_key_witness :
  let withKey := Scenario.env None (Some "gemini-key") None in
  let withoutKey := Scenario.env None None None in
  let m1 := snd (ensureProvider gemini withKey Scenario.start) in
  gemini = gemini /\
  ensureProvider gemini withoutKey m1 = (Returned gemini, m1) /\
  providerCache m1 gemini = true /\
  (forall other, other <> gemini ->
                 providerCache m1 other = providerCache Scenario.start other) /\
  world m1 = world Scenario.start /\ trace m1 = trace Scenario.start.
Proof.
  cbv zeta.
  apply (ResolutionFacts.cached_adapter_outlives_its_key gemini gemini
           (Scenario.env None (Some "gemini-key") None) (Scenario.env None None None)
           Scenario.start). reflexivity.
Defined.

End AdapterResultExamples.

(** ** The batch dispatcher: chunks, scheduling and writing back *)
Module BatchScheduleFacts.
Import Batch BatchSchedule BatchFacts.
Local Open Scope list_scope.
Local Open Scope nat_scope.

(** X9.  For a positive size [chunk] ends, and its chunks, joined, are the
    array: none is empty, none is longer than the size, and all but the
    last have exactly the size; the empty array has no chunk. *)
Theorem chunk_shape {T : Type} (arr : list T) (size : nat) :
  0 < size ->
  exists out,
    chunk arr size = Some out /\
    concat out = arr /\
    (forall k c, out !! k = Some c ->
                 0 < length c <= size /\ (S k < length out -> length c = size)) /\
    (arr = [] -> out = []).
Proof.
  intros Hsize. destruct (chunk_total arr size Hsize) as [out Hout].
  exists out. split; [exact Hout|]. split; [now apply chunk_concat with size|]. split.
  - intros k c Hk. pose proof (chunk_lookup arr size out k Hout) as Hlook.
    rewrite Hk in Hlook. destruct (decide (k * size < length arr)) as [Hin|]; [|discriminate].
    injection Hlook as ->. rewrite length_take, length_drop. split; [lia|].
    intros Hnext. destruct (out !! S k) as [c'|] eqn:Hk'; [|apply lookup_ge_None in Hk'; lia].
    pose proof (chunk_lookup arr size out (S k) Hout) as Hlook'.
    rewrite Hk' in Hlook'.
    destruct (decide (S k * size < length arr)) as [Hin'|]; [|discriminate]. simpl in Hin'. lia.
  - intros ->. pose proof (chunk_length [] size out Hsize Hout) as Hlen.
    cbn [length] in Hlen. rewrite Nat.add_0_l, Nat.div_small in Hlen by lia.
    now destruct out.
Qed.

Lemma awaited_length (ws : list Worker) : length (awaited ws) <= length ws.
Proof. induction ws as [|[|k|] ws IH]; simpl; lia. Qed.

Lemma init_claims (n nchunks : nat) : Claims nchunks (init n nchunks).
Proof.
  unfold Claims, init. cbn [index workers served]. split; [lia|]. split.
  - assert (Hnone : forall k, awaited (replicate k Ready) = [])
      by (intros k; induction k; simpl; auto).
    rewrite Hnone. reflexivity.
  - split; [apply length_replicate|].
    intros Hin. apply list_elem_of_In, elem_of_replicate in Hin as [[=] _].
Qed.

Lemma step_claims (nchunks : nat) (a : Action) (s s' : Dispatch) :
  Claims nchunks s -> step nchunks a s = Some s' ->
  Claims nchunks s' /\ S (eventsLeft nchunks s') = eventsLeft nchunks s.
Proof.
  intros (Hidx & Hclaimed & Hpool & Hfin) Hstep. unfold Claims, eventsLeft.
  destruct a as [w|w translated]; simpl in Hstep;
    destruct (workers s !! w) as [[|k|]|] eqn:Hw; try discriminate.
  - destruct (Nat.ltb_spec (index s) nchunks) as [Hlt|Hge];
      injection Hstep as <-; cbn [index workers results served].
    + pose proof (weight_insert _ _ _ (Awaiting (index s)) Hw) as Hweight.
      cbn [weight] in Hweight. repeat split; try lia.
      * rewrite (awaited_claim _ _ _ Hw). rewrite seq_S. simpl.
        rewrite <- Hclaimed. apply Permutation_cons_append.
      * now rewrite length_insert.
      * intros Hin. apply In_insert_other in Hin as [[=]|Hin]. apply Hfin in Hin. lia.
    + pose proof (weight_insert _ _ _ Finished Hw) as Hweight.
      cbn [weight] in Hweight. repeat split; try lia.
      * now rewrite (awaited_leave _ _ Hw).
      * now rewrite length_insert.
  - injection Hstep as <-. cbn [index workers results served].
    pose proof (weight_insert _ _ _ Ready Hw) as Hweight. cbn [weight] in Hweight.
    repeat split; try lia.
    + rewrite map_app. simpl. rewrite <- Hclaimed, (awaited_resolve _ _ _ Hw). simpl.
      rewrite app_assoc. symmetry. apply Permutation_cons_append.
    + now rewrite length_insert.
    + intros Hin. apply In_insert_other in Hin as [[=]|Hin]. now apply Hfin.
Qed.

Lemma run_claims (nchunks : nat) (schedule : list Action) :
  forall s s', Claims nchunks s -> run nchunks schedule s = Some s' ->
               Claims nchunks s' /\
               length schedule + eventsLeft nchunks s' = eventsLeft nchunks s.
Proof.
  induction schedule as [|a rest IH]; intros s s' Hclaims; cbn [run length].
  - intros [= <-]. now split.
  - destruct (step nchunks a s) as [s1|] eqn:Hstep; [|discriminate].
    destruct (step_claims _ _ _ _ Hclaims Hstep) as [Hclaims1 Hleft].
    intros Hrun. destruct (IH _ _ Hclaims1 Hrun) as [Hclaims' Hleft'].
    split; [exact Hclaims'|]. lia.
Qed.

(** X10.  Whatever the translation client answers and in whatever order
    the events happen, the workers never await more than CONCURRENCY
    translations at a time, no chunk is claimed twice, the chunks claimed
    are exactly those below [index], and each event uses up one of the
    [2 * nchunks + min(CONCURRENCY, nchunks)] events of a run: when
    [Promise.all] resolves, every chunk has been answered once and the run
    has had exactly that many events. *)
Theorem dispatcher_schedule_bounds (n nchunks : nat) (schedule : list Action)
    (s : Dispatch) :
  run nchunks schedule (init n nchunks) = Some s ->
  length (awaited (workers s)) <= CONCURRENCY /\
  NoDup (awaited (workers s) ++ map fst (served s)) /\
  (forall k, In k (awaited (workers s) ++ map fst (served s)) <-> k < index s) /\
  index s <= nchunks /\
  length schedule + eventsLeft nchunks s = 2 * nchunks + Nat.min CONCURRENCY nchunks /\
  (completed s = true ->
   Permutation (map fst (served s)) (seq 0 nchunks) /\
   length schedule = 2 * nchunks + Nat.min CONCURRENCY nchunks).
Proof.
  intros Hrun.
  destruct (run_claims _ _ _ _ (init_claims n nchunks) Hrun)
    as [(Hidx & Hclaimed & Hpool & Hfin) Hleft].
  assert (Hstart : eventsLeft nchunks (init n nchunks) =
                   2 * nchunks + Nat.min CONCURRENCY nchunks).
  { unfold eventsLeft, init. cbn [index workers]. rewrite Nat.sub_0_r. f_equal.
    generalize (Nat.min CONCURRENCY nchunks). intros k.
    induction k as [|k IH]; simpl in *; [reflexivity | congruence]. }
  split; [pose proof (awaited_length (workers s)); lia|]. split.
  { rewrite Hclaimed. apply NoDup_ListNoDup, seq_NoDup. }
  split.
  { intros k. split.
    - intros Hin. apply (Permutation_in _ Hclaimed), in_seq in Hin. lia.
    - intros Hk. apply (Permutation_in _ (Permutation_sym Hclaimed)), in_seq. lia. }
  split; [exact Hidx|]. split; [lia|].
  intros Hdone. unfold completed in Hdone.
  assert (Hnone : awaited (workers s) = []) by now apply awaited_all_finished.
  assert (Hall : index s = nchunks).
  { destruct (workers s) as [|x ws] eqn:Hws.
    - cbn [length] in Hpool. unfold CONCURRENCY in Hpool. lia.
    - apply Hfin. simpl in Hdone. apply andb_true_iff in Hdone as [Hx _].
      destruct x; try discriminate. now left. }
  assert (Hzero : eventsLeft nchunks s = 0).
  { unfold eventsLeft. rewrite Hall, Nat.sub_diag. cbn [Nat.mul Nat.add].
    clear -Hdone. induction (workers s) as [|x ws IH]; [reflexivity|].
    simpl in Hdone. apply andb_true_iff in Hdone as [Hx Hrest].
    destruct x; try discriminate. simpl. now apply IH. }
  split; [|lia]. rewrite Hnone in Hclaimed. cbn [app] in Hclaimed. now rewrite <- Hall.
Qed.

Lemma assign_length (results : list Slot) (j : nat) (v : string) :
  length (assign results j v) = Nat.max (length results) (S j).
Proof.
  unfold assign. destruct (Nat.ltb_spec j (length results)).
  - rewrite length_insert. lia.
  - rewrite !length_app, length_replicate. cbn [length]. lia.
Qed.

Lemma assign_lookup (results : list Slot) (j i : nat) (v : string) :
  assign results j v !! i =
    if decide (i = j) then Some (Some v)
    else if decide (i < length results) then results !! i
    else if decide (i < j) then Some None else None.
Proof.
  unfold assign. destruct (Nat.ltb_spec j (length results)) as [Hin|Hout].
  - destruct (decide (i = j)) as [->|Hne].
    + now apply list_lookup_insert_eq.
    + rewrite list_lookup_insert_ne by congruence.
      destruct (decide (i < length results)); [reflexivity|].
      destruct (decide (i < j)); [lia|]. apply lookup_ge_None. lia.
  - destruct (decide (i = j)) as [->|Hne].
    + rewrite lookup_app_r by lia. rewrite lookup_app_r by (rewrite length_replicate; lia).
      rewrite length_replicate. now replace (j - length results - (j - length results)) with 0 by lia.
    + destruct (decide (i < length results)); [now apply lookup_app_l|].
      rewrite lookup_app_r by lia.
      destruct (decide (i < j)).
      * rewrite lookup_app_l by (rewrite length_replicate; lia).
        apply lookup_replicate_2. lia.
      * apply lookup_ge_None. rewrite length_app, length_replicate. cbn [length]. lia.
Qed.

(** X11.  [placeBack] writes the slots from [start] on, one per item of
    the translation, and no other: a slot before [start] or after the
    items keeps its value, a translation that reaches past the end of the
    array lengthens it, and slots between the old end and [start] become
    holes.  A translation longer than its chunk thus overwrites the next
    chunk's slots or lengthens the response, and a shorter one leaves
    slots unset. *)
Theorem placeBack_writes_its_range (translated : list string) :
  forall (results : list Slot) (start : nat),
    length (placeBack results start translated) =
      match translated with
      | [] => length results
      | _ => Nat.max (length results) (start + length translated)
      end /\
    (forall j v, translated !! j = Some v ->
                 placeBack results start translated !! (start + j) = Some (Some v)) /\
    (forall i, i < start \/ start + length translated <= i ->
               placeBack results start translated !! i =
                 if decide (i < length results) then results !! i
                 else if decide (i < start /\ translated <> []) then Some None else None).
Proof.
  induction translated as [|v rest IH]; intros results start.
  - cbn [placeBack length]. split; [reflexivity|]. split; [intros j w [=]|].
    intros i _. destruct (decide (i < length results)); [reflexivity|].
    destruct (decide (i < start /\ [] <> [])) as [[_ Hne]|_]; [congruence|].
    apply lookup_ge_None. lia.
  - cbn [placeBack]. destruct (IH (assign results start v) (S start)) as (Hlen & Hin & Hout).
    split; [|split].
    + rewrite Hlen, assign_length. cbn [length]. destruct rest; cbn [length]; lia.
    + intros [|j] w Hj.
      * injection Hj as ->. rewrite Nat.add_0_r.
        rewrite Hout by lia. rewrite assign_length, assign_lookup.
        destruct (decide (start < Nat.max (length results) (S start))); [|lia].
        now destruct (decide (start = start)).
      * replace (start + S j) with (S start + j) by lia. now apply Hin.
    + intros i Hi. cbn [length] in Hi. rewrite Hout by lia.
      rewrite assign_length, assign_lookup.
      destruct (decide (i = start)) as [->|Hne]; [lia|].
      destruct (decide (i < length results)) as [Hold|Hnew].
      * destruct (decide (i < Nat.max (length results) (S start))); [reflexivity | lia].
      * destruct (decide (i < start /\ v :: rest <> [])) as [[Hlt _]|Hno].
        -- destruct (decide (i < Nat.max (length results) (S start))); [|lia].
           destruct (decide (i < start)); [reflexivity | lia].
        -- assert (Hge : start <= i) by (destruct (decide (i < start)); [exfalso; apply Hno; split; [lia | discriminate] | lia]).
           destruct (decide (i < Nat.max (length results) (S start))); [lia|].
           destruct (decide (i < S start /\ rest <> [])) as [[Hlt _]|_]; [lia | reflexivity].
Qed.

End BatchScheduleFacts.

Module BatchScheduleExamples.
Import Batch BatchSchedule BatchScenario.
Local Open Scope list_scope.
Local Open Scope nat_scope.

Lemma chunk_shape_witness :
  exists out,
    chunk [1; 2; 3; 4; 5] 2 = Some out /\
    concat out = [1; 2; 3; 4; 5] /\
    (forall k c, out !! k = Some c ->
                 0 < length c <= 2 /\ (S k < length out -> length c = 2)) /\
    ([1; 2; 3; 4; 5] = [] -> out = []).
Proof. apply (BatchScheduleFacts.chunk_shape [1; 2; 3; 4; 5] 2). lia. Defined.

Lemma dispatcher_schedule_bounds_witness :
  let s := finalState slowStarter in
  length (awaited (workers s)) <= CONCURRENCY /\
  NoDup (awaited (workers s) ++ map fst (served s)) /\
  (forall k, In k (awaited (workers s) ++ map fst (served s)) <-> k < index s) /\
  index s <= 3 /\
  length slowStarter + eventsLeft 3 s = 2 * 3 + Nat.min CONCURRENCY 3 /\
  (completed s = true ->
   Permutation (map fst (served s)) (seq 0 3) /\
   length slowStarter = 2 * 3 + Nat.min CONCURRENCY 3).
Proof.
  cbv zeta.
  apply (BatchScheduleFacts.dispatcher_schedule_bounds 257 3 slowStarter
           (finalState slowStarter)).
  vm_compute. reflexivity.
Defined.

(** A translation of three items for a chunk of two, placed at the end of
    an array of four slots, lengthens the array. *)
Example overlong_translation_lengthens_results :
  placeBack [Some "a"; Some "b"; None; None] 2 ["x"; "y"; "z"] =
    [Some "a"; Some "b"; Some "x"; Some "y"; Some "z"].
Proof. reflexivity. Qed.

End BatchScheduleExamples.

(** ** Recovery and normalisation: what comes out, whatever goes in *)
Module TakeawayBounds.
Import Js Json Regex Recovery Summary JsFacts DoubleEncodingFacts.
Local Open Scope list_scope.
Local Open Scope nat_scope.

Section WithParser.
Variable JSON_parse : string -> option JSON.

Lemma decodeMatch_valid (caps : Captures) (t : StructuredTakeaway) :
  decodeMatch JSON_parse caps = Some t ->
  1 <= length (timestamps t) <= 2 /\
  Forall (fun ts => ts <> EmptyString) (timestamps t).
Proof.
  unfold decodeMatch.
  destruct (capture 1 caps) as [labelRaw|]; [|discriminate].
  destruct (capture 3 caps) as [insightRaw|]; [|discriminate].
  destruct (capture 5 caps) as [timestampsStr|]; [|discriminate].
  destruct (JSON_parse _) as [[| | |l| |]|]; try discriminate.
  destruct (JSON_parse _) as [[| | |i| |]|]; try discriminate.
  set (found := tidyTimestamps _).
  pose proof (tidyTimestamps_shape
                (map removeQuotes
                   (matchGlobal (S (String.length timestampsStr)) timestampPattern
                      timestampsStr))) as [Hlen Hne].
  fold found in Hlen, Hne.
  destruct found as [|ts more] eqn:Hfound; [discriminate|].
  intros [= <-]. cbn [timestamps]. split; [cbn [length] in *; lia | exact Hne].
Qed.

Lemma scan_bounded (P : StructuredTakeaway -> Prop) (fuel : nat) :
  (forall caps t, decodeMatch JSON_parse caps = Some t -> P t) ->
  forall (raw : string) (takeaways found : list StructuredTakeaway),
    scan JSON_parse fuel raw takeaways = Some found ->
    length takeaways < 6 -> Forall P takeaways ->
    length takeaways <= length found <= 6 /\ Forall P found.
Proof.
  intros Hdecode. induction fuel as [|fuel IH]; intros raw takeaways found; [discriminate|].
  cbn [scan]. destruct (exec objectPattern raw) as [[[text caps] rest]|].
  - destruct (decodeMatch JSON_parse caps) as [t|] eqn:Hmatch.
    + destruct (Nat.leb_spec 6 (length (takeaways ++ [t]))) as [Hfull|Hroom].
      * intros [= <-] Hlen Hall. rewrite length_app in *. cbn [length] in *.
        split; [lia|]. apply Forall_app. split; [exact Hall|].
        constructor; [now apply Hdecode with caps | constructor].
      * intros Hscan Hlen Hall.
        destruct (IH _ _ _ Hscan Hroom) as [Hbound Hfound].
        { apply Forall_app. split; [exact Hall|].
          constructor; [now apply Hdecode with caps | constructor]. }
        split; [|exact Hfound]. rewrite length_app in Hbound. cbn [length] in Hbound. lia.
    + intros Hscan Hlen Hall. now apply (IH _ _ _ Hscan).
  - intros [= <-] Hlen Hall. split; [lia | exact Hall].
Qed.

(** X12.  Whatever the response and whatever [JSON.parse] makes of it, a
    result of [recoverPartialTakeaways] other than [null] holds four to
    six takeaways, each with one or two timestamps, none of them empty:
    the test of the length that the handler repeats on the result never
    fails.  A takeaway of the double-encoded stage has a label and an
    insight that are not empty; the scan makes no such test, so a record
    that matches the pattern with an empty label is returned with it. *)
Theorem recovered_takeaways_are_bounded (raw : string) (found : list StructuredTakeaway) :
  recoverPartialTakeaways JSON_parse raw = Some (Some found) ->
  4 <= length found <= 6 /\
  Forall (fun t => 1 <= length (timestamps t) <= 2 /\
                   Forall (fun ts => ts <> EmptyString) (timestamps t)) found.
Proof.
  set (P := fun t : StructuredTakeaway =>
              1 <= length (timestamps t) <= 2 /\
              Forall (fun ts => ts <> EmptyString) (timestamps t)).
  assert (Hitems : forall outerArray,
             length (decodeItems JSON_parse outerArray []) <= 6 /\
             Forall P (decodeItems JSON_parse outerArray [])).
  { intros outerArray. rewrite decodeItems_take by (cbn [length]; lia). cbn [app]. split.
    - rewrite length_take. lia.
    - apply Forall_take, Forall_forall. intros t Hin.
      apply list_elem_of_omap in Hin as (item & _ & Hitem).
      destruct item; try discriminate.
      destruct (decodeItem_valid JSON_parse _ _ Hitem) as (_ & _ & Hlen & Hne). now split. }
  assert (Hfirst : match doubleEncoded JSON_parse raw with
                   | Accepted l => 4 <= length l <= 6 /\ Forall P l
                   | FellThrough l => length l < 4 /\ Forall P l
                   end).
  { unfold doubleEncoded.
    destruct (startsWith (trim raw) "[" && includes (trim raw) marker);
      [|split; [cbn [length]; lia | constructor]].
    destruct (JSON_parse (trim raw)) as [[| | | |outerArray|]|];
      try (split; [cbn [length]; lia | constructor]).
    destruct (Hitems outerArray) as [Hlen Hall].
    destruct (Nat.leb_spec 4 (length (decodeItems JSON_parse outerArray []))); split;
      try assumption; lia. }
  unfold recoverPartialTakeaways.
  destruct (doubleEncoded JSON_parse raw) as [l|l].
  - intros [= <-]. exact Hfirst.
  - destruct Hfirst as [Hlen Hall].
    destruct (scan JSON_parse (S (String.length raw)) raw l) as [scanned|] eqn:Hscan;
      [|discriminate].
    destruct (scan_bounded P _ decodeMatch_valid _ _ _ Hscan ltac:(lia) Hall)
      as [Hbound Hfound].
    destruct (Nat.leb_spec 4 (length scanned)); [|discriminate].
    intros [= <-]. split; [lia | exact Hfound].
Qed.

Variable normalizeTimestampSources : list JSON -> list string.




End WithParser.

End TakeawayBounds.

Module TakeawayBoundsExamples.
Import Js Json Regex Recovery Summary RecoveryScenario.
Local Open Scope list_scope.
Local Open Scope nat_scope.

Lemma recovered_takeaways_are_bounded_witness :
  4 <= length returned <= 6 /\
  Forall (fun t => 1 <= length (timestamps t) <= 2 /\
                   Forall (fun ts => ts <> EmptyString) (timestamps t)) returned.
Proof.
  apply (TakeawayBounds.recovered_takeaways_are_bounded parseJson truncatedResponse).
  vm_compute. reflexivity.
Defined.

(** The scan returns a record whose label is empty; the double-encoded
    stage passes such an item over. *)
Example scan_keeps_an_empty_label :
  recoverPartialTakeaways parseJson
    (dq "{'label':'','insight':'a','timestamps':['0:01']}{'label':'B','insight':'b','timestamps':['0:02']}{'label':'C','insight':'c','timestamps':['0:03']}{'label':'D','insight':'d','timestamps':['0:04']}")
  = Some (Some [ {| label := ""; insight := "a"; timestamps := ["0:01"] |};
                 {| label := "B"; insight := "b"; timestamps := ["0:02"] |};
                 {| label := "C"; insight := "c"; timestamps := ["0:03"] |};
                 {| label := "D"; insight := "d"; timestamps := ["0:04"] |} ]).
Proof. vm_compute. reflexivity. Qed.

End TakeawayBoundsExamples.

(** ** The Markdown of the summary *)
Module MarkdownFacts.
Import Js Json Recovery Summary JsFacts RegexFacts.
Local Open Scope list_scope.
Local Open Scope nat_scope.

Lemma trimEnd_fixed (c : ascii) (r : string) :
  trimEnd (String c r) = String c r ->
  (r = EmptyString /\ isWhiteSpace c = false) \/ (r <> EmptyString /\ trimEnd r = r).
Proof.
  cbn [trimEnd]. destruct (trimEnd r) as [|d r'] eqn:Hr.
  - destruct (isWhiteSpace c); [discriminate|]. intros [= <-]. now left.
  - intros [= <-]. right. split; [discriminate | reflexivity].
Qed.

Lemma trimEnd_cons (c : ascii) (r : string) :
  trimEnd (String c r) =
    match trimEnd r with
    | EmptyString => if isWhiteSpace c then EmptyString else String c EmptyString
    | r' => String c r'
    end.
Proof. reflexivity. Qed.

Lemma trimEnd_idempotent (s : string) : trimEnd (trimEnd s) = trimEnd s.
Proof.
  induction s as [|c s IH]; [reflexivity|]. rewrite trimEnd_cons.
  destruct (trimEnd s) as [|d r'] eqn:Hs.
  - destruct (isWhiteSpace c) eqn:Hc; [reflexivity|]. cbn [trimEnd]. now rewrite Hc.
  - rewrite trimEnd_cons, IH. reflexivity.
Qed.

Lemma trimStart_starts (s : string) : startsWithText (trimStart s) = true.
Proof.
  induction s as [|c s IH]; [reflexivity|]. cbn [trimStart].
  destruct (isWhiteSpace c) eqn:Hc; [exact IH|]. cbn [startsWithText]. now rewrite Hc.
Qed.

Lemma trimEnd_starts (s : string) :
  startsWithText s = true -> startsWithText (trimEnd s) = true.
Proof.
  destruct s as [|c s]; [reflexivity|]. cbn [startsWithText trimEnd]. intros Hc.
  destruct (trimEnd s); [|cbn [startsWithText]; exact Hc].
  apply negb_true_iff in Hc. rewrite Hc. cbn [startsWithText]. now rewrite Hc.
Qed.

Lemma trim_shape (s : string) :
  trimEnd (trim s) = trim s /\ startsWithText (trim s) = true.
Proof.
  unfold trim. split; [apply trimEnd_idempotent|].
  apply trimEnd_starts, trimStart_starts.
Qed.

(** On a text that does not end in white space, [collapse] leaves single
    blanks between the words. *)
Lemma collapse_trimmed (t : string) :
  trimEnd t = t ->
  forall inRun,
    singleSpaced (collapse inRun t) = true /\
    (t <> EmptyString -> collapse inRun t <> EmptyString) /\
    (inRun = true \/ startsWithText t = true -> startsWithText (collapse inRun t) = true).
Proof.
  induction t as [|c r IH]; intros Hfix inRun.
  - cbn [collapse]. repeat split; try reflexivity. congruence.
  - apply trimEnd_fixed in Hfix as [[-> Hc]|[Hne Hfix]].
    + cbn [collapse]. rewrite Hc. cbn [singleSpaced collapse startsWithText].
      rewrite Hc. repeat split; discriminate || reflexivity.
    + cbn [collapse]. destruct (isWhiteSpace c) eqn:Hc.
      * destruct (IH Hfix true) as (Hspaced & Hnonempty & Hstart).
        specialize (Hnonempty Hne). specialize (Hstart (or_introl eq_refl)).
        destruct inRun.
        -- split; [exact Hspaced|]. split; [intros _; exact Hnonempty|].
           intros _. exact Hstart.
        -- cbn [singleSpaced]. rewrite Ascii.eqb_refl, Hspaced.
           destruct (collapse true r) as [|d rest] eqn:Hout; [congruence|].
           cbn [startsWithText] in Hstart. rewrite Hstart.
           split; [now rewrite orb_true_r|]. split; [discriminate|].
           intros [[=]|Hstarts]. cbn [startsWithText] in Hstarts. now rewrite Hc in Hstarts.
      * destruct (IH Hfix false) as (Hspaced & _ & _).
        cbn [singleSpaced startsWithText]. rewrite Hc, Hspaced.
        repeat split; discriminate || reflexivity.
Qed.

Lemma collapse_spaced_identity (t : string) :
  singleSpaced t = true -> collapse false t = t.
Proof.
  induction t as [|c r IH]; [reflexivity|]. cbn [singleSpaced collapse].
  intros Hs. apply andb_true_iff in Hs as [Hc Hr].
  destruct (isWhiteSpace c) eqn:Hws; cbn [negb orb] in Hc.
  - apply andb_true_iff in Hc as [Hblank Hnext]. apply Ascii.eqb_eq in Hblank. subst c.
    f_equal. destruct r as [|d r']; [discriminate|].
    apply negb_true_iff in Hnext. cbn [collapse]. rewrite Hnext. f_equal.
    specialize (IH Hr). cbn [collapse] in IH. rewrite Hnext in IH. now injection IH.
  - f_equal. now apply IH.
Qed.

Lemma singleSpaced_lines (t : string) : singleSpaced t = true -> lineFeeds t = 0.
Proof.
  induction t as [|c r IH]; [reflexivity|]. cbn [singleSpaced lineFeeds].
  intros Hs. apply andb_true_iff in Hs as [Hc Hr]. rewrite (IH Hr).
  destruct (Ascii.eqb_spec c (ascii_of_nat 10)) as [->|]; [|reflexivity].
  discriminate Hc.
Qed.

Lemma singleSpaced_trimmed (t : string) :
  singleSpaced t = true -> trimEnd t = t.
Proof.
  induction t as [|c r IH]; [reflexivity|]. cbn [singleSpaced].
  intros Hs. apply andb_true_iff in Hs as [Hc Hr]. cbn [trimEnd]. rewrite (IH Hr).
  destruct r as [|d r']; [|reflexivity].
  destruct (isWhiteSpace c); [|reflexivity]. cbn [negb orb] in Hc.
  now rewrite andb_false_r in Hc.
Qed.

Lemma startsWithText_trimStart (t : string) :
  startsWithText t = true -> trimStart t = t.
Proof.
  destruct t as [|c r]; [reflexivity|]. cbn [startsWithText trimStart].
  intros Hc. apply negb_true_iff in Hc. now rewrite Hc.
Qed.

(** X14.  The label as the Markdown shows it, [label.trim().replace(/\s+/g,
    ' ')], holds white space only as single blanks between two characters
    that are not white space: it neither starts nor ends with one, and it
    holds no line feed, so that a label never breaks its line.  A label
    already of that form is left as it is, and the operation applied twice
    gives what it gives once. *)
Theorem label_is_single_spaced (text : string) :
  let shown := collapseSpaces (trim text) in
  singleSpaced shown = true /\
  startsWithText shown = true /\
  lineFeeds shown = 0 /\
  collapseSpaces (trim shown) = shown /\
  (singleSpaced text = true -> startsWithText text = true -> shown = text).
Proof.
  intros shown. destruct (trim_shape text) as [Hfix Hstart].
  destruct (collapse_trimmed (trim text) Hfix false) as (Hspaced & _ & Hstarts).
  specialize (Hstarts (or_intror Hstart)). fold (collapseSpaces (trim text)) in *.
  fold shown in Hspaced, Hstarts.
  assert (Hid : forall t, singleSpaced t = true -> startsWithText t = true ->
                          collapseSpaces (trim t) = t).
  { intros t Hs Ht. unfold trim. rewrite (startsWithText_trimStart _ Ht).
    rewrite (singleSpaced_trimmed _ Hs). now apply collapse_spaced_identity. }
  split; [exact Hspaced|]. split; [exact Hstarts|].
  split; [now apply singleSpaced_lines|]. split; [now apply Hid|].
  intros Hs Ht. subst shown. now apply Hid.
Qed.

Lemma lineFeeds_app (a b : string) : lineFeeds (a ++ b) = lineFeeds a + lineFeeds b.
Proof. induction a as [|c a IH]; cbn [append lineFeeds]; [reflexivity | rewrite IH; lia]. Qed.

Lemma lineFeeds_trimStart (s : string) : lineFeeds (trimStart s) <= lineFeeds s.
Proof.
  induction s as [|c s IH]; [reflexivity|]. cbn [trimStart].
  destruct (isWhiteSpace c); cbn [lineFeeds]; lia.
Qed.

Lemma lineFeeds_trimEnd (s : string) : lineFeeds (trimEnd s) <= lineFeeds s.
Proof.
  induction s as [|c s IH]; [reflexivity|]. cbn [trimEnd].
  destruct (trimEnd s) as [|d r']; [destruct (isWhiteSpace c)|]; cbn [lineFeeds] in *; lia.
Qed.

Lemma lineFeeds_trim (s : string) : lineFeeds s = 0 -> lineFeeds (trim s) = 0.
Proof.
  intros Hs. unfold trim.
  pose proof (lineFeeds_trimEnd (trimStart s)). pose proof (lineFeeds_trimStart s). lia.
Qed.

Lemma lineFeeds_concat (sep : string) (items : list string) :
  lineFeeds sep = 0 -> Forall (fun item => lineFeeds item = 0) items ->
  lineFeeds (String.concat sep items) = 0.
Proof.
  intros Hsep Hitems. induction Hitems as [|item rest Hitem Hrest IH]; [reflexivity|].
  cbn [String.concat]. destruct rest as [|next rest]; [exact Hitem|].
  rewrite !lineFeeds_app. rewrite Hitem, Hsep, IH. reflexivity.
Qed.

Lemma takeawayLine_one_line (item : StructuredTakeaway) :
  lineFeeds (insight item) = 0 ->
  Forall (fun ts => lineFeeds ts = 0) (timestamps item) ->
  lineFeeds (takeawayLine item) = 0.
Proof.
  intros Hinsight Hstamps. unfold takeawayLine.
  assert (Hlabel : lineFeeds (collapseSpaces (trim (label item))) = 0).
  { destruct (trim_shape (label item)) as [Hfix _].
    destruct (collapse_trimmed _ Hfix false) as (Hspaced & _ & _).
    now apply singleSpaced_lines. }
  rewrite !lineFeeds_app, Hlabel, (lineFeeds_trim _ Hinsight).
  assert (Hsuffix : lineFeeds (timestampSuffix (timestamps item)) = 0).
  { unfold timestampSuffix.
    assert (Hitems : Forall (fun ts => lineFeeds ts = 0) (timestampItems (timestamps item))).
    { unfold timestampItems. apply Forall_forall. intros shown Hin.
      apply list_elem_of_fmap in Hin as (ts & -> & Hin).
      apply list_elem_of_filter in Hin as [_ Hin].
      apply list_elem_of_fmap in Hin as (raw & -> & Hin).
      rewrite Forall_forall in Hstamps. specialize (Hstamps _ Hin).
      rewrite !lineFeeds_app, (lineFeeds_trim _ Hstamps). reflexivity. }
    destruct (timestampItems (timestamps item)) as [|first more]; [reflexivity|].
    rewrite lineFeeds_app, lineFeeds_concat; [reflexivity | reflexivity | exact Hitems]. }
  rewrite Hsuffix. reflexivity.
Qed.

Lemma lineFeeds_lines (lines : list string) :
  Forall (fun line => lineFeeds line = 0) lines ->
  lineFeeds (String.concat lineFeed lines) = length lines - 1.
Proof.
  intros Hlines. induction Hlines as [|line rest Hline Hrest IH]; [reflexivity|].
  cbn [String.concat length]. destruct rest as [|next rest]; [rewrite Hline; reflexivity|].
  rewrite !lineFeeds_app, Hline, IH. cbn [length].
  change (lineFeeds lineFeed) with 1. lia.
Qed.

(** X15.  The Markdown starts with the heading and gives every takeaway
    one line after it: when no insight and no timestamp holds a line
    feed, the text has as many line feeds as there are takeaways,
    whatever the labels hold.  Without takeaways it is the heading
    alone. *)
Theorem markdown_one_line_per_takeaway (takeaways : list StructuredTakeaway) :
  Forall (fun item => lineFeeds (insight item) = 0 /\
                      Forall (fun ts => lineFeeds ts = 0) (timestamps item)) takeaways ->
  String.prefix TAKEAWAYS_HEADING (buildTakeawaysMarkdown takeaways) = true /\
  lineFeeds (buildTakeawaysMarkdown takeaways) = length takeaways /\
  buildTakeawaysMarkdown [] = TAKEAWAYS_HEADING.
Proof.
  intros Hclean. split; [|split; [|reflexivity]].
  - unfold buildTakeawaysMarkdown. cbn [String.concat].
    destruct (map takeawayLine takeaways); [|apply prefix_app].
    rewrite <- (append_nil_r TAKEAWAYS_HEADING) at 2. apply prefix_app.
  - unfold buildTakeawaysMarkdown. rewrite lineFeeds_lines.
    + cbn [length]. rewrite length_map. lia.
    + constructor; [reflexivity|]. apply Forall_forall. intros line Hin.
      apply list_elem_of_fmap in Hin as (item & -> & Hin).
      rewrite Forall_forall in Hclean. destruct (Hclean _ Hin) as [Hi Hs].
      now apply takeawayLine_one_line.
Qed.

End MarkdownFacts.

Module MarkdownExamples.
Import Js Json Recovery Summary RecoveryScenario.
Local Open Scope list_scope.
Local Open Scope nat_scope.

Lemma markdown_one_line_per_takeaway_witness :
  String.prefix TAKEAWAYS_HEADING (buildTakeawaysMarkdown returned) = true /\
  lineFeeds (buildTakeawaysMarkdown returned) = length returned /\
  buildTakeawaysMarkdown [] = TAKEAWAYS_HEADING.
Proof.
  apply (MarkdownFacts.markdown_one_line_per_takeaway returned).
  repeat constructor.
Defined.

(** A label over two lines comes out on one; timestamps that are blank are
    left out. *)
Example markdown_of_one_takeaway :
  buildTakeawaysMarkdown
    [ {| label := ("  Key" ++ lineFeed ++ "   point ")%string;
         insight := " It matters. ";
         timestamps := ["00:10"; "  "; " 01:20 "] |} ]
  = ("## Key takeaways" ++ lineFeed ++
     "- **Key point**: It matters. [00:10], [01:20]")%string.
Proof. vm_compute. reflexivity. Qed.

End MarkdownExamples.

(** ** The answer of a Claude stream, and the order of models and fallbacks *)
Module StreamFacts.
Import Js Providers Registry ClaudeStream JsFacts RegistryFacts RegexFacts.
Local Open Scope list_scope.

Lemma collect_app (a b : list SdkMessage) (acc : ClaudeAdapter.Collected) :
  ClaudeAdapter.collect (a ++ b) acc =
    match ClaudeAdapter.collect a acc with
    | inl error => inl error
    | inr acc' => ClaudeAdapter.collect b acc'
    end.
Proof.
  revert acc. induction a as [|[texts named|structured result|subtype errors|] a IH];
    intros acc; cbn [app ClaudeAdapter.collect]; auto.
Qed.

Lemma collect_assistant (before : list SdkMessage) (acc : ClaudeAdapter.Collected) :
  withoutResult before = true ->
  ClaudeAdapter.collect before acc =
    inr {| ClaudeAdapter.resultContent := ClaudeAdapter.resultContent acc ++ spoken before;
           ClaudeAdapter.structuredOutput := ClaudeAdapter.structuredOutput acc;
           ClaudeAdapter.resultModel := lastModel before (ClaudeAdapter.resultModel acc) |}.
Proof.
  revert acc. induction before as [|[texts named|structured result|subtype errors|] rest IH];
    intros acc Hplain; cbn [withoutResult forallb andb] in Hplain; try discriminate.
  - cbn [ClaudeAdapter.collect spoken lastModel]. rewrite append_nil_r. now destruct acc.
  - cbn [ClaudeAdapter.collect spoken lastModel]. rewrite (IH _ Hplain).
    cbn [ClaudeAdapter.resultContent ClaudeAdapter.structuredOutput ClaudeAdapter.resultModel].
    now rewrite append_assoc.
  - cbn [ClaudeAdapter.collect spoken lastModel]. now apply IH.
Qed.

Section WithBackends.
Context {World : Type} {backends : Backends World}.

(** X16.  For a stream of assistant messages closed by one success result
    that completes, [callClaude] returns the structured output of the
    result when it carries one; else the text of the assistant messages;
    and the text of the result only when the assistant messages carried
    none.  When what is chosen is empty it throws the error of the empty
    response.  The model reported is the one the last assistant message
    names, else the model requested. *)
Theorem claude_answer_from_stream (prompt model : string) (params : ProviderGenerateParams)
    (m : Machine World) (before : list SdkMessage) (structured : option string)
    (result : string) (w : World) :
  withoutResult before = true ->
  query prompt
    {| o_model := model;
       o_systemPrompt := ClaudeAdapter.buildSystemPrompt params;
       o_outputFormat := ClaudeAdapter.outputFormat params |} (world m) =
    (before ++ [ResultSuccess structured result], Completed, w) ->
  let finalContent :=
    match structured with
    | Some serialized => serialized
    | None => if nonEmpty (spoken before) then spoken before else result
    end in
  fst (ClaudeAdapter.callClaude prompt model params m) =
    if nonEmpty finalContent
    then Returned {| content := finalContent;
                     provider := "claude";
                     usedModel := default model (lastModel before None) |}
    else Threw (Error "Claude API returned an empty response.").
Proof.
  intros Hplain Hquery finalContent.
  unfold ClaudeAdapter.callClaude, bind, emit, request. cbn [world providerCache trace].
  rewrite Hquery. rewrite collect_app, (collect_assistant _ _ Hplain).
  cbn [ClaudeAdapter.collect ClaudeAdapter.resultContent ClaudeAdapter.structuredOutput
       ClaudeAdapter.resultModel append].
  assert (Htext : (if negb (nonEmpty (spoken before)) && nonEmpty result
                   then result else spoken before) =
                  (if nonEmpty (spoken before) then spoken before else result))
    by (destruct (spoken before), result; reflexivity).
  rewrite Htext.
  assert (Hfinal : match structured with
                   | Some v => Some v
                   | None => None
                   end = structured) by now destruct structured.
  rewrite Hfinal.
  replace (match structured with
           | Some serialized => serialized
           | None => if nonEmpty (spoken before) then spoken before else result
           end) with finalContent by reflexivity.
  destruct (nonEmpty finalContent); reflexivity.
Qed.

End WithBackends.

(** X17.  The list of Gemini models to try is a rearrangement of the
    cascade: with a model of the cascade requested, that model first and
    the others after it in the order of the cascade; with any other name
    or none, the cascade itself. *)
Theorem buildModelList_rearranges_cascade (preferred : option string) :
  Permutation (GeminiAdapter.buildModelList preferred) GeminiAdapter.MODEL_CASCADE /\
  (forall p, preferred = Some p -> In p GeminiAdapter.MODEL_CASCADE ->
     GeminiAdapter.buildModelList preferred =
       p :: filter (fun candidate => negb (String.eqb candidate p))
                   GeminiAdapter.MODEL_CASCADE) /\
  ((forall p, preferred = Some p -> ~ In p GeminiAdapter.MODEL_CASCADE) ->
   GeminiAdapter.buildModelList preferred = GeminiAdapter.MODEL_CASCADE).
Proof.
  assert (Hvalid : forall p, GeminiAdapter.isValidModel (Some p) = true <->
                             In p GeminiAdapter.MODEL_CASCADE).
  { intros p. unfold GeminiAdapter.isValidModel. split.
    - intros H. apply andb_true_iff in H as [_ H]. apply existsb_exists in H as (x & Hin & Heq).
      apply String.eqb_eq in Heq. now subst.
    - intros Hin. apply andb_true_iff. split.
      + destruct p; [|reflexivity]. cbn in Hin. intuition discriminate.
      + apply existsb_exists. exists p. split; [exact Hin | apply String.eqb_refl]. }
  split; [|split].
  - destruct preferred as [p|]; [|reflexivity]. unfold GeminiAdapter.buildModelList.
    destruct (GeminiAdapter.isValidModel (Some p)) eqn:Hp; [|reflexivity].
    apply Hvalid in Hp. cbn in Hp. destruct Hp as [<-|[<-|[<-|[]]]].
    + reflexivity.
    + apply perm_swap.
    + change (Permutation ["gemini-3-pro"; "gemini-2.5-flash-lite"; "gemini-3-flash"]
                (["gemini-2.5-flash-lite"; "gemini-3-flash"] ++ ["gemini-3-pro"])).
      apply Permutation_cons_append.
  - intros p -> Hin. unfold GeminiAdapter.buildModelList.
    apply Hvalid in Hin. now rewrite Hin.
  - intros Hnot. destruct preferred as [p|]; [|reflexivity].
    unfold GeminiAdapter.buildModelList.
    destruct (GeminiAdapter.isValidModel (Some p)) eqn:Hp; [|reflexivity].
    apply Hvalid in Hp. now destruct (Hnot p eq_refl).
Qed.

(** X18.  The fallback of a provider is the first configured provider
    other than it in the order grok, gemini, claude: for grok, gemini when
    GEMINI_API_KEY is set and claude otherwise; for gemini, grok when
    XAI_API_KEY is set and claude otherwise; for claude, grok, else
    gemini, and none when neither key is set, the one case without a
    fallback. *)
Theorem fallback_order (current : ProviderKey) (env : Env) :
  getFallbackProvider current env =
    match current with
    | grok => Some (if set (GEMINI_API_KEY env) then gemini else claude)
    | gemini => Some (if set (XAI_API_KEY env) then grok else claude)
    | claude => if set (XAI_API_KEY env) then Some grok
                else if set (GEMINI_API_KEY env) then Some gemini else None
    end.
Proof.
  unfold getFallbackProvider, availableProviders, providerKeys.
  rewrite !filter_cons, filter_nil. rewrite (claude_guard_set env).
  change (providerEnvGuards grok env) with (XAI_API_KEY env).
  change (providerEnvGuards gemini env) with (GEMINI_API_KEY env).
  destruct current, (set (XAI_API_KEY env)), (set (GEMINI_API_KEY env)); reflexivity.
Qed.

End StreamFacts.

Module StreamExamples.
Import Js Providers Registry ClaudeStream.
Local Open Scope list_scope.

Lemma claude_answer_from_stream_witness :
  fst (ClaudeAdapter.callClaude (backends := Scenario.geminiOverloaded) "Summarise"
         "claude-sonnet-4-6" (Scenario.ask "Summarise" None) Scenario.start) =
    if nonEmpty (if nonEmpty (spoken [Assistant ["from claude"] None])
                 then spoken [Assistant ["from claude"] None] else "from claude")
    then Returned {| content := if nonEmpty (spoken [Assistant ["from claude"] None])
                                then spoken [Assistant ["from claude"] None]
                                else "from claude";
                     provider := "claude";
                     usedModel := default "claude-sonnet-4-6"
                                    (lastModel [Assistant ["from claude"] None] None) |}
    else Threw (Error "Claude API returned an empty response.").
Proof.
  apply (StreamFacts.claude_answer_from_stream (backends := Scenario.geminiOverloaded)
           "Summarise" "claude-sonnet-4-6" (Scenario.ask "Summarise" None) Scenario.start
           [Assistant ["from claude"] None] None "from claude" 1).
  - reflexivity.
  - reflexivity.
Defined.

End StreamExamples.

(** ** Failure results of the Claude stream and the cascade *)
Module ClaudeFailureFacts.
Import Js Providers JsFacts RegexFacts GeminiFailureFacts.

Lemma prefix_closing (sep : ascii) (n u : string) :
  includes n (String sep "") = false ->
  String.prefix n (u ++ String sep "") = String.prefix n u.
Proof.
  revert u. induction n as [|d n IH]; intros u Hsep.
  - now destruct u.
  - assert (Hn : includes n (String sep "") = false).
    { rewrite includes_cons in Hsep. now apply orb_false_iff in Hsep as [_ Hn]. }
    assert (Hd : d <> sep).
    { intros ->. rewrite includes_cons in Hsep. apply orb_false_iff in Hsep as [Hp _].
      cbn [String.prefix] in Hp.
      destruct (ascii_dec sep sep); [destruct n; discriminate | congruence]. }
    destruct u as [|x u]; cbn [append String.prefix].
    + destruct (ascii_dec d sep); [contradiction | reflexivity].
    + destruct (ascii_dec d x); [now apply IH | reflexivity].
Qed.

(** A text that is not empty and does not contain [sep] occurs in
    [a ++ sep] exactly when it occurs in [a]. *)
Lemma includes_before (a : string) (sep : ascii) (n : string) :
  n <> EmptyString -> includes n (String sep "") = false ->
  includes (a ++ String sep "") n = includes a n.
Proof.
  intros Hne Hsep. induction a as [|x a IH].
  - cbn [append]. rewrite includes_cons, !includes_empty.
    change (String sep "") with ("" ++ String sep "").
    rewrite (prefix_closing sep n "" Hsep). destruct n; [congruence | reflexivity].
  - change (String x a ++ String sep "") with (String x (a ++ String sep "")).
    rewrite !includes_cons, IH.
    change (String x (a ++ String sep "")) with (String x a ++ String sep "").
    now rewrite (prefix_closing sep n (String x a) Hsep).
Qed.

(** The test of the Claude executor on the message of a failure result:
    the test of the subtype, or the test of the text after it. *)
Lemma claude_retryable_failure (subtype tail : string) :
  ClaudeAdapter.isRetryableError
    (Error ("Claude query failed (" ++ subtype ++ "): " ++ tail)) =
    ClaudeAdapter.isRetryableError (Error subtype) ||
    ClaudeAdapter.isRetryableError (Error tail).
Proof.
  unfold ClaudeAdapter.isRetryableError, Error. cbn [truthy negb messageOrString].
  assert (Hlow : toLowerCase ("Claude query failed (" ++ subtype ++ "): " ++ tail) =
                 "claude query failed " ++
                 String "(" (toLowerCase subtype ++
                             String ")" (String ":" (String " " (toLowerCase tail)))))
    by (cbn [append toLowerCase]; rewrite toLowerCase_app; reflexivity).
  rewrite Hlow.
  set (inner := toLowerCase subtype ++
                String ")" (String ":" (String " " (toLowerCase tail)))).
  rewrite (includes_after _ "(" inner "429"), (includes_after _ "(" inner "503"),
          (includes_after _ "(" inner "529"), (includes_after _ "(" inner "overloaded"),
          (includes_after _ "(" inner "rate_limit"),
          (includes_after _ "(" inner "service unavailable") by reflexivity.
  subst inner.
  set (after := String ":" (String " " (toLowerCase tail))).
  rewrite (includes_after _ ")" after "429"), (includes_after _ ")" after "503"),
          (includes_after _ ")" after "529"), (includes_after _ ")" after "overloaded"),
          (includes_after _ ")" after "rate_limit"),
          (includes_after _ ")" after "service unavailable") by reflexivity.
  subst after.
  rewrite (includes_before _ ")" "429"), (includes_before _ ")" "503"),
          (includes_before _ ")" "529"), (includes_before _ ")" "overloaded"),
          (includes_before _ ")" "rate_limit"),
          (includes_before _ ")" "service unavailable") by (discriminate || reflexivity).
  rewrite (includes_skip ":" _ "429"), (includes_skip ":" _ "503"),
          (includes_skip ":" _ "529"), (includes_skip ":" _ "overloaded"),
          (includes_skip ":" _ "rate_limit"),
          (includes_skip ":" _ "service unavailable") by reflexivity.
  rewrite (includes_skip " " _ "429"), (includes_skip " " _ "503"),
          (includes_skip " " _ "529"), (includes_skip " " _ "overloaded"),
          (includes_skip " " _ "rate_limit"),
          (includes_skip " " _ "service unavailable") by reflexivity.
  change (includes ("claude query failed " ++ String "(" "") "429") with false.
  change (includes ("claude query failed " ++ String "(" "") "503") with false.
  change (includes ("claude query failed " ++ String "(" "") "529") with false.
  change (includes ("claude query failed " ++ String "(" "") "overloaded") with false.
  change (includes ("claude query failed " ++ String "(" "") "rate_limit") with false.
  change (includes ("claude query failed " ++ String "(" "") "service unavailable") with false.
  cbn [orb].
  repeat match goal with
         | |- context [includes (toLowerCase subtype) ?n] =>
             generalize (includes (toLowerCase subtype) n); intros []
         end;
    cbn [orb]; rewrite ?orb_true_r; reflexivity.
Qed.

(** X19.  A failure result in the stream makes [callClaude] throw at
    once, whatever follows it, with a message made of the result's subtype
    and its error texts.  The cascade passes on to the next model exactly
    when the subtype or one of the error texts, joined by a comma and a
    blank, holds one of the six marks of the Claude executor; a failure
    without error texts does so only through its subtype. *)
Theorem claude_failure_result_retry (subtype : string) (errors : list string)
    (rest : list SdkMessage) (acc : ClaudeAdapter.Collected) :
  exists error,
    ClaudeAdapter.collect (ResultFailure subtype errors :: rest)%list acc = inl error /\
    ClaudeAdapter.isRetryableError error =
      ClaudeAdapter.isRetryableError (Error subtype) ||
      ClaudeAdapter.isRetryableError (Error (String.concat ", " errors)) /\
    (errors = nil ->
     ClaudeAdapter.isRetryableError error = ClaudeAdapter.isRetryableError (Error subtype)).
Proof.
  eexists. split; [reflexivity|].
  assert (Hmain : ClaudeAdapter.isRetryableError
                    (Error ("Claude query failed (" ++ subtype ++ "): " ++
                            (if nonEmpty (String.concat ", " errors)
                             then String.concat ", " errors else "unknown error"))) =
                  ClaudeAdapter.isRetryableError (Error subtype) ||
                  ClaudeAdapter.isRetryableError (Error (String.concat ", " errors))).
  { rewrite claude_retryable_failure. f_equal.
    destruct (String.concat ", " errors); reflexivity. }
  split; [exact Hmain|].
  intros ->. rewrite Hmain. cbn [String.concat].
  change (ClaudeAdapter.isRetryableError (Error "")) with false. apply orb_false_r.
Qed.

End ClaudeFailureFacts.

(** ** The requests of one orchestrated call *)
Module RequestFacts.
Import Js Providers Registry Trace JsFacts RegistryFacts CascadeFacts OrchestratorFacts.
Local Open Scope list_scope.

Section WithBackends.
Context {World : Type} {backends : Backends World}.

(** One invocation of an adapter asks each of at most three models once. *)
Lemma adapterGenerate_requests (key : ProviderKey) (params : ProviderGenerateParams)
    (m : Machine World) :
  exists models,
    trace (snd (adapterGenerate key params m)) =
      trace m ++ AdapterGenerate key params :: map (BackendRequest key) models /\
    NoDup models /\ length models <= 3.
Proof.
  unfold adapterGenerate, bind at 1, emit. simpl.
  set (m0 := Build_Machine (world m) (providerCache m) (trace m ++ [AdapterGenerate key params])).
  destruct key.
  - exists []. split; [|split; [constructor | cbn [length]; lia]].
    unfold bind, request, settle. simpl.
    destruct (grokGenerate params (world m)) as [c w]. simpl.
    destruct c; reflexivity.
  - destruct (gemini_walk params (GeminiAdapter.buildModelList (model params)) ThrownNothing m0)
      as (n & c & m1 & Hrun & Hn & _ & Htr & _).
    unfold GeminiAdapter.generate. rewrite Hrun. cbn [snd]. rewrite Htr. subst m0.
    cbn [trace]. rewrite <- app_assoc. cbn [app].
    destruct (GeminiAdapter.buildGenerationConfig params).
    + exists []. split; [reflexivity|]. split; [constructor | cbn [length]; lia].
    + exists (take n (GeminiAdapter.buildModelList (model params))).
      split; [reflexivity|]. split.
      * apply (sublist_NoDup _ (GeminiAdapter.buildModelList (model params)));
          [apply gemini_models_distinct | apply sublist_take].
      * rewrite length_take, buildModelList_length. lia.
  - destruct (claude_startModel_listed params) as [i Hi].
    destruct (claude_cascade_walk params (length ClaudeAdapter.MODEL_CASCADE) i _ m0 Hi
                ltac:(lia)) as (n & m1 & Hn & Htr & _ & Hrun & _).
    unfold ClaudeAdapter.generate. rewrite Hrun.
    destruct (callClaude_effect (prompt params)
                (nth (i + n) ClaudeAdapter.MODEL_CASCADE "") params m1)
      as (c & m' & -> & Htr' & _). cbn [snd]. rewrite Htr', Htr. subst m0. cbn [trace].
    assert (Hl : drop i ClaudeAdapter.MODEL_CASCADE !! n =
                 Some (nth (i + n) ClaudeAdapter.MODEL_CASCADE "")).
    { rewrite lookup_drop.
      destruct (nth_lookup_or_length ClaudeAdapter.MODEL_CASCADE (i + n) "");
        [assumption | lia]. }
    exists (take (S n) (drop i ClaudeAdapter.MODEL_CASCADE)).
    split; [|split].
    + rewrite (take_S_r _ _ _ Hl), map_app, <- !app_assoc. reflexivity.
    + apply (sublist_NoDup _ ClaudeAdapter.MODEL_CASCADE); [exact claude_models_distinct|].
      etransitivity; [apply sublist_take | apply sublist_drop].
    + rewrite length_take, length_drop. change (length ClaudeAdapter.MODEL_CASCADE) with 3. lia.
Qed.

Lemma requests_distinct (key : ProviderKey) (models : list string) :
  NoDup models -> NoDup (map (pair key) models).
Proof.
  intros Hnd. apply NoDup_fmap_2; [|exact Hnd]. intros x y [=]. assumption.
Qed.

Lemma requests_of_key (key k : ProviderKey) (models : list string) :
  length (filter (fun request => fst request = key) (map (pair k) models)) =
    if bool_decide (k = key) then length models else 0.
Proof.
  induction models as [|x models IH]; [now destruct (bool_decide _)|].
  cbn [map]. rewrite filter_cons. cbn [fst].
  destruct (decide (k = key)) as [Heq|Hne].
  - cbn [length]. rewrite IH, !bool_decide_eq_true_2 by exact Heq. reflexivity.
  - rewrite IH, !bool_decide_eq_false_2 by exact Hne. reflexivity.
Qed.

(** X20.  One call of [generateStructuredContent] never asks the same
    model of the same provider twice: the requests it adds to the trace,
    over the primary adapter and the fallback together, are distinct, at
    most three to the backend of any one provider and six in all, and it
    invokes two adapters at most.  (What the Grok adapter sends is not
    part of the trace.) *)
Theorem orchestrated_call_asks_each_model_once (provider : option string)
    (rest : ProviderGenerateParams) (env : Env) (m : Machine World) :
  exists added,
    trace (snd (generateStructuredContent provider rest env m)) = trace m ++ added /\
    NoDup (backendRequests added) /\
    (forall key : ProviderKey,
       length (filter (fun request => fst request = key) (backendRequests added)) <= 3) /\
    length (backendRequests added) <= 6 /\
    length (adapterCalls added) <= 2.
Proof.
  set (primaryKey := resolveProviderKey provider env).
  assert (Hone : forall key models,
            NoDup models -> length models <= 3 ->
            NoDup (backendRequests (AdapterGenerate key rest :: map (BackendRequest key) models)) /\
            (forall k : ProviderKey,
               length (filter (fun request => fst request = k)
                         (backendRequests
                            (AdapterGenerate key rest :: map (BackendRequest key) models))) <= 3) /\
            length (backendRequests
                      (AdapterGenerate key rest :: map (BackendRequest key) models)) <= 3 /\
            length (adapterCalls
                      (AdapterGenerate key rest :: map (BackendRequest key) models)) = 1).
  { intros key models Hnd Hlen. cbn [backendRequests adapterCalls].
    rewrite backendRequests_requests, adapterCalls_requests, length_map.
    repeat split; [now apply requests_distinct | | exact Hlen].
    intros k. rewrite requests_of_key. destruct (bool_decide _); lia. }
  unfold generateStructuredContent, bind at 1. unfold getProvider. fold primaryKey.
  unfold ensureProvider at 1.
  assert (Hnone : exists added,
             trace m = trace m ++ added /\ NoDup (backendRequests added) /\
             (forall key : ProviderKey,
                length (filter (fun request => fst request = key)
                          (backendRequests added)) <= 3) /\
             length (backendRequests added) <= 6 /\ length (adapterCalls added) <= 2).
  { exists []. rewrite app_nil_r.
    repeat split; [constructor | intros key; cbn; lia | cbn; lia | cbn; lia]. }
  assert (Hmain : forall m1, trace m1 = trace m ->
            exists added,
              trace (snd (tryCatch (adapterGenerate primaryKey rest)
                 (fun error =>
                    if Registry.isRetryableError error
                    then match getFallbackProvider primaryKey env with
                         | Some fallbackKey =>
                             tryCatch
                               (bind (ensureProvider fallbackKey env)
                                     (fun fallbackAdapter => adapterGenerate fallbackAdapter rest))
                               (fun _ => throw error)
                         | None => throw error
                         end
                    else throw error) m1)) = trace m ++ added /\
              NoDup (backendRequests added) /\
              (forall key : ProviderKey,
                 length (filter (fun request => fst request = key)
                           (backendRequests added)) <= 3) /\
              length (backendRequests added) <= 6 /\ length (adapterCalls added) <= 2).
  { intros m1 Htr1.
    destruct (adapterGenerate_requests primaryKey rest m1) as (models & Htr2 & Hnd & Hlen).
    destruct (Hone primaryKey models Hnd Hlen) as (Hnd1 & Hkey1 & Hlen1 & Hcalls1).
    assert (Hsingle : exists added,
               trace (snd (adapterGenerate primaryKey rest m1)) = trace m ++ added /\
               NoDup (backendRequests added) /\
               (forall key : ProviderKey,
                  length (filter (fun request => fst request = key)
                            (backendRequests added)) <= 3) /\
               length (backendRequests added) <= 6 /\ length (adapterCalls added) <= 2).
    { eexists. rewrite Htr2, Htr1. split; [reflexivity|].
      split; [exact Hnd1|]. split; [exact Hkey1|]. split; lia. }
    unfold tryCatch at 1.
    destruct (adapterGenerate primaryKey rest m1) as [c m2] eqn:Hgen.
    destruct c as [r|error|]; try exact Hsingle.
    destruct (Registry.isRetryableError error); [|exact Hsingle].
    destruct (getFallbackProvider primaryKey env) as [fallbackKey|] eqn:Hfb;
      [|exact Hsingle].
    destruct (getFallbackProvider_sound _ _ _ Hfb) as [Hne Hset].
    destruct (ensureProvider_configured fallbackKey env m2 Hset) as (m3 & Hens & _ & Htr3).
    destruct (adapterGenerate_requests fallbackKey rest m3) as (models2 & Htr4 & Hnd2 & Hlen2).
    exists ((AdapterGenerate primaryKey rest :: map (BackendRequest primaryKey) models) ++
            AdapterGenerate fallbackKey rest :: map (BackendRequest fallbackKey) models2).
    split; [|split; [|split; [|split]]].
    - unfold tryCatch, bind. rewrite Hens.
      destruct (adapterGenerate fallbackKey rest m3) as [c4 m4]. cbn [snd] in Htr4.
      assert (Htrace : trace m4 = trace m ++
                (AdapterGenerate primaryKey rest :: map (BackendRequest primaryKey) models) ++
                AdapterGenerate fallbackKey rest :: map (BackendRequest fallbackKey) models2).
      { rewrite Htr4, Htr3. cbn [snd] in Htr2. rewrite Htr2, Htr1, <- !app_assoc. reflexivity. }
      destruct c4; exact Htrace.
    - rewrite backendRequests_app. cbn [backendRequests].
      rewrite !backendRequests_requests. apply NoDup_app. split; [now apply requests_distinct|].
      split; [|now apply requests_distinct].
      intros [k model] Hin1 Hin2.
      apply list_elem_of_fmap in Hin1 as (x & [= -> ->] & _).
      apply list_elem_of_fmap in Hin2 as (y & [= Hk _] & _). congruence.
    - intros key. rewrite backendRequests_app. cbn [backendRequests].
      rewrite !backendRequests_requests, filter_app, length_app, !requests_of_key.
      destruct (decide (primaryKey = key)) as [Hp|Hp];
        destruct (decide (fallbackKey = key)) as [Hf|Hf]; [congruence | | |].
      + rewrite bool_decide_eq_true_2, bool_decide_eq_false_2 by assumption. lia.
      + rewrite bool_decide_eq_false_2, bool_decide_eq_true_2 by assumption. lia.
      + rewrite !bool_decide_eq_false_2 by assumption. lia.
    - rewrite backendRequests_app. cbn [backendRequests].
      rewrite !backendRequests_requests, length_app, !length_map. lia.
    - rewrite adapterCalls_app. cbn [adapterCalls].
      rewrite !adapterCalls_requests. cbn [length app]. lia. }
  destruct (providerCache m primaryKey); [now apply Hmain|].
  destruct (negb (set (providerEnvGuards primaryKey env))); [exact Hnone|].
  destruct (providerFactories primaryKey env); [exact Hnone|].
  now apply Hmain.
Qed.

End WithBackends.

End RequestFacts.

(** ** The translate-batch handler: what reaches the translation client *)
Module BatchRequestFacts.
Import Js Batch BatchRequest BatchFacts.
Local Open Scope list_scope.
Local Open Scope nat_scope.

Lemma fold_chars (texts : list string) (start : N) :
  fold_left (fun sum t => (sum + N.of_nat (String.length t))%N) texts start =
    (start + totalChars texts)%N.
Proof.
  unfold totalChars. revert start.
  induction texts as [|t rest IH]; intros start; cbn [fold_left].
  - lia.
  - rewrite IH, (IH (0 + _)%N). lia.
Qed.

Lemma totalChars_app (a b : list string) :
  totalChars (a ++ b) = (totalChars a + totalChars b)%N.
Proof. unfold totalChars at 1. rewrite fold_left_app, fold_chars. reflexivity. Qed.

Lemma totalChars_part (texts : list string) (from size : nat) :
  (totalChars (take size (drop from texts)) <= totalChars texts)%N.
Proof.
  rewrite <- (take_drop from texts) at 2. rewrite totalChars_app.
  rewrite <- (take_drop size (drop from texts)) at 2. rewrite totalChars_app. lia.
Qed.

(** X21.  The handler answers an empty list of texts with an empty list
    of translations; it refuses a list of more than 10000 texts, and a list
    of at most 10000 texts holding more than 500000 characters in all, each
    with its own message and status 400, before anything is translated; and
    it goes on to dispatch exactly the other requests.  What it dispatches
    holds at most 10000 texts and 500000 characters in all, and is cut into
    between one and a hundred chunks that together are the texts, each of
    one to a hundred texts, served by between one and six workers. *)
Theorem dispatched_request_bounds (texts : list string) :
  (precheck texts = Some (Translations []) <-> texts = []) /\
  (precheck texts = Some (Failure "Batch size too large. Maximum 10000 texts allowed." 400) <->
   (MAX_REQUEST_TEXTS < N.of_nat (length texts))%N) /\
  (precheck texts =
     Some (Failure "Total text size too large. Maximum 500000 characters allowed." 400) <->
   texts <> [] /\ (N.of_nat (length texts) <= MAX_REQUEST_TEXTS)%N /\
   (MAX_TOTAL_CHARS < totalChars texts)%N) /\
  (forall error status, precheck texts = Some (Failure error status) -> status = 400%Z) /\
  (precheck texts = None <->
   texts <> [] /\ (N.of_nat (length texts) <= MAX_REQUEST_TEXTS)%N /\
   (totalChars texts <= MAX_TOTAL_CHARS)%N) /\
  (precheck texts = None ->
   exists chunks,
     chunk texts CHUNK_SIZE = Some chunks /\
     concat chunks = texts /\
     (totalChars (concat chunks) <= MAX_TOTAL_CHARS)%N /\
     1 <= length chunks <= 100 /\
     1 <= Nat.min CONCURRENCY (length chunks) <= 6 /\
     Forall (fun c => 1 <= length c <= CHUNK_SIZE /\
                      (totalChars c <= MAX_TOTAL_CHARS)%N) chunks).
Proof.
  assert (Hcases :
    (texts = [] /\ precheck texts = Some (Translations [])) \/
    (texts <> [] /\ (MAX_REQUEST_TEXTS < N.of_nat (length texts))%N /\
     precheck texts =
       Some (Failure "Batch size too large. Maximum 10000 texts allowed." 400)) \/
    (texts <> [] /\ (N.of_nat (length texts) <= MAX_REQUEST_TEXTS)%N /\
     (MAX_TOTAL_CHARS < totalChars texts)%N /\
     precheck texts =
       Some (Failure "Total text size too large. Maximum 500000 characters allowed." 400)) \/
    (texts <> [] /\ (N.of_nat (length texts) <= MAX_REQUEST_TEXTS)%N /\
     (totalChars texts <= MAX_TOTAL_CHARS)%N /\ precheck texts = None)).
  { unfold precheck. destruct texts as [|t rest]; [left; split; reflexivity|].
    right. cbn [length Nat.eqb].
    destruct (N.ltb_spec MAX_REQUEST_TEXTS (N.of_nat (S (length rest)))) as [Hcount|Hcount].
    - left. repeat split; [discriminate | exact Hcount].
    - right.
      destruct (N.ltb_spec MAX_TOTAL_CHARS (totalChars (t :: rest))) as [Hchars|Hchars].
      + left. repeat split; [discriminate | exact Hcount | exact Hchars].
      + right. repeat split; [discriminate | exact Hcount | exact Hchars]. }
  assert (Hempty : N.of_nat (length (@nil string)) = 0%N) by reflexivity.
  unfold MAX_REQUEST_TEXTS, MAX_TOTAL_CHARS in *.
  split; [|split; [|split; [|split; [|split]]]].
  1, 2, 3, 5:
    destruct Hcases as [[-> Hp]|[(Hne & Hc & Hp)|[(Hne & Hc & Ht & Hp)|(Hne & Hc & Ht & Hp)]]];
    rewrite Hp; split; intros H;
    first [ discriminate H | reflexivity | congruence | lia
          | repeat split; assumption
          | destruct H as (H1 & H2 & H3); first [congruence | lia] ].
  - intros error status.
    destruct Hcases as [[-> Hp]|[(Hne & Hc & Hp)|[(Hne & Hc & Ht & Hp)|(Hne & Hc & Ht & Hp)]]];
      rewrite Hp; try discriminate; now intros [= _ <-].
  - destruct Hcases as [[-> Hp]|[(Hne & Hc & Hp)|[(Hne & Hc & Ht & Hp)|(Hne & Hcount & Hchars & Hp)]]];
      rewrite Hp; try discriminate.
    intros _.
    assert (Hsome : length texts <> 0) by (destruct texts; [congruence | discriminate]).
    destruct (chunk_total texts CHUNK_SIZE) as [chunks Hchunks]; [unfold CHUNK_SIZE; lia|].
    exists chunks. split; [exact Hchunks|].
    pose proof (chunk_concat texts CHUNK_SIZE chunks Hchunks) as Hcat.
    split; [exact Hcat|]. split; [now rewrite Hcat|].
    pose proof (chunk_length texts CHUNK_SIZE chunks ltac:(unfold CHUNK_SIZE; lia) Hchunks)
      as Hlen.
    assert (Hbound : 1 <= length chunks <= 100).
    { rewrite Hlen. unfold CHUNK_SIZE. cbn [Nat.sub]. split.
      - apply Nat.div_le_lower_bound; lia.
      - enough ((length texts + 99) / 100 < 101) by lia.
        apply Nat.Div0.div_lt_upper_bound. lia. }
    split; [exact Hbound|]. split; [unfold CONCURRENCY; lia|].
    apply Forall_forall. intros c Hin.
    apply list_elem_of_lookup in Hin as [k Hk].
    destruct (chunk_extent texts chunks Hchunks k c Hk) as (-> & Hsize & Hpos & _).
    split; [lia|]. pose proof (totalChars_part texts (k * CHUNK_SIZE) CHUNK_SIZE). lia.
Qed.

End BatchRequestFacts.
